(** * CARET_analyze: trace-to-topology reconstruction and causal-path search

    A shallow embedding of
    - [caret_analyze/graph_search.py]   (cycle-tolerant path search),
    - [caret_analyze/infra/lttng/lttng_info.py] (publisher binder, table builders),
    - [caret_analyze/trace/lttng/lttng.py] (variable-passing record composer),
    together with the properties the specification states about them. *)

From Stdlib Require Import ZArith Lia Ascii.
From stdpp Require Import base option list strings pretty gmap sorting.

Set Default Proof Using "Type".

(** ** Exceptions and the result monad

    Python code that can raise is embedded in [result]; the exception
    kinds are those the embedded functions can raise.  [RecursionError] is
    raised when the recursion depth (the fuel of [search_local]) is used up. *)

Inductive exn : Type :=
  | RecursionError
  | StopIteration
  | KeyError
  | ValueError
  | TypeError
  | IndexError.

Inductive result (A : Type) : Type :=
  | Ok (a : A)
  | Raise (e : exn).

Arguments Ok {A} a.
Arguments Raise {A} e.

#[global] Instance result_ret : MRet result := @Ok.
#[global] Instance result_bind : MBind result :=
  λ A B f m, match m with Ok a => f a | Raise e => Raise e end.

(** [for x in xs: body] with the loop state threaded through. *)
Fixpoint for_each {A S : Type} (body : A → S → result S) (xs : list A) (st : S)
  : result S :=
  match xs with
  | [] => Ok st
  | x :: xs' => st' ← body x st; for_each body xs' st'
  end.

(** [[f(x) for x in xs]] where [f] can raise. *)
Fixpoint mapM {A B : Type} (f : A → result B) (xs : list A) : result (list B) :=
  match xs with
  | [] => Ok []
  | x :: xs' => y ← f x; ys ← mapM f xs'; Ok (y :: ys)
  end.

(** [try: body except KeyError: return default] *)
Definition except_KeyError {A : Type} (body : result A) (default : A) : result A :=
  match body with
  | Raise KeyError => Ok default
  | r => r
  end.

(** The only exception [r] can raise is [KeyError]. *)
Definition only_KeyError {A : Type} (r : result A) : Prop :=
  ∀ e, r = Raise e → e = KeyError.

(** Two runs end the same way: both return, with related values, or both
    raise the same exception. *)
Definition res_rel {S T : Type} (R : S → T → Prop) (r1 : result S) (r2 : result T) : Prop :=
  match r1, r2 with
  | Ok a, Ok b => R a b
  | Raise e1, Raise e2 => e1 = e2
  | _, _ => False
  end.

(** ** graph_search.py *)

Module Graph.

(** [GraphNode]: equality is by [name]. *)
Record GraphNode : Type := { name : string }.

(** [GraphBranch]: [__init__] sets [arrived = False]; equality looks at the
    two end points only. *)
Record GraphBranch : Type :=
  { arrived : bool; src_node : GraphNode; dst_node : GraphNode }.

Definition node_eq (a b : GraphNode) : bool := String.eqb (name a) (name b).

Definition branch_eq (a b : GraphBranch) : bool :=
  node_eq (src_node a) (src_node b) && node_eq (dst_node a) (dst_node b).

Definition new_branch (src dst : GraphNode) : GraphBranch :=
  {| arrived := false; src_node := src; dst_node := dst |}.

(** *** The object store

    [GraphBranch] objects are mutable ([branch_.arrived = True]) and the
    lists handled by the search hold references to them, so branches live in
    a store and lists hold addresses.  An address is an index in the store;
    a new object gets the next free index.  Nodes are never written and are
    kept as values. *)

Abbreviation loc := nat (only parsing).
Abbreviation heap := (list GraphBranch) (only parsing).

(** Reading an address that was never allocated cannot happen in the
    program; the embedding reads a fixed branch there. *)
Definition unallocated : GraphBranch :=
  new_branch {| name := "" |} {| name := "" |}.

Definition deref (h : heap) (l : loc) : GraphBranch := default unallocated (h !! l).

Definition alloc (h : heap) (b : GraphBranch) : heap * loc := (h ++ [b], length h).

(** [branch_.arrived = True] *)
Definition set_arrived (h : heap) (l : loc) : heap :=
  <[l := {| arrived := true;
            src_node := src_node (deref h l);
            dst_node := dst_node (deref h l) |}]> h.

(** [GraphPath] is a [UserList] of branch references. *)
Abbreviation GraphPath := (list loc) (only parsing).

(** *** copy.deepcopy on a list of branches

    Every object met for the first time is copied to a fresh address; the
    memo makes a second reference to the same object point to the same
    copy. *)

Fixpoint memo_get (memo : list (loc * loc)) (l : loc) : option loc :=
  match memo with
  | [] => None
  | (k, v) :: memo' => if Nat.eqb k l then Some v else memo_get memo' l
  end.

Fixpoint deepcopy_refs (memo : list (loc * loc)) (h : heap) (ls : list loc)
  : heap * list (loc * loc) * list loc :=
  match ls with
  | [] => (h, memo, [])
  | l :: ls' =>
      match memo_get memo l with
      | Some l' =>
          let '(h', memo', out) := deepcopy_refs memo h ls' in
          (h', memo', l' :: out)
      | None =>
          let '(h1, l') := alloc h (deref h l) in
          let '(h', memo', out) := deepcopy_refs ((l, l') :: memo) h1 ls' in
          (h', memo', l' :: out)
      end
  end.

Definition deepcopy (h : heap) (ls : list loc) : heap * list loc :=
  let '(h', _, out) := deepcopy_refs [] h ls in (h', out).

(** [GraphPath.to_graph_nodes] *)
Definition to_graph_nodes (h : heap) (path : GraphPath) : list GraphNode :=
  match path with
  | [] => []
  | first :: _ =>
      src_node (deref h first) :: map (λ branch, dst_node (deref h branch)) path
  end.

(** *** GraphSearcher.search *)

Abbreviation state := (heap * list GraphPath)%type (only parsing).

(** [next(filter(lambda branch_: branch_ == branch, branches_))] *)
Definition next_equal (h : heap) (branch : loc) (branches_ : list loc) : result loc :=
  match List.find (λ branch_, branch_eq (deref h branch_) (deref h branch)) branches_ with
  | Some branch_ => Ok branch_
  | None => Raise StopIteration
  end.

(** The body of [for branch in target_branches]; [rec] is the recursive
    call of [search_local]. *)
Definition visit
    (rec : GraphNode → GraphPath → list loc → state → result state)
    (path : GraphPath) (branches : list loc) (branch : loc) (st : state)
  : result state :=
  let '(h, paths) := st in
  if arrived (deref h branch) then Ok (h, paths)
  else
    let '(h1, branches_) := deepcopy h branches in
    branch_ ← next_equal h1 branch branches_;
    let h2 := set_arrived h1 branch_ in
    let '(h3, path_) := deepcopy h2 path in
    let path_ := path_ ++ [branch] in
    rec (dst_node (deref h3 branch_)) path_ branches_ (h3, paths).

Fixpoint search_local (fuel : nat) (dst : GraphNode)
    (node : GraphNode) (path : GraphPath) (branches : list loc) (st : state)
  : result state :=
  match fuel with
  | 0 => Raise RecursionError
  | S fuel' =>
      let '(h, paths) := st in
      let paths :=
        if node_eq node dst && (0 <? length path) then paths ++ [path] else paths in
      let target_branches :=
        List.filter (λ x, node_eq (src_node (deref h x)) node) branches in
      for_each (visit (search_local fuel' dst) path branches) target_branches (h, paths)
  end.

(** [GraphSearcher(branches).search(src_node, dst_node)], run in store [h]
    with recursion depth [fuel]. *)
Definition search (fuel : nat) (h : heap) (branches : list loc)
    (src dst : GraphNode) : result state :=
  search_local fuel dst src [] branches (h, []).

(** The branches a path refers to, read from the store. *)
Definition path_branches (h : heap) (path : GraphPath) : list GraphBranch :=
  map (deref h) path.


(** *** Walks

    [walk n w m]: the branches [w] lead from node [n] to node [m], each
    starting where the previous one ends. *)
Inductive walk : GraphNode → list GraphBranch → GraphNode → Prop :=
  | walk_nil n : walk n [] n
  | walk_cons n b bs m :
      src_node b = n → walk (dst_node b) bs m → walk n (b :: bs) m.

Definition valid (h : heap) (ls : list loc) : Prop := Forall (λ l, l < length h) ls.

(** [p], read in store [h'], is [path] (read in [h]) followed by the walk [w]
    from [node] to [dst]. *)
Definition completes (h : heap) (path : GraphPath) (node dst : GraphNode)
    (h' : heap) (p : GraphPath) (w : list GraphBranch) : Prop :=
  valid h' p ∧ path_branches h' p = path_branches h path ++ w ∧ walk node w dst.

(** What [if node == dst_node and len(path) > 0: paths.append(path)] adds. *)
Definition recorded (dst node : GraphNode) (path : GraphPath) : list GraphPath :=
  if node_eq node dst && (0 <? length path) then [path] else [].

(** The store only grows, and the paths added after [first] are strict
    extensions of [path] by walks to [dst]. *)
Definition search_post (h : heap) (path : GraphPath) (node dst : GraphNode)
    (first ps : list GraphPath) (h' : heap) (ps' : list GraphPath) : Prop :=
  h `prefix_of` h' ∧
  ∃ more, ps' = ps ++ first ++ more ∧
    Forall (λ p, ∃ w, completes h path node dst h' p w ∧ w ≠ []) more.

Definition search_spec (dst : GraphNode)
    (rec : GraphNode → GraphPath → list loc → state → result state) : Prop :=
  ∀ node path branches h ps h' ps',
    valid h path → valid h branches →
    rec node path branches (h, ps) = Ok (h', ps') →
    search_post h path node dst (recorded dst node path) ps h' ps'.


(** *** Two runs that differ by the addresses of new objects

    [shift n k] leaves the addresses below [n] alone and moves the others
    up by [k]; [shifted n k h1 h2] says that [h2] is [h1] with [k] more
    objects inserted at address [n]. *)
Definition shift (n k : nat) (l : loc) : loc := if l <? n then l else l + k.

Definition shifted (n k : nat) (h1 h2 : heap) : Prop :=
  n ≤ length h1 ∧ length h2 = length h1 + k ∧ ∀ l, h2 !! shift n k l = h1 !! l.

Definition shifted_state (n k : nat) (s1 s2 : state) : Prop :=
  shifted n k s1.1 s2.1 ∧ s2.2 = map (map (shift n k)) s1.2.

Definition rec_shift (n k : nat)
    (rec : GraphNode → GraphPath → list loc → state → result state) : Prop :=
  ∀ node path branches s1 s2,
    shifted_state n k s1 s2 →
    res_rel (shifted_state n k)
      (rec node path branches s1)
      (rec node (map (shift n k) path) (map (shift n k) branches) s2).

(** No two branches of a path have the same (source, destination) pair. *)
Definition no_edge_reuse (bs : list GraphBranch) : Prop :=
  NoDup (map (λ b, (src_node b, dst_node b)) bs).

End Graph.

(** *** CallbackPathSercher

    [callback.py], [communication.py] and [node.py] are not part of the
    embedded sources: a callback is any value with a [callback_unique_name],
    and communications, variable passings and nodes carry the attributes the
    searcher reads. *)

Module CallbackPathSercher.
Import Graph.

Section searcher.
Context {CallbackBase : Type} (callback_unique_name : CallbackBase → string).

Record Communication : Type :=
  { callback_publish : option CallbackBase;
    callback_subscription : CallbackBase }.

Record VariablePassing : Type :=
  { callback_write : CallbackBase;
    callback_read : CallbackBase }.

Record Node : Type := { callbacks : list CallbackBase }.

(** The attributes set by [__init__]. *)
Record t : Type :=
  { _callbacks : list CallbackBase;
    _communications : list Communication;
    _variable_passings : list VariablePassing }.

(** [Util.flatten([node.callbacks for node in nodes])] *)
Definition init (nodes : list Node) (communications : list Communication)
    (variable_pasisngs : list VariablePassing) : t :=
  {| _callbacks := concat (map callbacks nodes);
     _communications := communications;
     _variable_passings := variable_pasisngs |}.

(** [branches.append(GraphBranch(src_node, dst_node))]: a new object. *)
Definition append_branch (st : heap * list loc) (src dst : string) : heap * list loc :=
  let '(h, branches) := st in
  let '(h', l) := alloc h (new_branch {| name := src |} {| name := dst |}) in
  (h', branches ++ [l]).

Definition add_communication (st : heap * list loc) (communication : Communication)
  : heap * list loc :=
  match callback_publish communication with
  | None => st
  | Some callback_publish =>
      append_branch st (callback_unique_name callback_publish)
        (callback_unique_name (callback_subscription communication))
  end.

Definition add_variable_passing (st : heap * list loc) (variable_passing : VariablePassing)
  : heap * list loc :=
  append_branch st (callback_unique_name (callback_write variable_passing))
    (callback_unique_name (callback_read variable_passing)).

Definition build_branches (h : heap) (self : t) : heap * list loc :=
  foldl add_variable_passing
    (foldl add_communication (h, []) (_communications self))
    (_variable_passings self).

(** [{callback.callback_unique_name: callback for callback in self._callbacks}]:
    a later callback with the same name replaces an earlier one. *)
Definition to_callback (cbs : list CallbackBase) : gmap string CallbackBase :=
  foldl (λ m callback, <[callback_unique_name callback := callback]> m) ∅ cbs.

Definition _to_path (self : t) (h : heap) (graph_path : GraphPath)
  : result (list CallbackBase) :=
  mapM (λ node,
          match to_callback (_callbacks self) !! name node with
          | Some callback => Ok callback
          | None => Raise KeyError
          end)
       (to_graph_nodes h graph_path).

(** [search(start_callback_unique_name, end_callback_unique_name)], run in
    store [h0] with recursion depth [fuel]. *)
Definition search (fuel : nat) (h0 : heap) (self : t)
    (start_callback_unique_name end_callback_unique_name : string)
  : result (list (list CallbackBase)) :=
  let '(h, branches) := build_branches h0 self in
  '(h', graph_paths) ←
    Graph.search fuel h branches
      {| name := start_callback_unique_name |} {| name := end_callback_unique_name |};
  mapM (_to_path self h') graph_paths.
End searcher.

End CallbackPathSercher.

(** ** lttng_info.py: DataFrameFormatted

    A table is its list of column names and its rows, top to bottom; a row
    maps column names to cells and an absent cell reads as [NaN].  The
    tables of [Ros2DataModel] are taken as [reset_index()] returns them:
    index levels are ordinary columns ([pd.merge] joins on index level names
    as on column names). *)

Module Tables.

Inductive Value : Type :=
  | VInt (z : Z)
  | VStr (s : string)
  | NaN.

#[global] Instance Value_eq_dec : EqDecision Value.
Proof. solve_decision. Defined.

(** [f'{value}'] *)
Definition format (v : Value) : string :=
  match v with
  | VInt z => pretty z
  | VStr s => s
  | NaN => "nan"
  end.

Record DataFrame : Type :=
  { columns : list string;
    rows : list (gmap string Value) }.

(** [pd.DataFrame(columns=columns)] *)
Definition empty_table (cols : list string) : DataFrame :=
  {| columns := cols; rows := [] |}.

Definition len (df : DataFrame) : nat := length (rows df).

Definition cell (row : gmap string Value) (column : string) : Value :=
  default NaN (row !! column).

Definition has_column (cols : list string) (column : string) : bool :=
  bool_decide (column ∈ cols).

Definition has_columns (cols : list string) (wanted : list string) : bool :=
  forallb (has_column cols) wanted.

(** The row whose column [new] holds what [row] has in column [old], for
    every pair [(new, old)]. *)
Definition project (names : list (string * string)) (row : gmap string Value)
  : gmap string Value :=
  list_to_map (map (λ p, (p.1, cell row p.2)) names).

Definition keep (cols : list string) (row : gmap string Value) : gmap string Value :=
  project (map (λ c, (c, c)) cols) row.

(** [row[column]] on a row of a table with columns [cols]. *)
Definition row_getitem (cols : list string) (row : gmap string Value) (column : string)
  : result Value :=
  if has_column cols column then Ok (cell row column) else Raise KeyError.

(** [df[columns]] *)
Definition getitem (df : DataFrame) (cols : list string) : result DataFrame :=
  if has_columns (columns df) cols
  then Ok {| columns := cols; rows := map (keep cols) (rows df) |}
  else Raise KeyError.

(** [df.drop(cols, axis=1)] *)
Definition drop_axis1 (df : DataFrame) (cols : list string) : result DataFrame :=
  if has_columns (columns df) cols then
    let kept := List.filter (λ c, negb (has_column cols c)) (columns df) in
    Ok {| columns := kept; rows := map (keep kept) (rows df) |}
  else Raise KeyError.

(** [df.rename(columns={old: new})] *)
Definition rename (df : DataFrame) (old new : string) : DataFrame :=
  let ren c := if String.eqb c old then new else c in
  {| columns := map ren (columns df);
     rows := map (project (map (λ c, (ren c, c)) (columns df))) (rows df) |}.

(** [pd.merge(left, right, left_on=key, right_on=key)]: inner join in the
    order of the left rows; a column other than the key that both tables
    have gets the suffixes [_x] and [_y]. *)
Definition pd_merge (left right : DataFrame) (join_key : string) : result DataFrame :=
  if has_column (columns left) join_key && has_column (columns right) join_key then
    let right_cols := List.filter (λ c, negb (String.eqb c join_key)) (columns right) in
    let both c := negb (String.eqb c join_key)
                  && has_column (columns left) c && has_column (columns right) c in
    let lname c := if both c then c +:+ "_x" else c in
    let rname c := if both c then c +:+ "_y" else c in
    let joined l r :=
      project (map (λ c, (lname c, c)) (columns left)) l
      ∪ project (map (λ c, (rname c, c)) right_cols) r in
    Ok {| columns := map lname (columns left) ++ map rname right_cols;
          rows :=
            flat_map
              (λ l, map (joined l)
                        (List.filter
                           (λ r, bool_decide (cell r join_key = cell l join_key))
                           (rows right)))
              (rows left) |}
  else Raise KeyError.

Definition drop_columns_default : list string := ["timestamp"; "tid"; "rmw_handle"].

(** The local [drop] of [merge]: the listed columns the table has. *)
Definition drop (df : DataFrame) (drop_columns : list string) : DataFrame :=
  let kept := List.filter (λ c, negb (has_column drop_columns c)) (columns df) in
  {| columns := kept; rows := map (keep kept) (rows df) |}.

Definition merge (left_df right_df : DataFrame) (join_key : string) : result DataFrame :=
  let left_df_ := drop left_df drop_columns_default in
  let right_df_ := drop right_df drop_columns_default in
  pd_merge left_df_ right_df_ join_key.

(** [concat(column_names, dfs)]; [pd.concat] of no table raises. *)
Definition concat (column_names : list string) (dfs : list DataFrame) : result DataFrame :=
  let concat_targets :=
    map (λ df, map (keep column_names) (rows df))
        (List.filter (λ df, has_columns (columns df) column_names) dfs) in
  match concat_targets with
  | [] => Raise ValueError
  | _ => Ok {| columns := column_names; rows := List.concat concat_targets |}
  end.

(** [_add_column]: the new column is set to [''] and then filled row by row. *)
Definition _add_column (df : DataFrame) (column_name : string)
    (cell_rule : list string → gmap string Value → result string) : result DataFrame :=
  let cols :=
    if has_column (columns df) column_name then columns df
    else columns df ++ [column_name] in
  rows' ← mapM (λ row,
                  v ← cell_rule cols (<[column_name := VStr ""]> row);
                  Ok (<[column_name := VStr v]> row))
               (rows df);
  Ok {| columns := cols; rows := rows' |}.

(** [_ensure_columns]: missing columns are added, filled with [NaN]. *)
Definition _ensure_columns (df : DataFrame) (cols : list string) : DataFrame :=
  let all := columns df ++ List.filter (λ c, negb (has_column (columns df) c)) cols in
  {| columns := all; rows := map (keep all) (rows df) |}.

(** [df.drop_duplicates()] on rows carrying their index label: the first
    of equal rows is kept. *)
Fixpoint drop_duplicates_from (seen : list (gmap string Value))
    (labelled : list (nat * gmap string Value)) : list (nat * gmap string Value) :=
  match labelled with
  | [] => []
  | (i, row) :: rest =>
      if bool_decide (row ∈ seen) then drop_duplicates_from seen rest
      else (i, row) :: drop_duplicates_from (row :: seen) rest
  end.

Definition drop_duplicates (labelled : list (nat * gmap string Value))
  : list (nat * gmap string Value) :=
  drop_duplicates_from [] labelled.

(** The rows with their index labels after [reset_index]: 0, 1, 2, ... *)
Fixpoint labelled_from (i : nat) (rows : list (gmap string Value))
  : list (nat * gmap string Value) :=
  match rows with
  | [] => []
  | row :: rest => (i, row) :: labelled_from (S i) rest
  end.

Definition labelled (rows : list (gmap string Value)) : list (nat * gmap string Value) :=
  labelled_from 0 rows.

(** The keys of [groupby(column)]: the values of the column other than
    [NaN], each once.  (pandas visits the groups in key order; here they are
    visited in the order in which the keys first appear, which changes
    nothing but the order of what a loop over the groups emits.) *)
Fixpoint group_keys_from (seen : list Value) (column : string)
    (rows : list (gmap string Value)) : list Value :=
  match rows with
  | [] => []
  | row :: rest =>
      let k := cell row column in
      if bool_decide (k = NaN) || bool_decide (k ∈ seen)
      then group_keys_from seen column rest
      else k :: group_keys_from (k :: seen) column rest
  end.

Definition group_keys (column : string) (rows : list (gmap string Value)) : list Value :=
  group_keys_from [] column rows.

Definition in_group (column : string) (key : Value) (row : gmap string Value) : bool :=
  bool_decide (cell row column = key).

(** *** Ros2DataModel *)

Record Ros2DataModel : Type :=
  { nodes : DataFrame;
    publishers : DataFrame;
    executors : DataFrame;
    executors_static : DataFrame;
    callback_groups : DataFrame;
    callback_groups_static : DataFrame;
    timers : DataFrame;
    timer_node_links : DataFrame;
    callback_objects : DataFrame;
    callback_symbols : DataFrame;
    callback_group_timer : DataFrame;
    subscriptions : DataFrame;
    subscription_objects : DataFrame;
    callback_group_subscription : DataFrame }.

(** *** _build_publisher_df, _build_executor_df, _build_nodes_df *)

Definition prefixed (prefix column : string) (cols : list string)
    (row : gmap string Value) : result string :=
  v ← row_getitem cols row column; Ok (prefix +:+ format v).

Definition _build_publisher_df (data : Ros2DataModel) : result DataFrame :=
  let columns := ["publisher_id"; "publisher_handle"; "node_handle"; "topic_name"; "depth"] in
  let df := publishers data in
  df ← _add_column df "publisher_id" (prefixed "publisher_" "publisher_handle");
  let df := _ensure_columns df columns in
  getitem df columns.

Definition unlabelled (l : list (nat * gmap string Value)) : list (gmap string Value) :=
  map snd l.

Definition _build_executor_df (data : Ros2DataModel) : result DataFrame :=
  let columns := ["executor_id"; "executor_addr"; "executor_type_name"] in
  let df := executors data in
  let df_ := executors_static data in
  df ← (if 0 <? len df_ then concat (tail columns) [df; df_] else Ok df);
  df ← _add_column df "executor_id" (prefixed "executor_" "executor_addr");
  let df := _ensure_columns df columns in
  df ← getitem df columns;
  let df := {| Tables.columns := Tables.columns df;
               rows := unlabelled (drop_duplicates (labelled (rows df))) |} in
  getitem df columns.

Definition last_char (s : string) : option Ascii.ascii :=
  last (String.list_ascii_of_string s).

(** [ns + name] or [ns + '/' + name]; [ns[-1]] of the empty string raises
    [IndexError], and a cell that is not a string [TypeError]. *)
Definition ns_and_node_name (cols : list string) (row : gmap string Value) : result string :=
  ns ← row_getitem cols row "namespace";
  name ← row_getitem cols row "name";
  match ns, name with
  | VStr ns, VStr name =>
      match last_char ns with
      | None => Raise IndexError
      | Some c => if Ascii.eqb c "/"%char then Ok (ns +:+ name) else Ok (ns +:+ "/" +:+ name)
      end
  | _, _ => Raise TypeError
  end.

Definition to_node_id (cols : list string) (row : gmap string Value) : result string :=
  node_name ← row_getitem cols row "node_name";
  node_handle ← row_getitem cols row "node_handle";
  Ok (format node_name +:+ "_" +:+ format node_handle).

Definition _build_nodes_df (data : Ros2DataModel) : result DataFrame :=
  let columns := ["node_id"; "node_handle"; "node_name"] in
  let node_df := nodes data in
  node_df ← _add_column node_df "node_name" ns_and_node_name;
  node_df ← _add_column node_df "node_id" to_node_id;
  node_df ← drop_axis1 node_df ["namespace"; "name"];
  getitem node_df columns.

(** *** _build_cbg_df *)

Definition cbg_columns : list string :=
  ["callback_group_id"; "callback_group_addr"; "group_type_name"; "executor_addr"].

(** The table up to [df = df[columns]]. *)
Definition cbg_rows (data : Ros2DataModel) : result DataFrame :=
  let df := callback_groups data in
  let df_static := callback_groups_static data in
  let df_static_exec := executors_static data in
  df ← (if (0 <? len df_static) && (0 <? len df_static_exec) then
          df_static ← merge df_static df_static_exec "entities_collector_addr";
          concat (tail cbg_columns) [df; df_static]
        else Ok df);
  df ← _add_column df "callback_group_id" (prefixed "callback_group_" "callback_group_addr");
  let df := _ensure_columns df cbg_columns in
  getitem df cbg_columns.

(** One group of [df.groupby('callback_group_addr')], rows with labels. *)
Definition group_of (key : Value) (l : list (nat * gmap string Value))
  : list (nat * gmap string Value) :=
  List.filter (λ x, in_group "callback_group_addr" key x.2) l.

(** [list(group.index)[:-1]] for the groups of two rows or more. *)
Definition executor_duplicated_indexes (l : list (nat * gmap string Value)) : list nat :=
  flat_map
    (λ key, let group := group_of key l in
            if 2 <=? length group then removelast (map fst group) else [])
    (group_keys "callback_group_addr" (unlabelled l)).

(** What [logger.warn] is given: the [executor_addr] values of each group
    of two rows or more. *)
Definition executor_warnings (l : list (nat * gmap string Value)) : list (list Value) :=
  flat_map
    (λ key, let group := group_of key l in
            if 2 <=? length group
            then [map (λ x, cell x.2 "executor_addr") group] else [])
    (group_keys "callback_group_addr" (unlabelled l)).

(** [df.drop(index=executor_duplicated_indexes)] *)
Definition drop_index (indexes : list nat) (l : list (nat * gmap string Value))
  : list (nat * gmap string Value) :=
  List.filter (λ x, negb (bool_decide (x.1 ∈ indexes))) l.

(** The distinct rows of a table, each at its first occurrence. *)
Definition distinct_rows (rows : list (gmap string Value)) : list (gmap string Value) :=
  unlabelled (drop_duplicates (labelled rows)).

(** The rows of a table that bind the callback group [addr]. *)
Definition rows_of_group (addr : Value) (rows : list (gmap string Value))
  : list (gmap string Value) :=
  List.filter (in_group "callback_group_addr" addr) rows.

(** From [drop_duplicates] to the end of [_build_cbg_df]. *)
Definition resolve_executors (rows : list (gmap string Value))
  : list (gmap string Value) * list (list Value) :=
  let df := drop_duplicates (labelled rows) in
  let duplicated := executor_duplicated_indexes df in
  let df := if 1 <=? length duplicated then drop_index duplicated df else df in
  (unlabelled df, executor_warnings (drop_duplicates (labelled rows))).

(** [_build_cbg_df]: the table and the warnings logged. *)
Definition _build_cbg_df (data : Ros2DataModel) : result (DataFrame * list (list Value)) :=
  df ← cbg_rows data;
  let '(rows', warnings) := resolve_executors (rows df) in
  Ok ({| columns := cbg_columns; rows := rows' |}, warnings).

(** *** _build_timer_callbacks_df *)

Definition timer_columns : list string :=
  ["callback_id"; "callback_object"; "node_handle"; "timer_handle";
   "callback_group_addr"; "period_ns"; "symbol"].

(** The body of the [try]. *)
Definition timer_callbacks_body (data : Ros2DataModel) : result DataFrame :=
  let df := timers data in
  let timer_node_links_df := timer_node_links data in
  df ← merge df timer_node_links_df "timer_handle";
  let callback_objects_df := rename (callback_objects data) "reference" "timer_handle" in
  df ← merge df callback_objects_df "timer_handle";
  let symbols_df := callback_symbols data in
  df ← merge df symbols_df "callback_object";
  let cbg := callback_group_timer data in
  df ← merge df cbg "timer_handle";
  df ← _add_column df "callback_id" (prefixed "timer_callback_" "callback_object");
  let df := rename df "period" "period_ns" in
  let df := _ensure_columns df timer_columns in
  getitem df timer_columns.

Definition _build_timer_callbacks_df (data : Ros2DataModel) : result DataFrame :=
  except_KeyError (timer_callbacks_body data) (empty_table timer_columns).

(** *** _build_sub_callbacks_df *)

(** [pd.DataFrame.from_dict(dicts)]: the columns are the keys of the
    dictionaries in the order in which they first appear. *)
Definition from_dict (dicts : list (list (string * Value))) : DataFrame :=
  {| columns := remove_dups (rev (List.concat (map (map fst) dicts)));
     rows := map (λ d, list_to_map (rev d)) dicts |}.

(** The body of [for key, group in sub_df.groupby('subscription_handle')]. *)
Definition subscription_record (cols : list string) (key : Value)
    (group : list (gmap string Value)) : result (list (string * Value)) :=
  let record := [("subscription_handle", key)] in
  match group with
  | [g0] =>
      callback_object ← row_getitem cols g0 "callback_object";
      Ok (record ++ [("callback_object", callback_object)])
  | [g0; g1] =>
      callback_object ← row_getitem cols g1 "callback_object";
      callback_object_intra ← row_getitem cols g0 "callback_object";
      Ok (record ++ [("callback_object", callback_object);
                     ("callback_object_intra", callback_object_intra)])
  | _ => Ok record
  end.

Definition _format_subscription_callback_object (data : Ros2DataModel) : result DataFrame :=
  let callback_objects_df := rename (callback_objects data) "reference" "subscription" in
  let sub_df := subscription_objects data in
  sub_df ← merge sub_df callback_objects_df "subscription";
  if has_column (columns sub_df) "subscription_handle" then
    dicts ← mapM (λ key, subscription_record (columns sub_df) key
                            (List.filter (in_group "subscription_handle" key) (rows sub_df)))
                 (group_keys "subscription_handle" (rows sub_df));
    Ok (from_dict dicts)
  else Raise KeyError.

Definition sub_columns : list string :=
  ["callback_id"; "callback_object"; "callback_object_intra"; "node_handle";
   "subscription_handle"; "callback_group_addr"; "topic_name"; "symbol"; "depth"].

(** The body of the [try]. *)
Definition sub_callbacks_body (data : Ros2DataModel) : result DataFrame :=
  let df := subscriptions data in
  callback_objects_df ← _format_subscription_callback_object data;
  df ← merge df callback_objects_df "subscription_handle";
  let symbols_df := callback_symbols data in
  df ← merge df symbols_df "callback_object";
  let cbg := callback_group_subscription data in
  df ← merge df cbg "subscription_handle";
  df ← _add_column df "callback_id" (prefixed "subscription_callback_" "callback_object");
  let df := _ensure_columns df sub_columns in
  getitem df sub_columns.

Definition _build_sub_callbacks_df (data : Ros2DataModel) : result DataFrame :=
  except_KeyError (sub_callbacks_body data) (empty_table sub_columns).

(** *** DataFrameFormatted.__init__ *)

Record DataFrameFormatted : Type :=
  { _executor_df : DataFrame;
    _nodes_df : DataFrame;
    _timer_callbacks_df : DataFrame;
    _sub_callbacks_df : DataFrame;
    _cbg_df : DataFrame;
    _pub_df : DataFrame }.

Definition DataFrameFormatted_init (data : Ros2DataModel) : result DataFrameFormatted :=
  executor_df ← _build_executor_df data;
  nodes_df ← _build_nodes_df data;
  timer_callbacks_df ← _build_timer_callbacks_df data;
  sub_callbacks_df ← _build_sub_callbacks_df data;
  cbg ← _build_cbg_df data;
  pub_df ← _build_publisher_df data;
  Ok {| _executor_df := executor_df;
        _nodes_df := nodes_df;
        _timer_callbacks_df := timer_callbacks_df;
        _sub_callbacks_df := sub_callbacks_df;
        _cbg_df := cbg.1;
        _pub_df := pub_df |}.

(** *** LttngInfo._get_callback_groups *)

Record CallbackGroupValueLttng : Type :=
  { callback_group_type_name : Value;
    node_name : Value;
    node_id : string;
    callback_ids : list Value;
    callback_group_id : Value;
    callback_group_addr : Value;
    executor_addr : Value }.

(** [_is_user_made_callback], with the dictionary [_id_to_topic]. *)
Definition _is_user_made_callback (_id_to_topic : gmap string string) (callback_id : Value)
  : bool :=
  match callback_id with
  | VStr id =>
      match _id_to_topic !! id with
      | None => true
      | Some topic_name =>
          negb (existsb (String.eqb topic_name) ["/clock"; "/parameter_events"])
      end
  | _ => true
  end.

(** The body of [for _, group_df in concat_df.groupby(['callback_group_addr'])]:
    the value appended, or [None] on [continue]. *)
Definition callback_group_value (_id_to_topic : gmap string string) (node_id : string)
    (cols : list string) (group_df : list (gmap string Value))
  : result (option CallbackGroupValueLttng) :=
  match group_df with
  | [] => Raise IndexError
  | row :: _ =>
      node_id_ ← row_getitem cols row "node_id";
      if negb (bool_decide (VStr node_id = node_id_)) then Ok None
      else
        callback_ids ← mapM (λ r, row_getitem cols r "callback_id") group_df;
        let callback_ids := List.filter (_is_user_made_callback _id_to_topic) callback_ids in
        group_type_name ← row_getitem cols row "group_type_name";
        node_name ← row_getitem cols row "node_name";
        callback_group_id ← row_getitem cols row "callback_group_id";
        callback_group_addr ← row_getitem cols row "callback_group_addr";
        executor_addr ← row_getitem cols row "executor_addr";
        Ok (Some {| callback_group_type_name := group_type_name;
                    node_name := node_name;
                    node_id := node_id;
                    callback_ids := callback_ids;
                    callback_group_id := callback_group_id;
                    callback_group_addr := callback_group_addr;
                    executor_addr := executor_addr |})
  end.

(** The body of the [try]. *)
Definition callback_groups_body (formatted : DataFrameFormatted)
    (_id_to_topic : gmap string string) (node_id : string)
  : result (list CallbackGroupValueLttng) :=
  let concate_target_dfs := [_timer_callbacks_df formatted; _sub_callbacks_df formatted] in
  let column_names := ["callback_group_addr"; "callback_id"; "node_handle"] in
  concat_df ← concat column_names concate_target_dfs;
  concat_df ← merge concat_df (_nodes_df formatted) "node_handle";
  concat_df ← merge concat_df (_cbg_df formatted) "callback_group_addr";
  if has_column (columns concat_df) "callback_group_addr" then
    cbgs ← mapM (λ key, callback_group_value _id_to_topic node_id (columns concat_df)
                           (List.filter (in_group "callback_group_addr" key) (rows concat_df)))
                (group_keys "callback_group_addr" (rows concat_df));
    Ok (omap id (cbgs : list (option CallbackGroupValueLttng)))
  else Raise KeyError.

Definition _get_callback_groups (formatted : DataFrameFormatted)
    (_id_to_topic : gmap string string) (node_id : string)
  : result (list CallbackGroupValueLttng) :=
  except_KeyError (callback_groups_body formatted _id_to_topic node_id) [].

(** *** Absent tables and columns *)

Definition lacks (df : DataFrame) (column : string) : Prop :=
  has_column (columns df) column = false.

(** A table joined by [_build_timer_callbacks_df] has no column for its
    join key. *)
Definition timer_join_key_absent (data : Ros2DataModel) : Prop :=
  lacks (timers data) "timer_handle" ∨
  lacks (timer_node_links data) "timer_handle" ∨
  lacks (rename (callback_objects data) "reference" "timer_handle") "timer_handle" ∨
  lacks (callback_symbols data) "callback_object" ∨
  lacks (callback_group_timer data) "timer_handle".

(** A table joined by [_build_sub_callbacks_df] has no column for its join
    key. *)
Definition sub_join_key_absent (data : Ros2DataModel) : Prop :=
  lacks (subscription_objects data) "subscription" ∨
  lacks (rename (callback_objects data) "reference" "subscription") "subscription" ∨
  lacks (subscriptions data) "subscription_handle" ∨
  lacks (callback_symbols data) "callback_object" ∨
  lacks (callback_group_subscription data) "subscription_handle".

(** A table joined by [_get_callback_groups] has no column for its join
    key. *)
Definition cbg_join_key_absent (formatted : DataFrameFormatted) : Prop :=
  lacks (_nodes_df formatted) "node_handle" ∨
  lacks (_cbg_df formatted) "callback_group_addr".

End Tables.

(** ** lttng_info.py: PublisherBinder *)

Module Binder.

(** *** Records

    The record classes ([...record.interface]) are not part of the embedded
    sources.  A record is a dictionary from column names to integers;
    [record.get(key)] is the dictionary lookup and [record.columns] the set
    of keys; a record stream is the list [records.data].  Every record of
    the communication streams carries [publisher_handle], every record of
    the callback stream carries [callback_object] (the streams are keyed by
    them). *)

Abbreviation RecordInterface := (gmap string Z) (only parsing).
Abbreviation RecordsInterface := (list (gmap string Z)) (only parsing).

Definition get (record : RecordInterface) (key : string) : option Z := record !! key.

(** [records.filter_if(lambda x: x.get(key) == value)] on a clone. *)
Definition filter_if_eq (key : string) (value : Z) (records : RecordsInterface)
  : RecordsInterface :=
  List.filter (λ x, bool_decide (get x key = Some value)) records.

Record RecordsSource : Type :=
  { inter_proc_comm_records : RecordsInterface;
    intra_proc_comm_records : RecordsInterface;
    callback_records : RecordsInterface }.

(** *** Value objects ([.value_objects], compared attribute by attribute) *)

Module PublisherValueLttng.
Record t : Type :=
  { node_name : string;
    node_id : string;
    topic_name : string;
    callback_ids : option (list string);
    publisher_handle : Z }.
#[global] Instance eq_dec : EqDecision t.
Proof. solve_decision. Defined.
End PublisherValueLttng.

Module TimerCallbackValueLttng.
Record t : Type :=
  { callback_id : string;
    node_id : string;
    node_name : string;
    symbol : string;
    period_ns : Z;
    publish_topic_names : option (list string);
    callback_object : Z }.
#[global] Instance eq_dec : EqDecision t.
Proof. solve_decision. Defined.
End TimerCallbackValueLttng.

Module SubscriptionCallbackValueLttng.
Record t : Type :=
  { callback_id : string;
    node_id : string;
    node_name : string;
    symbol : string;
    subscribe_topic_name : string;
    publish_topic_names : option (list string);
    callback_object : Z;
    callback_object_intra : option Z }.
#[global] Instance eq_dec : EqDecision t.
Proof. solve_decision. Defined.
End SubscriptionCallbackValueLttng.

Inductive CallbackGroupType : Type := MUTUALLY_EXCLUSIVE | REENTRANT.

Module CallbackGroupValueLttng.
Record t : Type :=
  { callback_group_type : CallbackGroupType;
    node_name : string;
    node_id : string;
    callback_ids : list string;
    callback_group_id : string }.
End CallbackGroupValueLttng.

(** [Union[TimerCallbackValueLttng, SubscriptionCallbackValueLttng]] *)
Inductive CallbackValueLttng : Type :=
  | TimerCb (cb : TimerCallbackValueLttng.t)
  | SubCb (cb : SubscriptionCallbackValueLttng.t).

Definition callback_object (cb : CallbackValueLttng) : Z :=
  match cb with
  | TimerCb cb => TimerCallbackValueLttng.callback_object cb
  | SubCb cb => SubscriptionCallbackValueLttng.callback_object cb
  end.

(** [list.index(x)]: the position of the first element equal to [x]. *)
Fixpoint index {A : Type} `{EqDecision A} (x : A) (l : list A) : result nat :=
  match l with
  | [] => Raise ValueError
  | y :: l' => if decide (y = x) then Ok 0 else i ← index x l'; Ok (S i)
  end.

(** *** The part of [LttngInfo] the binder reads

    [timer_cbs_without_pub] and [sub_cbs_without_pub] are the dictionaries
    filled by [_load_timer_cbs_without_pub] and [_load_sub_cbs_without_pub]
    (callbacks with [publish_topic_names=None], by node id);
    [publisher_rows] are the rows of the publisher table joined with the
    node table, as the values built from them; [callback_groups] is
    [get_callback_groups]. *)
Record LttngInfo : Type :=
  { timer_cbs_without_pub : gmap string (list TimerCallbackValueLttng.t);
    sub_cbs_without_pub : gmap string (list SubscriptionCallbackValueLttng.t);
    publisher_rows : list PublisherValueLttng.t;
    callback_groups : string → list CallbackGroupValueLttng.t;
    source : RecordsSource }.

Definition _get_timer_cbs_without_pub (self : LttngInfo) (node_id : string)
  : list TimerCallbackValueLttng.t :=
  match timer_cbs_without_pub self !! node_id with
  | None => []
  | Some cbs => cbs
  end.

Definition _get_sub_cbs_without_pub (self : LttngInfo) (node_id : string)
  : list SubscriptionCallbackValueLttng.t :=
  match sub_cbs_without_pub self !! node_id with
  | None => []
  | Some cbs => cbs
  end.

Definition get_publishers_without_cb_bind (self : LttngInfo) (node_id : string)
  : list PublisherValueLttng.t :=
  List.filter (λ row, bool_decide (PublisherValueLttng.node_id row = node_id))
    (publisher_rows self).

(** *** PublisherBinder *)

Definition TARGET_RECORD_MAX_INDEX : nat := 10.

(** The heuristic below the early [return False] of [can_bind]. *)
Definition can_bind_heuristic (self : LttngInfo) (node_id : string) : bool :=
  match callback_groups self node_id with
  | [cbg] =>
      match CallbackGroupValueLttng.callback_group_type cbg with
      | REENTRANT => false
      | MUTUALLY_EXCLUSIVE => true
      end
  | _ => false
  end.

(** [can_bind]: the first statement of the body is [return False]; what
    follows it is never run. *)
Definition can_bind (self : LttngInfo) (node_id : string) : bool :=
  let early_return : option bool := Some false in
  match early_return with
  | Some r => r
  | None => can_bind_heuristic self node_id
  end.

Definition select_record_index (publisher_records : RecordsInterface) : nat :=
  Nat.min (length publisher_records - 1) TARGET_RECORD_MAX_INDEX.

Definition _get_publish_time (src : RecordsSource)
    (publisher_info : PublisherValueLttng.t) : option Z :=
  let publisher_handle := PublisherValueLttng.publisher_handle publisher_info in
  let publisher_records :=
    filter_if_eq "publisher_handle" publisher_handle (inter_proc_comm_records src) in
  if 0 <? length publisher_records then
    record ← publisher_records !! select_record_index publisher_records;
    get record "rclcpp_publish_timestamp"
  else
    let publisher_records :=
      filter_if_eq "publisher_handle" publisher_handle (intra_proc_comm_records src) in
    if 0 <? length publisher_records then
      record ← publisher_records !! select_record_index publisher_records;
      get record "rclcpp_intra_publish_timestamp"
    else None.

(** The loop of [_is_consistent_inter] and [_is_consistent_intra] over
    [cb_records.data]: [Some b] when the loop returns [b], [None] when it
    runs to its end. *)
Fixpoint scan_records (publish_time : Z) (data : RecordsInterface) : option bool :=
  match data with
  | [] => None
  | record :: rest =>
      match get record "callback_start_timestamp", get record "callback_end_timestamp" with
      | Some callback_start, Some callback_end =>
          if (callback_start <? publish_time)%Z && (publish_time <? callback_end)%Z
          then Some true
          else if (callback_start >? publish_time)%Z && (callback_end >? publish_time)%Z
          then Some false
          else scan_records publish_time rest
      | _, _ => scan_records publish_time rest
      end
  end.

Definition _is_consistent_inter (src : RecordsSource) (publish_time : Z)
    (callback_info : CallbackValueLttng) : option bool :=
  let cb_records :=
    filter_if_eq "callback_object" (callback_object callback_info) (callback_records src) in
  scan_records publish_time cb_records.

(** With [callback_object_intra = None] no record is kept by the filter. *)
Definition _is_consistent_intra (src : RecordsSource) (publish_time : Z)
    (callback : SubscriptionCallbackValueLttng.t) : bool :=
  let cb_records :=
    match SubscriptionCallbackValueLttng.callback_object_intra callback with
    | Some callback_object => filter_if_eq "callback_object" callback_object (callback_records src)
    | None => []
    end in
  match scan_records publish_time cb_records with
  | Some b => b
  | None => false
  end.

Definition _is_consistent (src : RecordsSource)
    (publisher_info : PublisherValueLttng.t) (callback_info : CallbackValueLttng) : bool :=
  match _get_publish_time src publisher_info with
  | None => false
  | Some publish_time =>
      match _is_consistent_inter src publish_time callback_info with
      | Some true => true
      | _ =>
          match callback_info with
          | SubCb callback_info => _is_consistent_intra src publish_time callback_info
          | TimerCb _ => false
          end
      end
  end.

Definition _update_timer_cb_publish_topics
    (timer_cbs : list TimerCallbackValueLttng.t)
    (update_target : TimerCallbackValueLttng.t)
    (publish_topic_names : list string) : result (list TimerCallbackValueLttng.t) :=
  index ← index update_target timer_cbs;
  Ok (<[index :=
          {| TimerCallbackValueLttng.callback_id := TimerCallbackValueLttng.callback_id update_target;
             TimerCallbackValueLttng.node_id := TimerCallbackValueLttng.node_id update_target;
             TimerCallbackValueLttng.node_name := TimerCallbackValueLttng.node_name update_target;
             TimerCallbackValueLttng.symbol := TimerCallbackValueLttng.symbol update_target;
             TimerCallbackValueLttng.period_ns := TimerCallbackValueLttng.period_ns update_target;
             TimerCallbackValueLttng.publish_topic_names := Some publish_topic_names;
             TimerCallbackValueLttng.callback_object :=
               TimerCallbackValueLttng.callback_object update_target |}]> timer_cbs).

Definition _update_sub_cb_publish_topics
    (sub_cbs : list SubscriptionCallbackValueLttng.t)
    (update_target : SubscriptionCallbackValueLttng.t)
    (publish_topic_names : list string) : result (list SubscriptionCallbackValueLttng.t) :=
  index ← index update_target sub_cbs;
  Ok (<[index :=
          {| SubscriptionCallbackValueLttng.callback_id :=
               SubscriptionCallbackValueLttng.callback_id update_target;
             SubscriptionCallbackValueLttng.node_id :=
               SubscriptionCallbackValueLttng.node_id update_target;
             SubscriptionCallbackValueLttng.node_name :=
               SubscriptionCallbackValueLttng.node_name update_target;
             SubscriptionCallbackValueLttng.symbol :=
               SubscriptionCallbackValueLttng.symbol update_target;
             SubscriptionCallbackValueLttng.subscribe_topic_name :=
               SubscriptionCallbackValueLttng.subscribe_topic_name update_target;
             SubscriptionCallbackValueLttng.publish_topic_names := Some publish_topic_names;
             SubscriptionCallbackValueLttng.callback_object :=
               SubscriptionCallbackValueLttng.callback_object update_target;
             SubscriptionCallbackValueLttng.callback_object_intra :=
               SubscriptionCallbackValueLttng.callback_object_intra update_target |}]> sub_cbs).

(** [x not in [...]] on topic names. *)
Definition not_in (topics : list string) (x : string) : bool :=
  negb (existsb (String.eqb x) topics).

(** [(publisher.topic_name,) + cb.publish_topic_names], or the one-element
    tuple when [cb.publish_topic_names is None]. *)
Definition bound_topic_names (topic_name : string) (publish_topic_names : option (list string))
  : list string :=
  match publish_topic_names with
  | Some names => [topic_name] ++ names
  | None => [topic_name]
  end.

(** [for publisher, cb in it: if not consistent: continue; ...; break] *)
Fixpoint bind_first_timer (src : RecordsSource)
    (it : list (PublisherValueLttng.t * TimerCallbackValueLttng.t))
    (callback_list : list TimerCallbackValueLttng.t)
  : result (list TimerCallbackValueLttng.t) :=
  match it with
  | [] => Ok callback_list
  | (publisher, cb) :: rest =>
      if negb (_is_consistent src publisher (TimerCb cb)) then
        bind_first_timer src rest callback_list
      else
        let topic_names :=
          bound_topic_names (PublisherValueLttng.topic_name publisher)
            (TimerCallbackValueLttng.publish_topic_names cb) in
        _update_timer_cb_publish_topics callback_list cb topic_names
  end.

Definition bind_pub_topics_and_timer_cbs (self : LttngInfo)
    (node_name : string) (callbacks : list TimerCallbackValueLttng.t)
  : result (list TimerCallbackValueLttng.t) :=
  let callback_list := callbacks in
  callback_list ←
    for_each (λ cb callback_list, _update_timer_cb_publish_topics callback_list cb [])
      callbacks callback_list;
  let publishers := get_publishers_without_cb_bind self node_name in
  let publishers :=
    List.filter (λ x, not_in ["/parameter_events"; "/rosout"] (PublisherValueLttng.topic_name x))
      publishers in
  let it := list_prod publishers callbacks in
  bind_first_timer (source self) it callback_list.

Fixpoint bind_first_sub (src : RecordsSource)
    (it : list (PublisherValueLttng.t * SubscriptionCallbackValueLttng.t))
    (callback_list : list SubscriptionCallbackValueLttng.t)
  : result (list SubscriptionCallbackValueLttng.t) :=
  match it with
  | [] => Ok callback_list
  | (publisher, cb_info) :: rest =>
      if negb (_is_consistent src publisher (SubCb cb_info)) then
        bind_first_sub src rest callback_list
      else
        let topic_names :=
          bound_topic_names (PublisherValueLttng.topic_name publisher)
            (SubscriptionCallbackValueLttng.publish_topic_names cb_info) in
        _update_sub_cb_publish_topics callback_list cb_info topic_names
  end.

(** [for cb_info in callback_list: update(callback_list, cb_info, ())]:
    the list is written while it is iterated, so the element at position
    [i] is read from the current list. *)
Fixpoint insert_empty_tuples (steps i : nat)
    (callback_list : list SubscriptionCallbackValueLttng.t)
  : result (list SubscriptionCallbackValueLttng.t) :=
  match steps with
  | 0 => Ok callback_list
  | S steps' =>
      match callback_list !! i with
      | None => Ok callback_list
      | Some cb_info =>
          callback_list ← _update_sub_cb_publish_topics callback_list cb_info [];
          insert_empty_tuples steps' (S i) callback_list
      end
  end.

Definition system_topics : list string := ["/parameter_events"; "/rosout"; "/clock"].

Definition bind_pub_topics_and_sub_cbs (self : LttngInfo)
    (node_name : string) (callbacks_info : list SubscriptionCallbackValueLttng.t)
  : result (list SubscriptionCallbackValueLttng.t) :=
  let callback_list :=
    List.filter
      (λ x, not_in system_topics (SubscriptionCallbackValueLttng.subscribe_topic_name x))
      callbacks_info in
  callback_list ← insert_empty_tuples (length callback_list) 0 callback_list;
  let publishers := get_publishers_without_cb_bind self node_name in
  let publishers :=
    List.filter (λ x, not_in system_topics (PublisherValueLttng.topic_name x)) publishers in
  let it := list_prod publishers callback_list in
  bind_first_sub (source self) it callback_list.

(** *** The callers in [LttngInfo] *)

Definition _get_timer_callbacks (self : LttngInfo) (node_id : string)
  : result (list TimerCallbackValueLttng.t) :=
  let timer_cbs := _get_timer_cbs_without_pub self node_id in
  if can_bind self node_id && (0 <? length timer_cbs) then
    bind_pub_topics_and_timer_cbs self node_id timer_cbs
  else Ok timer_cbs.

Definition _get_subscription_callback_values (self : LttngInfo) (node_id : string)
  : result (list SubscriptionCallbackValueLttng.t) :=
  let sub_cbs_info := _get_sub_cbs_without_pub self node_id in
  if can_bind self node_id then
    bind_pub_topics_and_sub_cbs self node_id sub_cbs_info
  else Ok sub_cbs_info.

(** [topic_name in x.publish_topic_names]; [None] is not iterable. *)
Definition publishes (topic_name : string) (publish_topic_names : option (list string))
  : result bool :=
  match publish_topic_names with
  | Some names => Ok (existsb (String.eqb topic_name) names)
  | None => Raise TypeError
  end.

Definition _get_publishers (self : LttngInfo) (node_id : string)
  : result (list PublisherValueLttng.t) :=
  if negb (can_bind self node_id) then
    Ok (get_publishers_without_cb_bind self node_id)
  else
    timer_cbs ← _get_timer_callbacks self node_id;
    sub_cbs ← _get_subscription_callback_values self node_id;
    mapM (λ pub_info,
            let topic_name := PublisherValueLttng.topic_name pub_info in
            timer_ids ←
              mapM (λ c, b ← publishes topic_name (TimerCallbackValueLttng.publish_topic_names c);
                         Ok (if b : bool then [TimerCallbackValueLttng.callback_id c] else []))
                   timer_cbs;
            sub_ids ←
              mapM (λ c, b ← publishes topic_name
                                  (SubscriptionCallbackValueLttng.publish_topic_names c);
                         Ok (if b : bool then [SubscriptionCallbackValueLttng.callback_id c] else []))
                   sub_cbs;
            Ok {| PublisherValueLttng.node_name := PublisherValueLttng.node_name pub_info;
                  PublisherValueLttng.node_id := PublisherValueLttng.node_id pub_info;
                  PublisherValueLttng.topic_name := topic_name;
                  PublisherValueLttng.callback_ids := Some (concat timer_ids ++ concat sub_ids);
                  PublisherValueLttng.publisher_handle :=
                    PublisherValueLttng.publisher_handle pub_info |})
         (get_publishers_without_cb_bind self node_id).

(** *** What the specification says about the scan *)

(** The publish time lies strictly inside the interval of [record]. *)
Definition contains (publish_time : Z) (record : RecordInterface) : Prop :=
  ∃ callback_start callback_end,
    get record "callback_start_timestamp" = Some callback_start ∧
    get record "callback_end_timestamp" = Some callback_end ∧
    (callback_start < publish_time < callback_end)%Z.

(** The interval of [record] lies entirely after the publish time. *)
Definition entirely_after (publish_time : Z) (record : RecordInterface) : Prop :=
  ∃ callback_start callback_end,
    get record "callback_start_timestamp" = Some callback_start ∧
    get record "callback_end_timestamp" = Some callback_end ∧
    (publish_time < callback_start)%Z ∧ (publish_time < callback_end)%Z.

(** The interval of [record] has ended strictly before the publish time. *)
Definition ended_before (publish_time : Z) (record : RecordInterface) : Prop :=
  ∀ callback_start callback_end,
    get record "callback_start_timestamp" = Some callback_start →
    get record "callback_end_timestamp" = Some callback_end →
    (callback_start < publish_time)%Z ∧ (callback_end < publish_time)%Z.

(** The records of the callback: those of its [callback_object] and, for a
    subscription callback, of its [callback_object_intra]. *)
Definition inter_records (src : RecordsSource) (cb : CallbackValueLttng) : RecordsInterface :=
  filter_if_eq "callback_object" (callback_object cb) (callback_records src).

Definition intra_records (src : RecordsSource) (cb : CallbackValueLttng) : RecordsInterface :=
  match cb with
  | SubCb cb =>
      match SubscriptionCallbackValueLttng.callback_object_intra cb with
      | Some o => filter_if_eq "callback_object" o (callback_records src)
      | None => []
      end
  | TimerCb _ => []
  end.

(** In [data], a record containing the publish time comes before every
    record that lies entirely after it. *)
Definition contained_first (publish_time : Z) (data : RecordsInterface) : Prop :=
  ∃ before record rest,
    data = before ++ record :: rest ∧
    contains publish_time record ∧
    Forall (λ r, ¬ entirely_after publish_time r) before.

(** A stream ordered by [callback_start_timestamp]. *)
Definition by_start (r1 r2 : gmap string Z) : Prop :=
  ∀ s1 s2, get r1 "callback_start_timestamp" = Some s1 →
           get r2 "callback_start_timestamp" = Some s2 → (s1 ≤ s2)%Z.

End Binder.

(** ** trace/lttng/lttng.py: compose_variable_passing_records

    The record classes and [merge_sequencial] ([...record]) are not part of
    the embedded sources.  Records are dictionaries from column names to
    integer timestamps, as in [Binder]; the operations on them are modelled
    from section 4.4 of the specification. *)

Module Records.

(** Modelled from the spec: [records.drop_columns(columns)], which is
    absent from the sources, removes the named columns from every record
    ("strips the two renamed identity columns"). *)
Definition drop_columns (columns : list string) (records : list (gmap string Z))
  : list (gmap string Z) :=
  map (λ record, foldr delete record columns) records.

(** Modelled from the spec: [records.rename_columns({old: new})], which is
    absent from the sources, gives the column [old] of every record the
    name [new] ("renames its identity column"). *)
Definition rename_columns (old new : string) (records : list (gmap string Z))
  : list (gmap string Z) :=
  map (λ record,
         match record !! old with
         | Some v => <[new := v]> (delete old record)
         | None => record
         end)
      records.

(** The first of the records of [right_records] whose [stamp_key] is smallest among
    those that are no earlier than [stamp]. *)
Fixpoint earliest_no_earlier (stamp : Z) (stamp_key : string)
    (right_records : list (gmap string Z)) : option (gmap string Z) :=
  match right_records with
  | [] => None
  | record :: rest =>
      let later := earliest_no_earlier stamp stamp_key rest in
      match record !! stamp_key with
      | Some s =>
          if (stamp <=? s)%Z then
            match later with
            | Some best =>
                match best !! stamp_key with
                | Some b => if (s <=? b)%Z then Some record else Some best
                | None => Some record
                end
            | None => Some record
            end
          else later
      | None => later
      end
  end.

(** Modelled from the spec: [merge_sequencial(..., join_key=None,
    how='left')], which is absent from the sources: "each write's
    [callback_end_timestamp] is matched to the earliest read's
    [callback_start_timestamp] that occurs no earlier (left-outer: unmatched
    writes keep an absent right side)".  Every left record gives one row: the
    record joined with its match, or the record alone. *)
Definition merge_sequencial (left_records right_records : list (gmap string Z))
    (left_stamp_key right_stamp_key : string) : list (gmap string Z) :=
  map (λ left_record,
         match left_record !! left_stamp_key with
         | Some stamp =>
             match earliest_no_earlier stamp right_stamp_key right_records with
             | Some right_record => left_record ∪ right_record
             | None => left_record
             end
         | None => left_record
         end)
      left_records.

(** Ascending order of the column [key]; a record without the column comes
    after those that have it. *)
Definition key_le (key : string) (r1 r2 : gmap string Z) : Prop :=
  match r1 !! key, r2 !! key with
  | Some a, Some b => (a ≤ b)%Z
  | Some _, None => True
  | None, Some _ => False
  | None, None => True
  end.

#[global] Instance key_le_dec key : RelDecision (key_le key).
Proof.
  intros r1 r2. unfold key_le.
  destruct (r1 !! key), (r2 !! key); apply _.
Defined.

Fixpoint insert_sorted (key : string) (record : gmap string Z)
    (sorted : list (gmap string Z)) : list (gmap string Z) :=
  match sorted with
  | [] => [record]
  | r :: rest =>
      if decide (key_le key record r) then record :: r :: rest
      else r :: insert_sorted key record rest
  end.

(** Modelled from the spec: [records.sort(key)], which is absent from the
    sources, orders the records by the column ("result sorted ascending by
    [callback_end_timestamp]"); records with equal keys keep their order. *)
Definition sort (key : string) (records : list (gmap string Z)) : list (gmap string Z) :=
  foldr (insert_sorted key) [] records.

(** [compose_variable_passing_records], given the callback records of the
    write and of the read callback ([self._records.get_callback_records]). *)
Definition compose_variable_passing_records
    (write_callback_records read_callback_records : list (gmap string Z))
  : list (gmap string Z) :=
  let read_records := read_callback_records in
  let read_records := drop_columns ["callback_end_timestamp"] read_records in
  let read_records := rename_columns "callback_object" "read_callback_object" read_records in
  let write_records := write_callback_records in
  let write_records := rename_columns "callback_object" "write_callback_object" write_records in
  let write_records := drop_columns ["callback_start_timestamp"] write_records in
  let merged_records :=
    merge_sequencial write_records read_records
      "callback_end_timestamp" "callback_start_timestamp" in
  let merged_records := sort "callback_end_timestamp" merged_records in
  let runtime_info_columns := ["read_callback_object"; "write_callback_object"] in
  drop_columns runtime_info_columns merged_records.

End Records.

(** ** Notions used to state further properties *)

Module GraphProps.
Import Graph.

(** The (source, destination) pair of a branch: what [GraphBranch.__eq__]
    compares. *)
Definition edge (b : GraphBranch) : GraphNode * GraphNode := (src_node b, dst_node b).

(** The edges of the branches a list refers to. *)
Definition edges (h : list GraphBranch) (ls : list nat) : list (GraphNode * GraphNode) :=
  map edge (path_branches h ls).

(** The branches of the list that are not marked as arrived. *)
Definition unarrived (h : list GraphBranch) (ls : list nat) : list nat :=
  List.filter (λ l, negb (arrived (deref h l))) ls.

(** What holds at every call of [search_local] when the branches have
    pairwise distinct end points: the path so far repeats no edge, and the
    edges of the branches not yet marked are not in it. *)
Definition fresh_edges (h : list GraphBranch) (path branches : list nat) : Prop :=
  NoDup (edges h branches) ∧ NoDup (edges h path) ∧
  ∀ l, l ∈ branches → arrived (deref h l) = false → edge (deref h l) ∉ edges h path.

(** A branch of [branches] that is not marked as arrived and has the
    edge [e]. *)
Definition available (h : list GraphBranch) (branches : list nat)
    (e : GraphNode * GraphNode) : Prop :=
  ∃ l, l ∈ branches ∧ arrived (deref h l) = false ∧ edge (deref h l) = e.

(** From one state of the loop of [search_local] to a later one, objects
    and paths are only added. *)
Definition grows (s s' : list GraphBranch * list (list nat)) : Prop :=
  s.1 `prefix_of` s'.1 ∧ s.2 `prefix_of` s'.2.

End GraphProps.
Module BinderProps.
Import Binder.

(** The value [_update_sub_cb_publish_topics] writes: [cb] with
    [publish_topic_names] replaced. *)
Definition sub_with_topics (publish_topic_names : list string)
    (cb : SubscriptionCallbackValueLttng.t) : SubscriptionCallbackValueLttng.t :=
  {| SubscriptionCallbackValueLttng.callback_id := SubscriptionCallbackValueLttng.callback_id cb;
     SubscriptionCallbackValueLttng.node_id := SubscriptionCallbackValueLttng.node_id cb;
     SubscriptionCallbackValueLttng.node_name := SubscriptionCallbackValueLttng.node_name cb;
     SubscriptionCallbackValueLttng.symbol := SubscriptionCallbackValueLttng.symbol cb;
     SubscriptionCallbackValueLttng.subscribe_topic_name :=
       SubscriptionCallbackValueLttng.subscribe_topic_name cb;
     SubscriptionCallbackValueLttng.publish_topic_names := Some publish_topic_names;
     SubscriptionCallbackValueLttng.callback_object :=
       SubscriptionCallbackValueLttng.callback_object cb;
     SubscriptionCallbackValueLttng.callback_object_intra :=
       SubscriptionCallbackValueLttng.callback_object_intra cb |}.

(** The value [_update_timer_cb_publish_topics] writes. *)
Definition timer_with_topics (publish_topic_names : list string)
    (cb : TimerCallbackValueLttng.t) : TimerCallbackValueLttng.t :=
  {| TimerCallbackValueLttng.callback_id := TimerCallbackValueLttng.callback_id cb;
     TimerCallbackValueLttng.node_id := TimerCallbackValueLttng.node_id cb;
     TimerCallbackValueLttng.node_name := TimerCallbackValueLttng.node_name cb;
     TimerCallbackValueLttng.symbol := TimerCallbackValueLttng.symbol cb;
     TimerCallbackValueLttng.period_ns := TimerCallbackValueLttng.period_ns cb;
     TimerCallbackValueLttng.publish_topic_names := Some publish_topic_names;
     TimerCallbackValueLttng.callback_object := TimerCallbackValueLttng.callback_object cb |}.

(** [callback.callback_object_intra], which only a subscription callback
    has. *)
Definition intra_object (cb : CallbackValueLttng) : option Z :=
  match cb with
  | SubCb cb => SubscriptionCallbackValueLttng.callback_object_intra cb
  | TimerCb _ => None
  end.

(** A record that cannot decide [_is_consistent] for [cb]: it lacks one of
    the two timestamps, or belongs to another callback object. *)
Definition undecisive (cb : CallbackValueLttng) (record : gmap string Z) : Prop :=
  get record "callback_start_timestamp" = None ∨
  get record "callback_end_timestamp" = None ∨
  (get record "callback_object" ≠ Some (callback_object cb) ∧
   ∀ o, intra_object cb = Some o → get record "callback_object" ≠ Some o).

(** The records source with other callback records. *)
Definition with_callback_records (src : RecordsSource) (records : list (gmap string Z))
  : RecordsSource :=
  {| inter_proc_comm_records := inter_proc_comm_records src;
     intra_proc_comm_records := intra_proc_comm_records src;
     callback_records := records |}.

(** The pairs tried by the subscription pass. *)
Definition sub_pairs (self : LttngInfo) (node_name : string)
    (callback_list : list SubscriptionCallbackValueLttng.t)
  : list (PublisherValueLttng.t * SubscriptionCallbackValueLttng.t) :=
  list_prod
    (List.filter (λ x, not_in system_topics (PublisherValueLttng.topic_name x))
       (get_publishers_without_cb_bind self node_name))
    callback_list.

(** The pairs tried by the timer pass. *)
Definition timer_pairs (self : LttngInfo) (node_name : string)
    (callbacks : list TimerCallbackValueLttng.t)
  : list (PublisherValueLttng.t * TimerCallbackValueLttng.t) :=
  list_prod
    (List.filter
       (λ x, not_in ["/parameter_events"; "/rosout"] (PublisherValueLttng.topic_name x))
       (get_publishers_without_cb_bind self node_name))
    callbacks.

End BinderProps.
(** ** Sample inputs *)

Module Samples.
Import Graph.

Definition A : GraphNode := {| name := "A" |}.
Definition B : GraphNode := {| name := "B" |}.

(** The cycle A→B→A. *)
Definition cycle_store : list GraphBranch := [new_branch A B; new_branch B A].
Definition cycle_branches : list nat := [0; 1].

(** Two distinct branch objects A→B, and B→A. *)
Definition twin_store : list GraphBranch :=
  [new_branch A B; new_branch A B; new_branch B A].
Definition twin_branches : list nat := [0; 1; 2].

(** Callbacks named by a string; two communications from "A" to "B" (two
    topics between the same pair of callbacks) and one back. *)
Definition twin_searcher : CallbackPathSercher.t (CallbackBase := string) :=
  CallbackPathSercher.init
    [ {| CallbackPathSercher.callbacks := ["A"; "B"] |} ]
    [ {| CallbackPathSercher.callback_publish := Some "A";
         CallbackPathSercher.callback_subscription := "B" |};
      {| CallbackPathSercher.callback_publish := Some "A";
         CallbackPathSercher.callback_subscription := "B" |};
      {| CallbackPathSercher.callback_publish := Some "B";
         CallbackPathSercher.callback_subscription := "A" |} ]
    [].

Definition talker_listener : CallbackPathSercher.t (CallbackBase := string) :=
  CallbackPathSercher.init
    [ {| CallbackPathSercher.callbacks := ["/talker/timer_callback_0"] |};
      {| CallbackPathSercher.callbacks := ["/listener/subscription_callback_0"] |} ]
    [ {| CallbackPathSercher.callback_publish := Some "/talker/timer_callback_0";
         CallbackPathSercher.callback_subscription := "/listener/subscription_callback_0" |} ]
    [].

(** *** Binder samples *)
Import Binder.

Definition callback_record (callback_object callback_start callback_end : Z) : gmap string Z :=
  {[ "callback_object" := callback_object;
     "callback_start_timestamp" := callback_start;
     "callback_end_timestamp" := callback_end ]}.

Definition publish_record (publisher_handle publish_time : Z) : gmap string Z :=
  {[ "publisher_handle" := publisher_handle;
     "rclcpp_publish_timestamp" := publish_time ]}.

Definition publisher (topic : string) (handle : Z) : PublisherValueLttng.t :=
  {| PublisherValueLttng.node_name := "/node";
     PublisherValueLttng.node_id := "/node_1";
     PublisherValueLttng.topic_name := topic;
     PublisherValueLttng.callback_ids := None;
     PublisherValueLttng.publisher_handle := handle |}.

Definition sub_cb (id topic : string) (names : option (list string)) (callback_object : Z)
  : SubscriptionCallbackValueLttng.t :=
  {| SubscriptionCallbackValueLttng.callback_id := id;
     SubscriptionCallbackValueLttng.node_id := "/node_1";
     SubscriptionCallbackValueLttng.node_name := "/node";
     SubscriptionCallbackValueLttng.symbol := "symbol";
     SubscriptionCallbackValueLttng.subscribe_topic_name := topic;
     SubscriptionCallbackValueLttng.publish_topic_names := names;
     SubscriptionCallbackValueLttng.callback_object := callback_object;
     SubscriptionCallbackValueLttng.callback_object_intra := None |}.

Definition timer_cb (id : string) (names : option (list string)) (callback_object : Z)
  : TimerCallbackValueLttng.t :=
  {| TimerCallbackValueLttng.callback_id := id;
     TimerCallbackValueLttng.node_id := "/node_1";
     TimerCallbackValueLttng.node_name := "/node";
     TimerCallbackValueLttng.symbol := "symbol";
     TimerCallbackValueLttng.period_ns := 100;
     TimerCallbackValueLttng.publish_topic_names := names;
     TimerCallbackValueLttng.callback_object := callback_object |}.

(** A node with two callbacks and two publishers: callback 1 runs in
    (0, 10) and publisher 100 publishes at 5; callback 2 runs in (20, 30) and
    publisher 200 publishes at 25. *)
Definition two_pairs_source : RecordsSource :=
  {| inter_proc_comm_records := [publish_record 100 5; publish_record 200 25];
     intra_proc_comm_records := [];
     callback_records := [callback_record 1 0 10; callback_record 2 20 30] |}.

Definition two_pairs_info : LttngInfo :=
  {| timer_cbs_without_pub :=
       {[ "/node_1" := [timer_cb "timer_callback_1" None 1;
                        timer_cb "timer_callback_2" None 2] ]};
     sub_cbs_without_pub :=
       {[ "/node_1" := [sub_cb "subscription_callback_1" "/in1" None 1;
                        sub_cb "subscription_callback_2" "/in2" None 2] ]};
     publisher_rows := [publisher "/t1" 100; publisher "/t2" 200];
     callback_groups := λ _, [];
     source := two_pairs_source |}.

(** A callback stream that is not in chronological order: callback 1 runs
    in (10, 20) and, recorded after it, in (1, 5); publisher 100 publishes
    at 3. *)
Definition unordered_source : RecordsSource :=
  {| inter_proc_comm_records := [publish_record 100 3];
     intra_proc_comm_records := [];
     callback_records := [callback_record 1 10 20; callback_record 1 1 5] |}.

(** Callback 1 ran in (1, 5) and (10, 20); publisher 100 publishes at 12,
    publisher 200 at 50. *)
Definition ordered_source : RecordsSource :=
  {| inter_proc_comm_records := [publish_record 100 12; publish_record 200 50];
     intra_proc_comm_records := [];
     callback_records := [callback_record 1 1 5; callback_record 1 10 20] |}.

(** *** Table samples *)
Import Tables.

(** A table of a trace without events of its kind: no column but the index. *)
Definition no_events : DataFrame := {| columns := ["index"]; rows := [] |}.

Definition empty_model : Ros2DataModel :=
  {| nodes := no_events; publishers := no_events; executors := no_events;
     executors_static := no_events; callback_groups := no_events;
     callback_groups_static := no_events; timers := no_events;
     timer_node_links := no_events; callback_objects := no_events;
     callback_symbols := no_events; callback_group_timer := no_events;
     subscriptions := no_events; subscription_objects := no_events;
     callback_group_subscription := no_events |}.

Definition cbg_event (addr executor timestamp : Z) : gmap string Value :=
  {[ "callback_group_addr" := VInt addr;
     "executor_addr" := VInt executor;
     "group_type_name" := VStr "mutually_exclusive";
     "timestamp" := VInt timestamp ]}.

(** Group 7 is seen with executor 1, then with executor 2, then with
    executor 1 again; group 8 with executor 1. *)
Definition regrouped_model : Ros2DataModel :=
  {| nodes := no_events; publishers := no_events; executors := no_events;
     executors_static := no_events;
     callback_groups :=
       {| columns := ["callback_group_addr"; "timestamp"; "executor_addr"; "group_type_name"];
          rows := [cbg_event 7 1 100; cbg_event 7 2 200; cbg_event 7 1 300;
                   cbg_event 8 1 50] |};
     callback_groups_static := no_events; timers := no_events;
     timer_node_links := no_events; callback_objects := no_events;
     callback_symbols := no_events; callback_group_timer := no_events;
     subscriptions := no_events; subscription_objects := no_events;
     callback_group_subscription := no_events |}.

End Samples.

(** * Properties *)

Import Graph.

(** ** graph_search.py *)

(** *** Basic facts about the store *)


Lemma node_eq_true a b : node_eq a b = true ↔ a = b.
Proof.
  unfold node_eq. rewrite String.eqb_eq.
  destruct a as [a], b as [b]; simpl. split; [intros ->; done | by intros [= ->]].
Qed.

Lemma node_eq_refl a : node_eq a a = true.
Proof. by apply node_eq_true. Qed.

Lemma branch_eq_true a b :
  branch_eq a b = true ↔ src_node a = src_node b ∧ dst_node a = dst_node b.
Proof. unfold branch_eq. rewrite andb_true_iff, !node_eq_true. done. Qed.

Lemma deref_prefix h h' l :
  h `prefix_of` h' → l < length h → deref h' l = deref h l.
Proof.
  intros Hp Hl. unfold deref.
  destruct (lookup_lt_is_Some_2 h l Hl) as [b Hb].
  by rewrite (prefix_lookup_Some _ _ _ _ Hb Hp), Hb.
Qed.

Lemma valid_prefix h h' ls : h `prefix_of` h' → valid h ls → valid h' ls.
Proof.
  intros Hp Hv. unfold valid. eapply Forall_impl; [exact Hv|]. intros l Hl.
  simpl in *. apply prefix_length in Hp. lia.
Qed.

Lemma valid_elem h ls l : valid h ls → l ∈ ls → l < length h.
Proof. unfold valid. rewrite Forall_forall. auto. Qed.

Lemma path_branches_prefix h h' p :
  h `prefix_of` h' → valid h p → path_branches h' p = path_branches h p.
Proof.
  intros Hp Hv. unfold path_branches. apply map_ext_Forall.
  eapply Forall_impl; [exact Hv|]. intros l Hl. by apply deref_prefix.
Qed.

Lemma length_set_arrived h l : length (set_arrived h l) = length h.
Proof. unfold set_arrived. by rewrite length_insert. Qed.

Lemma set_arrived_prefix h0 h l :
  h0 `prefix_of` h → length h0 ≤ l → h0 `prefix_of` set_arrived h l.
Proof.
  intros [g ->] Hl. unfold set_arrived.
  rewrite insert_app_r_alt by done. by eexists.
Qed.

Lemma deref_set_arrived_ne h l l' : l ≠ l' → deref (set_arrived h l) l' = deref h l'.
Proof. intros Hne. unfold set_arrived, deref. by rewrite list_lookup_insert_ne. Qed.

Lemma deref_set_arrived_eq h l :
  l < length h →
  deref (set_arrived h l) l =
    {| arrived := true; src_node := src_node (deref h l); dst_node := dst_node (deref h l) |}.
Proof.
  intros Hl. unfold set_arrived. unfold deref at 1.
  by rewrite list_lookup_insert_eq.
Qed.

Lemma deref_set_arrived_ends h l l' :
  src_node (deref (set_arrived h l) l') = src_node (deref h l') ∧
  dst_node (deref (set_arrived h l) l') = dst_node (deref h l').
Proof.
  destruct (decide (l = l')) as [->|Hne]; [|by rewrite deref_set_arrived_ne].
  destruct (decide (l' < length h)) as [Hlt|Hge].
  - by rewrite deref_set_arrived_eq.
  - unfold set_arrived. by rewrite list_insert_ge by lia.
Qed.

(** *** deepcopy: fresh addresses, equal contents *)

Definition copy_of (h0 h' : heap) (l l' : loc) : Prop :=
  (length h0 ≤ l' ∧ l' < length h') ∧ (l < length h0 → deref h' l' = deref h0 l).

Lemma copy_of_prefix h0 h h' l l' :
  h `prefix_of` h' → copy_of h0 h l l' → copy_of h0 h' l l'.
Proof.
  intros Hp [[H1 H2] H3]. pose proof (prefix_length _ _ Hp).
  split; [lia|]. intros Hl. rewrite <- H3 by done. by apply deref_prefix.
Qed.

Lemma deepcopy_refs_spec h0 ls : ∀ memo h h' memo' out,
  h0 `prefix_of` h →
  (∀ l l', memo_get memo l = Some l' → copy_of h0 h l l') →
  deepcopy_refs memo h ls = (h', memo', out) →
  h `prefix_of` h' ∧
  (∀ l l', memo_get memo' l = Some l' → copy_of h0 h' l l') ∧
  Forall2 (copy_of h0 h') ls out.
Proof.
  induction ls as [|l ls IH]; intros memo h h' memo' out Hp Hm Hc; simpl in Hc.
  - injection Hc as <- <- <-. done.
  - destruct (memo_get memo l) as [l'|] eqn:Hg.
    + destruct (deepcopy_refs memo h ls) as [[h1 m1] o1] eqn:Hr.
      injection Hc as <- <- <-.
      destruct (IH _ _ _ _ _ Hp Hm Hr) as (Hp1 & Hm1 & Hf).
      split_and!; [done..|]. constructor; [|done].
      eapply copy_of_prefix; eauto.
    + unfold alloc in Hc.
      destruct (deepcopy_refs ((l, length h) :: memo) (h ++ [deref h l]) ls)
        as [[h1 m1] o1] eqn:Hr.
      injection Hc as <- <- <-.
      assert (Hpa : h `prefix_of` h ++ [deref h l]) by apply prefix_app_r, reflexivity.
      assert (Hnew : copy_of h0 (h ++ [deref h l]) l (length h)).
      { pose proof (prefix_length _ _ Hp). split.
        - rewrite length_app. simpl. lia.
        - intros Hl. unfold deref at 1.
          rewrite lookup_app_r, Nat.sub_diag by done. simpl.
          by apply deref_prefix. }
      edestruct (IH ((l, length h) :: memo) (h ++ [deref h l])) as (Hp1 & Hm1 & Hf);
        [by etrans | | exact Hr |].
      { intros k k'. simpl. destruct (Nat.eqb_spec l k) as [->|Hne].
        - intros [= <-]. done.
        - intros Hk. eapply copy_of_prefix; eauto. }
      split_and!; [by etrans | done |]. constructor; [|done].
      eapply copy_of_prefix; eauto.
Qed.

Lemma deepcopy_spec h ls h' out :
  deepcopy h ls = (h', out) →
  h `prefix_of` h' ∧ Forall2 (copy_of h h') ls out.
Proof.
  unfold deepcopy. destruct (deepcopy_refs [] h ls) as [[h1 m1] o1] eqn:Hr.
  intros [= <- <-].
  destruct (deepcopy_refs_spec h ls [] h h1 m1 o1) as (Hp & _ & Hf); try done.
Qed.

Lemma copy_valid h h' ls out : Forall2 (copy_of h h') ls out → valid h' out.
Proof.
  unfold valid. induction 1 as [|l l' ls out [[??] ?]]; constructor; done.
Qed.

Lemma copy_fresh h h' ls out l' :
  Forall2 (copy_of h h') ls out → l' ∈ out → length h ≤ l'.
Proof.
  induction 1 as [|l k ls out [[??] ?]]; [by intros ?%elem_of_nil|].
  intros [->|?]%elem_of_cons; [done|auto].
Qed.

Lemma copy_branches h h' ls out :
  Forall2 (copy_of h h') ls out → valid h ls →
  path_branches h' out = path_branches h ls.
Proof.
  unfold valid, path_branches.
  induction 1 as [|l l' ls out [_ Hv] _ IH]; [done|].
  intros [Hl Hls]%Forall_cons. simpl. f_equal; auto.
Qed.

Lemma next_equal_spec h branch branches_ branch_ :
  next_equal h branch branches_ = Ok branch_ →
  branch_ ∈ branches_ ∧ branch_eq (deref h branch_) (deref h branch) = true.
Proof.
  unfold next_equal.
  destruct (List.find _ branches_) as [l|] eqn:Hf; [|done].
  intros [= <-]. apply find_some in Hf as [Hin Heq].
  split; [by apply list_elem_of_In|done].
Qed.

(** *** Every recorded path is the path so far followed by a walk to [dst] *)

Lemma walk_ends n w m :
  walk n w m → w ≠ [] →
  src_node <$> head w = Some n ∧ dst_node <$> last w = Some m.
Proof.
  induction 1 as [|n b bs m Hs Hw IH]; [done|]. intros _. split; [by simpl; f_equal|].
  destruct bs as [|b' bs].
  - inversion Hw; subst. done.
  - destruct IH as [_ IH]; [done|]. exact IH.
Qed.

Lemma for_each_inv {A S : Type} (I : S → Prop) (body : A → S → result S) xs :
  ∀ st st',
  I st →
  (∀ x s s', x ∈ xs → I s → body x s = Ok s' → I s') →
  for_each body xs st = Ok st' → I st'.
Proof.
  induction xs as [|x xs IH]; intros st st' HI Hb; simpl.
  - by intros [= <-].
  - destruct (body x st) as [s1|e] eqn:Hx; simpl; [|done].
    apply IH.
    + eapply Hb; [left | exact HI | exact Hx].
    + intros y s s' Hy. apply Hb. by right.
Qed.

Lemma completes_prefix h path node dst h1 h2 p w :
  h1 `prefix_of` h2 →
  completes h path node dst h1 p w → completes h path node dst h2 p w.
Proof.
  intros Hp (Hv & Hb & Hw). split_and!; [by eapply valid_prefix| |done].
  by rewrite (path_branches_prefix h1 h2).
Qed.

Lemma search_post_weaken h path node dst rec_ ps h1 ps1 h2 ps2 :
  search_post h path node dst rec_ ps h1 ps1 →
  h1 `prefix_of` h2 →
  (∃ more, ps2 = ps1 ++ more ∧
     Forall (λ p, ∃ w, completes h path node dst h2 p w ∧ w ≠ []) more) →
  search_post h path node dst rec_ ps h2 ps2.
Proof.
  intros (Hp1 & more1 & -> & Hm1) Hp2 (more2 & -> & Hm2).
  split; [by etrans|]. exists (more1 ++ more2). split; [by rewrite !(assoc_L (++))|].
  apply Forall_app. split; [|done].
  eapply Forall_impl; [exact Hm1|]. intros p (w & Hc & Hne).
  exists w. split; [|done]. by eapply completes_prefix.
Qed.

Lemma visit_sound rec h dst node path branches branch first ps hc pc h' ps' :
  search_spec dst rec →
  valid h path → valid h branches →
  branch ∈ branches → src_node (deref h branch) = node →
  search_post h path node dst first ps hc pc →
  visit rec path branches branch (hc, pc) = Ok (h', ps') →
  search_post h path node dst first ps h' ps'.
Proof.
  intros Hrec Hvp Hvb Hin Hsrc Hpost. pose proof Hpost as (Hhc & _).
  unfold visit.
  destruct (arrived (deref hc branch)) eqn:Harr; [by intros [= <- <-]|].
  destruct (deepcopy hc branches) as [h1 branches_] eqn:Hd1.
  destruct (next_equal h1 branch branches_) as [branch_|e] eqn:Hn; simpl; [|done].
  destruct (deepcopy (set_arrived h1 branch_) path) as [h3 path_] eqn:Hd2.
  intros Hr.
  apply deepcopy_spec in Hd1 as [Hp1 Hc1].
  apply deepcopy_spec in Hd2 as [Hp3 Hc3].
  apply next_equal_spec in Hn as [Hin_ Heq_].
  apply branch_eq_true in Heq_ as [_ Hdst_].
  assert (Hfresh : length hc ≤ branch_) by (eapply copy_fresh; eauto).
  assert (Hp2 : hc `prefix_of` set_arrived h1 branch_) by by apply set_arrived_prefix.
  assert (Hhh2 : h `prefix_of` set_arrived h1 branch_) by (by etrans).
  assert (Hhh3 : h `prefix_of` h3) by (by etrans).
  assert (Hbl : branch < length h).
  { by eapply valid_elem. }
  assert (Hb3 : deref h3 branch = deref h branch) by by apply deref_prefix.
  assert (Hpath3 : path_branches h3 (path_ ++ [branch])
                   = path_branches h path ++ [deref h branch]).
  { unfold path_branches. rewrite map_app. simpl. rewrite Hb3. f_equal.
    fold (path_branches h3 path_).
    rewrite (copy_branches _ _ _ _ Hc3).
    - by apply path_branches_prefix.
    - by eapply valid_prefix. }
  assert (Hnode' : dst_node (deref h3 branch_) = dst_node (deref h branch)).
  { assert (Hlt : branch_ < length (set_arrived h1 branch_)).
    { rewrite length_set_arrived. eapply valid_elem; [|exact Hin_].
      by eapply copy_valid. }
    rewrite (deref_prefix _ _ _ Hp3 Hlt).
    destruct (deref_set_arrived_ends h1 branch_ branch_) as [_ ->].
    rewrite Hdst_. f_equal. apply deref_prefix; [by trans hc|done]. }
  apply Hrec in Hr as (Hp4 & more & -> & Hm).
  - eapply search_post_weaken; [exact Hpost| |].
    { trans (set_arrived h1 branch_); [done|]. by trans h3. }
    eexists. split; [done|]. apply Forall_app. split.
    + unfold recorded. rewrite length_app. simpl.
      replace (0 <? length path_ + 1) with true by (symmetry; apply Nat.ltb_lt; lia).
      rewrite andb_true_r.
      destruct (node_eq _ dst) eqn:Hnd; [|done].
      apply node_eq_true in Hnd. constructor; [|done].
      exists [deref h branch]. split; [|done]. split_and!.
      * eapply valid_prefix; [exact Hp4|]. apply Forall_app. split.
        -- by eapply copy_valid.
        -- constructor; [|done]. apply prefix_length in Hhh3. simpl. lia.
      * rewrite (path_branches_prefix h3 h'); [done|done|].
        apply Forall_app. split; [by eapply copy_valid|].
        constructor; [|done]. apply prefix_length in Hhh3. simpl. lia.
      * constructor; [done|]. rewrite <- Hnode', Hnd. constructor.
    + eapply Forall_impl; [exact Hm|]. intros p (w & (Hv & Hb & Hw) & Hne).
      exists (deref h branch :: w). split; [|done]. split_and!; [done| |].
      * rewrite Hb, Hpath3. by rewrite <- (assoc_L (++)).
      * constructor; [done|]. by rewrite <- Hnode'.
  - apply Forall_app. split; [by eapply copy_valid|].
    constructor; [|done]. apply prefix_length in Hhh3. simpl. lia.
  - pose proof (copy_valid _ _ _ _ Hc1) as Hv1.
    unfold valid in *. eapply Forall_impl; [exact Hv1|]. intros l Hl. simpl in *.
    apply prefix_length in Hp3. rewrite length_set_arrived in Hp3. lia.
Qed.

Lemma search_local_sound fuel dst : search_spec dst (search_local fuel dst).
Proof.
  induction fuel as [|fuel IH]; intros node path branches h ps h' ps' Hvp Hvb; [done|].
  simpl.
  replace (if node_eq node dst && (0 <? length path) then ps ++ [path] else ps)
    with (ps ++ recorded dst node path)
    by (unfold recorded; destruct (_ && _); by rewrite ?app_nil_r).
  set (targets := List.filter _ branches).
  intros Hfe.
  assert (Hgoal : search_post h path node dst [] (ps ++ recorded dst node path) h' ps').
  { revert Hfe. apply (for_each_inv
      (λ st, search_post h path node dst [] (ps ++ recorded dst node path) st.1 st.2)
      _ targets (h, _) (h', ps')).
    - split; [done|]. exists []. by rewrite app_nil_r.
    - intros x [hc pc] [h2 ps2] Hx Hpost Hv. simpl in *.
      apply list_elem_of_In, filter_In in Hx as [Hx Hsrc].
      apply node_eq_true in Hsrc. apply list_elem_of_In in Hx.
      eapply (visit_sound _ h); eassumption. }
  destruct Hgoal as (Hp & more & -> & Hm).
  split; [done|]. exists more. simpl. by rewrite <- (assoc_L (++)).
Qed.
(** *** The search does not depend on where new objects are allocated *)

Lemma for_each_rel {A B S T : Type} (R : S → T → Prop) (f : A → B)
    (body1 : A → S → result S) (body2 : B → T → result T) xs :
  (∀ x s t, R s t → res_rel R (body1 x s) (body2 (f x) t)) →
  ∀ s t, R s t → res_rel R (for_each body1 xs s) (for_each body2 (map f xs) t).
Proof.
  intros Hb. induction xs as [|x xs IH]; intros s t HR; simpl; [done|].
  specialize (Hb x s t HR).
  destruct (body1 x s) as [s1|e1], (body2 (f x) t) as [t1|e2]; simpl in *; try done.
  by apply IH.
Qed.

Section shift.
Context (n k : nat).
Local Abbreviation σ := (shift n k).

Lemma shift_inj l l' : σ l = σ l' → l = l'.
Proof. unfold shift. repeat case_match; rewrite ?Nat.ltb_lt, ?Nat.ltb_ge in *; lia. Qed.

Lemma shift_eqb l l' : Nat.eqb (σ l) (σ l') = Nat.eqb l l'.
Proof.
  destruct (Nat.eqb_spec l l') as [->|Hne]; [apply Nat.eqb_refl|].
  apply Nat.eqb_neq. intros ?%shift_inj. done.
Qed.

Lemma shifted_deref h1 h2 l : shifted n k h1 h2 → deref h2 (σ l) = deref h1 l.
Proof. intros (_ & _ & H). unfold deref. by rewrite H. Qed.

Lemma shifted_length h1 h2 : shifted n k h1 h2 → length h2 = σ (length h1).
Proof.
  intros (Hn & Hl & _). unfold shift.
  destruct (Nat.ltb_spec (length h1) n); lia.
Qed.

Lemma shifted_alloc h1 h2 b :
  shifted n k h1 h2 → shifted n k (h1 ++ [b]) (h2 ++ [b]).
Proof.
  intros (Hn & Hl & H). split_and!.
  - rewrite length_app. lia.
  - rewrite !length_app. simpl. lia.
  - intros l. destruct (Nat.lt_trichotomy l (length h1)) as [Hlt|[->|Hgt]].
    + rewrite (lookup_app_l h1) by done. rewrite <- H.
      apply lookup_app_l. apply lookup_lt_is_Some. rewrite H.
      by apply lookup_lt_is_Some.
    + rewrite (lookup_app_r h1), Nat.sub_diag by done.
      replace (σ (length h1)) with (length h2)
        by (unfold shift; destruct (Nat.ltb_spec (length h1) n); lia).
      by rewrite lookup_app_r, Nat.sub_diag.
    + rewrite !lookup_ge_None_2; [done| |].
      * rewrite length_app. simpl. lia.
      * rewrite length_app. simpl. unfold shift.
        destruct (Nat.ltb_spec l n); lia.
Qed.

Lemma shifted_set_arrived h1 h2 l :
  shifted n k h1 h2 → shifted n k (set_arrived h1 l) (set_arrived h2 (σ l)).
Proof.
  intros Hs. pose proof Hs as (Hn & Hl & H). split_and!.
  - by rewrite length_set_arrived.
  - by rewrite !length_set_arrived.
  - intros l'. unfold set_arrived. rewrite (shifted_deref _ _ _ Hs).
    destruct (decide (l = l')) as [->|Hne].
    + destruct (decide (l' < length h1)) as [Hlt|Hge].
      * rewrite !list_lookup_insert_eq; [done|done|].
        apply lookup_lt_is_Some. rewrite H. by apply lookup_lt_is_Some.
      * rewrite !list_insert_ge; [done|lia|].
        apply lookup_ge_None. rewrite H. apply lookup_ge_None. lia.
    + rewrite !list_lookup_insert_ne; [done|done|].
      intros ?%shift_inj. done.
Qed.

Lemma memo_get_shift memo l :
  memo_get (map (λ kv, (σ kv.1, σ kv.2)) memo) (σ l) = σ <$> memo_get memo l.
Proof.
  induction memo as [|[a b] memo IH]; simpl; [done|].
  rewrite shift_eqb. by destruct (Nat.eqb a l).
Qed.

Lemma deepcopy_refs_shift ls : ∀ memo h1 h2 h1' memo' out,
  shifted n k h1 h2 →
  deepcopy_refs memo h1 ls = (h1', memo', out) →
  ∃ h2', deepcopy_refs (map (λ kv, (σ kv.1, σ kv.2)) memo) h2 (map σ ls)
           = (h2', map (λ kv, (σ kv.1, σ kv.2)) memo', map σ out)
         ∧ shifted n k h1' h2'.
Proof.
  induction ls as [|l ls IH]; intros memo h1 h2 h1' memo' out Hs; simpl.
  - intros [= <- <- <-]. eauto.
  - rewrite memo_get_shift. destruct (memo_get memo l) as [l'|]; simpl.
    + destruct (deepcopy_refs memo h1 ls) as [[h m] o] eqn:Hr.
      intros [= <- <- <-].
      destruct (IH _ _ _ _ _ _ Hs Hr) as (h2' & -> & Hs'). eauto.
    + destruct (deepcopy_refs _ (h1 ++ _) ls) as [[h m] o] eqn:Hr.
      intros [= <- <- <-].
      rewrite (shifted_deref _ _ _ Hs), (shifted_length _ _ Hs).
      eapply (IH _ _ (h2 ++ [deref h1 l])) in Hr as (h2' & Hr' & Hs');
        [|by apply shifted_alloc].
      simpl in Hr'. rewrite Hr'. eauto.
Qed.

Lemma deepcopy_shift h1 h2 ls h1' out :
  shifted n k h1 h2 →
  deepcopy h1 ls = (h1', out) →
  ∃ h2', deepcopy h2 (map σ ls) = (h2', map σ out) ∧ shifted n k h1' h2'.
Proof.
  unfold deepcopy. intros Hs.
  destruct (deepcopy_refs [] h1 ls) as [[h m] o] eqn:Hr. intros [= <- <-].
  eapply deepcopy_refs_shift in Hr as (h2' & Hr' & Hs'); [|done].
  simpl in Hr'. rewrite Hr'. eauto.
Qed.

Lemma find_shift (f g : loc → bool) ls :
  (∀ l, g (σ l) = f l) → List.find g (map σ ls) = σ <$> List.find f ls.
Proof.
  intros Hfg. induction ls as [|l ls IH]; simpl; [done|].
  rewrite Hfg. by destruct (f l).
Qed.

Lemma filter_shift (f g : loc → bool) ls :
  (∀ l, g (σ l) = f l) → List.filter g (map σ ls) = map σ (List.filter f ls).
Proof.
  intros Hfg. induction ls as [|l ls IH]; simpl; [done|].
  rewrite Hfg. destruct (f l); simpl; by rewrite IH.
Qed.

Lemma next_equal_shift h1 h2 branch branches_ :
  shifted n k h1 h2 →
  next_equal h2 (σ branch) (map σ branches_)
  = match next_equal h1 branch branches_ with
    | Ok l => Ok (σ l) | Raise e => Raise e
    end.
Proof.
  intros Hs. unfold next_equal.
  rewrite (find_shift (λ branch_, branch_eq (deref h1 branch_) (deref h1 branch))).
  - by destruct (List.find _ branches_).
  - intros l. by rewrite !(shifted_deref _ _ _ Hs).
Qed.

Lemma visit_shift rec path branches branch s1 s2 :
  rec_shift n k rec →
  shifted_state n k s1 s2 →
  res_rel (shifted_state n k)
    (visit rec path branches branch s1)
    (visit rec (map σ path) (map σ branches) (σ branch) s2).
Proof.
  intros Hrec. destruct s1 as [h1 ps1], s2 as [h2 ps2].
  intros [Hs Hps]; simpl in Hs, Hps. unfold visit.
  rewrite (shifted_deref _ _ _ Hs).
  destruct (arrived (deref h1 branch)); [done|].
  destruct (deepcopy h1 branches) as [h1a branches_] eqn:Hd1.
  destruct (deepcopy_shift _ _ _ _ _ Hs Hd1) as (h2a & -> & Hsa).
  rewrite (next_equal_shift _ _ _ _ Hsa).
  destruct (next_equal h1a branch branches_) as [branch_|e]; simpl; [|done].
  destruct (deepcopy (set_arrived h1a branch_) path) as [h1c path_] eqn:Hd2.
  destruct (deepcopy_shift _ (set_arrived h2a (σ branch_)) _ _ _
              (shifted_set_arrived _ _ _ Hsa) Hd2) as (h2c & -> & Hsc).
  rewrite (shifted_deref _ _ _ Hsc).
  replace (map σ path_ ++ [σ branch]) with (map σ (path_ ++ [branch]))
    by by rewrite map_app.
  by apply Hrec.
Qed.

Lemma search_local_shift fuel dst : rec_shift n k (search_local fuel dst).
Proof.
  induction fuel as [|fuel IH]; intros node path branches [h1 ps1] [h2 ps2];
    [done|].
  intros [Hs Hps]; simpl in Hs, Hps. subst ps2. simpl.
  rewrite length_map.
  rewrite (filter_shift (λ x, node_eq (src_node (deref h1 x)) node))
    by (intros l; by rewrite (shifted_deref _ _ _ Hs)).
  apply for_each_rel.
  - intros x s t Hst. by apply visit_shift.
  - split; [done|]. simpl. destruct (_ && _); [|done].
    by rewrite map_app.
Qed.
End shift.
(** ** graph_search.py: what one step of the search does to the store *)

Import GraphProps.

Lemma edge_eq (a b : GraphBranch) : branch_eq a b = true ↔ edge a = edge b.
Proof.
  rewrite branch_eq_true. unfold edge. split; [by intros [-> ->]|by intros [= -> ->]].
Qed.

Lemma edges_prefix h h' ls : h `prefix_of` h' → valid h ls → edges h' ls = edges h ls.
Proof. intros Hp Hv. unfold edges. by rewrite (path_branches_prefix h h'). Qed.

Lemma unarrived_prefix h h' ls :
  h `prefix_of` h' → valid h ls → unarrived h' ls = unarrived h ls.
Proof.
  intros Hp. unfold unarrived, valid. induction 1 as [|l ls Hl _ IH]; simpl; [done|].
  by rewrite IH, (deref_prefix h h').
Qed.

(** The state in which [search_local] is called for [branch]: the copy
    [branches_] of the branch list with [branch_] marked, and the copy of the
    path followed by [branch]. *)
Lemma visit_step_facts hc path branches branch h1 branches_ branch_ h3 path_ :
  valid hc path → valid hc branches → branch ∈ branches →
  deepcopy hc branches = (h1, branches_) →
  next_equal h1 branch branches_ = Ok branch_ →
  deepcopy (set_arrived h1 branch_) path = (h3, path_) →
  hc `prefix_of` h3 ∧
  valid h3 (path_ ++ [branch]) ∧ valid h3 branches_ ∧
  path_branches h3 (path_ ++ [branch]) = path_branches hc path ++ [deref hc branch] ∧
  branch_ ∈ branches_ ∧
  edge (deref h3 branch_) = edge (deref hc branch) ∧
  Forall2 (λ l l', edge (deref h3 l') = edge (deref hc l) ∧
                   arrived (deref h3 l')
                   = arrived (deref hc l) || bool_decide (l' = branch_))
          branches branches_.
Proof.
  intros Hvp Hvb Hin Hd1 Hn Hd2.
  apply deepcopy_spec in Hd1 as [Hp1 Hc1].
  apply deepcopy_spec in Hd2 as [Hp3 Hc3].
  apply next_equal_spec in Hn as [Hin_ Heq_].
  assert (Hfresh : length hc ≤ branch_) by (eapply copy_fresh; eauto).
  assert (Hp2 : hc `prefix_of` set_arrived h1 branch_) by by apply set_arrived_prefix.
  assert (Hhh3 : hc `prefix_of` h3) by (by etrans).
  assert (Hbl : branch < length hc) by by eapply valid_elem.
  assert (Hv1 : valid h1 branches_) by by eapply copy_valid.
  assert (Hv2 : valid (set_arrived h1 branch_) branches_).
  { unfold valid in *. eapply Forall_impl; [exact Hv1|]. intros l Hl. simpl in *.
    by rewrite length_set_arrived. }
  assert (Hvp3 : valid h3 (path_ ++ [branch])).
  { apply Forall_app. split; [by eapply copy_valid|].
    constructor; [|done]. apply prefix_length in Hhh3. simpl. lia. }
  assert (Hderef3 : ∀ l', l' ∈ branches_ → deref h3 l' = deref (set_arrived h1 branch_) l').
  { intros l' Hl'. apply deref_prefix; [done|]. by eapply valid_elem. }
  split_and!; [done|done|exact (valid_prefix _ _ _ Hp3 Hv2)| |done| |].
  - unfold path_branches. rewrite map_app. simpl.
    rewrite (deref_prefix hc h3) by done. f_equal.
    fold (path_branches h3 path_). rewrite (copy_branches _ _ _ _ Hc3).
    + by apply path_branches_prefix.
    + by eapply valid_prefix.
  - rewrite Hderef3 by done. unfold edge.
    destruct (deref_set_arrived_ends h1 branch_ branch_) as [-> ->].
    apply edge_eq in Heq_. rewrite <- (deref_prefix hc h1 branch) by done. exact Heq_.
  - assert (Haux : ∀ ls ls',
      Forall2 (copy_of hc h1) ls ls' → valid hc ls → (∀ l', l' ∈ ls' → l' ∈ branches_) →
      Forall2 (λ l l', edge (deref h3 l') = edge (deref hc l) ∧
                       arrived (deref h3 l')
                       = arrived (deref hc l) || bool_decide (l' = branch_)) ls ls').
    { induction 1 as [|l l' ls ls2 [_ Hcopy] _ IH]; intros Hv Hsub; [constructor|].
      apply Forall_cons in Hv as [Hl Hv].
      constructor; [|apply IH; [done|intros ??; apply Hsub; by right]].
      assert (Hl' : l' ∈ branches_) by (apply Hsub; by left).
      rewrite Hderef3 by done. specialize (Hcopy Hl). split.
      - unfold edge. destruct (deref_set_arrived_ends h1 branch_ l') as [-> ->].
        by rewrite Hcopy.
      - destruct (decide (l' = branch_)) as [->|Hne].
        + rewrite deref_set_arrived_eq by (by eapply valid_elem).
          by rewrite bool_decide_eq_true_2, orb_true_r.
        + rewrite deref_set_arrived_ne by done.
          by rewrite Hcopy, bool_decide_eq_false_2, orb_false_r. }
    by apply Haux.
Qed.


(** *** Every trail to [dst] is found *)

Lemma grows_refl s : grows s s.
Proof. by split. Qed.

Lemma grows_trans s1 s2 s3 : grows s1 s2 → grows s2 s3 → grows s1 s3.
Proof. intros [??] [??]. split; by etrans. Qed.

(** The body of the loop is run for every element, in a state that grew
    from the first one, and what it returns is kept to the end. *)
Lemma for_each_visits {A : Type}
    (body : A → list GraphBranch * list (list nat) → result (list GraphBranch * list (list nat)))
    xs st0 :
  (∀ x s s', x ∈ xs → grows st0 s → body x s = Ok s' → grows s s') →
  ∀ st st', grows st0 st → for_each body xs st = Ok st' →
    grows st st' ∧
    ∀ x, x ∈ xs → ∃ s1 s2, grows st s1 ∧ body x s1 = Ok s2 ∧ grows s2 st'.
Proof.
  induction xs as [|a xs IH]; intros Hbody st st' H0; simpl.
  - intros [= <-]. split; [apply grows_refl|]. by intros x ?%elem_of_nil.
  - destruct (body a st) as [s1|e] eqn:Ha; simpl; [|done]. intros Hrun.
    assert (Hg : grows st s1) by (eapply Hbody; [by left|done|done]).
    destruct (IH (λ x s s' Hx, Hbody x s s' (list_elem_of_further _ _ _ Hx)) s1 st')
      as [Hg' Hall]; [by eapply grows_trans|done|].
    split; [by eapply grows_trans|].
    intros x [->|Hx]%elem_of_cons.
    + exists st, s1. split; [apply grows_refl|done].
    + destruct (Hall x Hx) as (s2 & s3 & ? & ? & ?).
      exists s2, s3. split; [by eapply grows_trans|done].
Qed.

Lemma visit_grows rec dst node path branches branch hc pc h' ps' :
  search_spec dst rec →
  valid hc path → valid hc branches →
  branch ∈ branches → src_node (deref hc branch) = node →
  visit rec path branches branch (hc, pc) = Ok (h', ps') →
  grows (hc, pc) (h', ps').
Proof.
  intros Hrec Hvp Hvb Hin Hsrc Hvisit.
  destruct (visit_sound rec hc dst node path branches branch [] pc hc pc h' ps')
    as (Hp & more & -> & _); try done.
  { split; [done|]. exists []. by rewrite !app_nil_r. }
  split; [done|]. simpl. by apply prefix_app_r.
Qed.

(** At a call of [search_local] at [node], every walk [w] from [node] to
    [dst] that uses no edge twice and whose edges all have a branch that is
    not yet marked gives a recorded path: the path so far followed by [w]. *)
Lemma search_local_complete dst fuel : ∀ node path branches h ps h' ps' w,
  valid h path → valid h branches →
  search_local fuel dst node path branches (h, ps) = Ok (h', ps') →
  walk node w dst → NoDup (map edge w) →
  (∀ e, e ∈ map edge w → available h branches e) →
  0 < length path + length w →
  ∃ before p after,
    ps' = ps ++ before ++ p :: after ∧ valid h' p ∧
    edges h' p = edges h path ++ map edge w.
Proof.
  induction fuel as [|fuel IH];
    intros node path branches h ps h' ps' w Hvp Hvb Hrun Hwalk Hnd Havail Hlen; [done|].
  pose proof (search_local_sound _ _ _ _ _ _ _ _ _ Hvp Hvb Hrun) as (Hp & more & Hps' & _).
  destruct w as [|b w].
  - assert (Hnode : node = dst) by (by inversion Hwalk). subst node. simpl in Hlen.
    assert (Hrec : recorded dst dst path = [path]).
    { unfold recorded. rewrite node_eq_refl. simpl.
      by replace (0 <? length path) with true by (symmetry; apply Nat.ltb_lt; lia). }
    rewrite Hrec in Hps'. exists [], path, more. split_and!; [done|by eapply valid_prefix|].
    simpl. by rewrite app_nil_r, (edges_prefix h h').
  - assert (Hsrc : src_node b = node) by (by inversion Hwalk).
    assert (Hw : walk (dst_node b) w dst) by (by inversion Hwalk).
    subst node. clear Hps'.
    apply NoDup_cons in Hnd as [Hfresh Hnd].
    destruct (Havail (edge b)) as (l & Hl & Harr & Hedge); [by left|].
    assert (Hlh : l < length h) by by eapply valid_elem.
    simpl in Hrun.
    set (ps1 := if _ && _ then ps ++ [path] else ps) in Hrun.
    assert (Hps1 : ps `prefix_of` ps1).
    { subst ps1. destruct (_ && _); [by apply prefix_app_r|done]. }
    set (targets := List.filter _ branches) in Hrun.
    assert (Htargets : ∀ x, x ∈ targets → x ∈ branches ∧ src_node (deref h x) = src_node b).
    { intros x Hx. apply list_elem_of_In, filter_In in Hx as [Hx Hs].
      split; [by apply list_elem_of_In|by apply node_eq_true]. }
    assert (Hlt : l ∈ targets).
    { apply list_elem_of_In, filter_In. split; [by apply list_elem_of_In|].
      apply node_eq_true. by injection Hedge. }
    destruct (for_each_visits (visit (search_local fuel dst) path branches) targets (h, ps1))
      with (st := (h, ps1)) (st' := (h', ps')) as [_ Hall]; [|apply grows_refl|done|].
    { intros x [hc pc] [h2 ps2] Hx [Hg _] Hv. simpl in Hg.
      destruct (Htargets x Hx) as [Hxb Hxs].
      eapply (visit_grows _ dst (src_node b)); try done.
      - apply search_local_sound.
      - by eapply valid_prefix.
      - by eapply valid_prefix.
      - rewrite (deref_prefix h hc); [done|done|by eapply valid_elem]. }
    destruct (Hall l Hlt) as ([hc pc] & [h2 ps2] & [Hhc Hpc] & Hvisit & [Hh2 Hps2]).
    simpl in Hhc, Hpc, Hh2, Hps2.
    assert (Hvp' : valid hc path) by by eapply valid_prefix.
    assert (Hvb' : valid hc branches) by by eapply valid_prefix.
    unfold visit in Hvisit. rewrite (deref_prefix h hc l Hhc Hlh), Harr in Hvisit.
    destruct (deepcopy hc branches) as [h1 branches_] eqn:Hd1.
    destruct (next_equal h1 l branches_) as [branch_|e] eqn:Hn; simpl in Hvisit; [|done].
    destruct (deepcopy (set_arrived h1 branch_) path) as [h3 path_] eqn:Hd2.
    destruct (visit_step_facts hc path branches l h1 branches_ branch_ h3 path_)
      as (Hp3 & Hvp3 & Hvb3 & Hpath & Hin_ & Hedge3 & Hcopy); [done..|].
    rewrite (deref_prefix h hc l Hhc Hlh), Hedge in Hedge3.
    assert (Hnode : dst_node (deref h3 branch_) = dst_node b) by by injection Hedge3.
    rewrite Hnode in Hvisit.
    destruct (IH _ _ _ _ _ _ _ w Hvp3 Hvb3 Hvisit Hw Hnd)
      as (before & p & after & Heq & Hvalid & Hedges).
    { intros e He. destruct (Havail e) as (l0 & Hl0 & Harr0 & Hedge0); [by right|].
      apply list_elem_of_lookup in Hl0 as [i Hi].
      destruct (Forall2_lookup_l _ _ _ _ _ Hcopy Hi) as (l0' & Hi' & Hedge' & Harr').
      assert (Hl0h : l0 < length h) by (eapply valid_elem; [done|by eapply list_elem_of_lookup_2]).
      rewrite (deref_prefix h hc l0 Hhc Hl0h) in Hedge', Harr'.
      exists l0'. split_and!; [by eapply list_elem_of_lookup_2| |by rewrite Hedge'].
      rewrite Harr', Harr0. simpl. apply bool_decide_eq_false.
      intros ->. apply Hfresh. by rewrite <- Hedge3, Hedge', Hedge0. }
    { rewrite length_app. simpl. lia. }
    destruct Hps1 as [k0 Hk0]. destruct Hpc as [k1 Hk1]. destruct Hps2 as [k2 Hk2].
    exists (k0 ++ k1 ++ before), p, (after ++ k2).
    split_and!.
    + rewrite Hk2, Heq, Hk1, Hk0. by rewrite <- !app_assoc.
    + by eapply valid_prefix.
    + rewrite (edges_prefix h2 h') by done. rewrite Hedges.
      unfold edges at 1. rewrite Hpath, map_app. simpl.
      rewrite (deref_prefix h hc l Hhc Hlh), Hedge.
      fold (edges hc path). rewrite (edges_prefix h hc) by done.
      by rewrite <- app_assoc.
Qed.
(** *** GraphSearcher.search: returned paths are non-empty walks *)

Lemma graph_search_walks fuel h branches src dst h' paths :
  valid h branches →
  search fuel h branches src dst = Ok (h', paths) →
  h `prefix_of` h' ∧
  Forall (λ p, valid h' p ∧ path_branches h' p ≠ [] ∧ walk src (path_branches h' p) dst)
         paths.
Proof.
  intros Hv Hs. unfold search in Hs.
  apply search_local_sound in Hs as (Hp & more & -> & Hm); [|by constructor|done].
  split; [done|]. unfold recorded. simpl. rewrite andb_false_r. simpl.
  eapply Forall_impl; [exact Hm|].
  intros p (w & (Hvp & Hb & Hw) & Hne). simpl in Hb. rewrite Hb. done.
Qed.

(** *** CallbackPathSercher.search *)

Section callback_paths.
Context {CallbackBase : Type} (callback_unique_name : CallbackBase → string).
Local Abbreviation sercher := (CallbackPathSercher.t (CallbackBase := CallbackBase)).

Lemma append_branch_valid st src dst :
  valid st.1 st.2 →
  valid (CallbackPathSercher.append_branch st src dst).1
        (CallbackPathSercher.append_branch st src dst).2.
Proof.
  destruct st as [h bs]. simpl. intros Hv. apply Forall_app. split.
  - eapply valid_prefix; [|exact Hv]. by apply prefix_app_r.
  - constructor; [|done]. rewrite length_app. simpl. lia.
Qed.

Lemma build_branches_valid h0 (self : sercher) :
  valid (CallbackPathSercher.build_branches callback_unique_name h0 self).1
        (CallbackPathSercher.build_branches callback_unique_name h0 self).2.
Proof.
  unfold CallbackPathSercher.build_branches.
  assert (H1 : ∀ cs st, valid st.1 st.2 →
    valid (foldl (CallbackPathSercher.add_communication callback_unique_name) st cs).1
          (foldl (CallbackPathSercher.add_communication callback_unique_name) st cs).2).
  { induction cs as [|c cs IH]; intros st Hst; simpl; [done|]. apply IH.
    unfold CallbackPathSercher.add_communication.
    destruct (CallbackPathSercher.callback_publish c); [|done].
    by apply append_branch_valid. }
  assert (H2 : ∀ vs st, valid st.1 st.2 →
    valid (foldl (CallbackPathSercher.add_variable_passing callback_unique_name) st vs).1
          (foldl (CallbackPathSercher.add_variable_passing callback_unique_name) st vs).2).
  { induction vs as [|v vs IH]; intros st Hst; simpl; [done|]. apply IH.
    by apply append_branch_valid. }
  apply H2, H1. by constructor.
Qed.

Lemma to_callback_lookup cbs k cb :
  CallbackPathSercher.to_callback callback_unique_name cbs !! k = Some cb →
  callback_unique_name cb = k.
Proof.
  unfold CallbackPathSercher.to_callback.
  assert (H : ∀ (m : gmap string CallbackBase),
    (∀ k cb, m !! k = Some cb → callback_unique_name cb = k) →
    ∀ k cb, foldl (λ m c, <[callback_unique_name c := c]> m) m cbs !! k = Some cb →
            callback_unique_name cb = k).
  { induction cbs as [|c cbs IH]; intros m Hm; simpl; [done|].
    apply IH. intros k' cb'.
    destruct (decide (callback_unique_name c = k')) as [<-|Hne].
    - rewrite lookup_insert_eq. by intros [= <-].
    - rewrite lookup_insert_ne by done. apply Hm. }
  apply H. intros k' cb'. by rewrite lookup_empty.
Qed.

Lemma mapM_Forall2 {X Y : Type} (f : X → result Y) xs ys :
  mapM f xs = Ok ys → Forall2 (λ x y, f x = Ok y) xs ys.
Proof.
  revert ys. induction xs as [|x xs IH]; intros ys; simpl.
  - intros [= <-]. constructor.
  - destruct (f x) as [y|e] eqn:Hfx; simpl; [|done].
    destruct (mapM f xs) as [ys'|e]; simpl; [|done].
    intros [= <-]. constructor; auto.
Qed.

Lemma to_path_names (self : sercher) h graph_path path :
  CallbackPathSercher._to_path callback_unique_name self h graph_path = Ok path →
  map callback_unique_name path = map name (to_graph_nodes h graph_path).
Proof.
  unfold CallbackPathSercher._to_path. intros Hm%mapM_Forall2.
  induction Hm as [|node cb nodes cbs Hcb _ IH]; [done|]. simpl. f_equal; [|done].
  destruct (_ !! name node) as [cb'|] eqn:Hl; [|done].
  injection Hcb as ->. by eapply to_callback_lookup.
Qed.

Lemma last_map_cons {X Y : Type} (f : X → Y) (x : Y) (q : list X) :
  q ≠ [] → last (x :: map f q) = f <$> last q.
Proof.
  revert x. induction q as [|a q IH]; intros x Hq; [done|].
  destruct q as [|a' q]; [done|].
  change (map f (a :: a' :: q)) with (f a :: map f (a' :: q)).
  rewrite !last_cons_cons. by apply IH.
Qed.

Lemma to_graph_nodes_ends h p src dst :
  path_branches h p ≠ [] → walk src (path_branches h p) dst →
  head (to_graph_nodes h p) = Some src ∧ last (to_graph_nodes h p) = Some dst.
Proof.
  intros Hne Hw. destruct (walk_ends _ _ _ Hw Hne) as [Hh Hl].
  destruct p as [|l p]; [done|]. split.
  - simpl in *. by injection Hh as ->.
  - unfold to_graph_nodes. rewrite last_map_cons by done.
    unfold path_branches in Hl. rewrite <- Hl.
    generalize (l :: p). clear. intros q.
    induction q as [|a q IH]; [done|].
    destruct q as [|a' q]; [done|].
    change (map (deref h) (a :: a' :: q)) with (deref h a :: map (deref h) (a' :: q)).
    by rewrite !last_cons_cons.
Qed.
End callback_paths.

(** C1.  Every path returned by [CallbackPathSercher.search s e] (the
    callbacks visited by a path of [GraphSearcher.search] over the branches
    built from communications and variable passings) is non-empty, its first
    callback's unique name is [s] and its last callback's unique name is [e]. *)
Theorem search_path_endpoints {CallbackBase : Type}
    (callback_unique_name : CallbackBase → string)
    (fuel : nat) (h0 : list GraphBranch) (self : CallbackPathSercher.t)
    (s e : string) (paths : list (list CallbackBase)) :
  CallbackPathSercher.search callback_unique_name fuel h0 self s e = Ok paths →
  ∀ path, path ∈ paths →
    path ≠ [] ∧
    callback_unique_name <$> head path = Some s ∧
    callback_unique_name <$> last path = Some e.
Proof.
  unfold CallbackPathSercher.search.
  pose proof (build_branches_valid callback_unique_name h0 self) as Hv.
  destruct (CallbackPathSercher.build_branches _ h0 self) as [h branches].
  simpl in Hv.
  destruct (search fuel h branches _ _) as [[h' graph_paths]|err] eqn:Hs; simpl; [|done].
  apply graph_search_walks in Hs as [_ Hw]; [|done].
  intros Hm%mapM_Forall2 path Hin.
  apply list_elem_of_lookup in Hin as [i Hi].
  destruct (Forall2_lookup_r _ _ _ _ _ Hm Hi) as (gp & Hgp & Hp).
  rewrite Forall_forall in Hw.
  destruct (Hw gp) as (_ & Hne & Hwalk); [by eapply list_elem_of_lookup_2|].
  apply to_path_names in Hp.
  destruct (to_graph_nodes_ends _ _ _ _ Hne Hwalk) as [Hh Hl].
  assert (Hhead : callback_unique_name <$> head path = name <$> head (to_graph_nodes h' gp)).
  { destruct path, (to_graph_nodes h' gp); try done. simpl in *. by injection Hp as -> _. }
  assert (Hlast : callback_unique_name <$> last path = name <$> last (to_graph_nodes h' gp)).
  { change (last (map callback_unique_name path) = last (map name (to_graph_nodes h' gp)))
      || (rewrite <- !fmap_last; change (last (map callback_unique_name path)
             = last (map name (to_graph_nodes h' gp)))).
    by rewrite Hp. }
  rewrite Hhead, Hlast, Hh, Hl. split; [|done].
  intros ->. rewrite Hh in Hhead. done.
Qed.

Lemma search_path_endpoints_witness :
  ∃ paths,
    CallbackPathSercher.search id 10 [] Samples.talker_listener
      "/talker/timer_callback_0" "/listener/subscription_callback_0" = Ok paths ∧
    length paths = 1 ∧
    ∀ path, path ∈ paths →
      path ≠ [] ∧
      id <$> head path = Some "/talker/timer_callback_0" ∧
      id <$> last path = Some "/listener/subscription_callback_0".
Proof.
  eexists. split; [vm_compute; reflexivity|]. split; [reflexivity|].
  apply (search_path_endpoints id 10 [] Samples.talker_listener).
  vm_compute. reflexivity.
Defined.
(** *** More recursion depth does not change a result *)

Lemma for_each_mono {A S : Type} (body1 body2 : A → S → result S) xs :
  (∀ x s r, body1 x s = Ok r → body2 x s = Ok r) →
  ∀ s r, for_each body1 xs s = Ok r → for_each body2 xs s = Ok r.
Proof.
  intros Hb. induction xs as [|x xs IH]; intros s r; simpl; [done|].
  destruct (body1 x s) as [s1|e] eqn:H1; simpl; [|done].
  rewrite (Hb _ _ _ H1). simpl. apply IH.
Qed.

Lemma visit_mono rec1 rec2 path branches branch st r :
  (∀ node p bs s r, rec1 node p bs s = Ok r → rec2 node p bs s = Ok r) →
  visit rec1 path branches branch st = Ok r → visit rec2 path branches branch st = Ok r.
Proof.
  intros Hrec. unfold visit. destruct st as [h ps].
  destruct (arrived _); [done|].
  destruct (deepcopy h branches) as [h1 bs_].
  destruct (next_equal _ _ _) as [b_|e]; simpl; [|done].
  destruct (deepcopy _ path) as [h3 p_]. apply Hrec.
Qed.

Lemma search_local_fuel_mono fuel fuel' dst node path branches st r :
  fuel ≤ fuel' →
  search_local fuel dst node path branches st = Ok r →
  search_local fuel' dst node path branches st = Ok r.
Proof.
  revert fuel' node path branches st r.
  induction fuel as [|fuel IH]; intros fuel' node path branches [h ps] r Hle; [done|].
  destruct fuel' as [|fuel']; [lia|]. simpl.
  apply for_each_mono. intros x s r'. apply visit_mono.
  intros ?????. apply IH. lia.
Qed.

(** *** C3: no empty path; a path reaching [dst] is recorded and the search goes on *)

(** C3.  [GraphSearcher.search(src, dst)] never returns a path of length 0,
    even when [src == dst], and it returns every walk from [src] to [dst]
    that uses no edge twice and whose edges have a branch not marked as
    arrived.  Whenever the search is at a node equal to [dst] with a
    non-empty path so far, that path is appended to the result and the
    branches leaving [dst] are still explored: every such walk from [dst]
    back to [dst] is returned, after the recorded path, as a strictly longer
    path that extends it. *)
Theorem search_no_empty_path_and_continues_past_dst
    (fuel : nat) (h : list GraphBranch) (branches : list nat) (src dst : GraphNode)
    (h' : list GraphBranch) (paths : list (list nat)) :
  valid h branches →
  search fuel h branches src dst = Ok (h', paths) →
  Forall (λ p, 0 < length p) paths ∧
  (∀ w, w ≠ [] → walk src w dst → no_edge_reuse w →
        (∀ b, b ∈ w → available h branches (edge b)) →
        ∃ p, p ∈ paths ∧ edges h' p = map edge w) ∧
  ∀ fuel1 path branches1 h1 ps h2 ps',
    valid h1 path → valid h1 branches1 → 0 < length path →
    search_local fuel1 dst dst path branches1 (h1, ps) = Ok (h2, ps') →
    ∃ more,
      ps' = ps ++ path :: more ∧
      Forall (λ p, length path < length p ∧
                   path_branches h1 path `prefix_of` path_branches h2 p) more ∧
      ∀ w, w ≠ [] → walk dst w dst → no_edge_reuse w →
           (∀ b, b ∈ w → available h1 branches1 (edge b)) →
           ∃ p, p ∈ more ∧ edges h2 p = edges h1 path ++ map edge w.
Proof.
  intros Hv Hs. split_and!.
  - apply graph_search_walks in Hs as [_ Hw]; [|done].
    eapply Forall_impl; [exact Hw|]. intros p (_ & Hne & _).
    unfold path_branches in Hne. destruct p; [done|]. simpl. lia.
  - intros w Hne Hwalk Hnd Havail.
    assert (Hav : ∀ e, e ∈ map edge w → available h branches e).
    { intros e He. apply list_elem_of_fmap in He as (b & -> & Hb). by apply Havail. }
    assert (Hlen : 0 < length (@nil nat) + length w).
    { destruct w; [done|]. simpl. lia. }
    assert (Hnil : valid h []) by constructor.
    destruct (search_local_complete dst fuel src [] branches h [] h' paths w
                Hnil Hv Hs Hwalk Hnd Hav Hlen)
      as (before & p & after & -> & _ & Hedges).
    exists p. split; [|done]. simpl. apply elem_of_app. right. by left.
  - intros fuel1 path branches1 h1 ps h2 ps' Hvp Hvb Hlen Hrun.
    pose proof (search_local_sound _ _ _ _ _ _ _ _ _ Hvp Hvb Hrun)
      as (_ & more & Hps' & Hm).
    assert (Hrec : recorded dst dst path = [path]).
    { unfold recorded. rewrite node_eq_refl. simpl.
      by replace (0 <? length path) with true by (symmetry; by apply Nat.ltb_lt). }
    rewrite Hrec in Hps'. exists more. split_and!; [done| |].
    + eapply Forall_impl; [exact Hm|]. intros p (w & (_ & Hb & _) & Hne). split.
      * apply (f_equal length) in Hb. unfold path_branches in Hb.
        rewrite length_app, !length_map in Hb. destruct w; [done|]. simpl in Hb. lia.
      * rewrite Hb. by apply prefix_app_r.
    + intros w Hne Hwalk Hnd Havail.
      assert (Hav : ∀ e, e ∈ map edge w → available h1 branches1 e).
      { intros e He. apply list_elem_of_fmap in He as (b & -> & Hb). by apply Havail. }
      assert (Hlen' : 0 < length path + length w) by lia.
      destruct (search_local_complete dst fuel1 dst path branches1 h1 ps h2 ps' w
                  Hvp Hvb Hrun Hwalk Hnd Hav Hlen')
        as (before & p & after & Heq & _ & Hedges).
      exists p. split; [|done].
      rewrite Hps' in Heq. apply app_inv_head in Heq.
      assert (Hlong : length p ≠ length path).
      { apply (f_equal length) in Hedges. unfold edges, path_branches in Hedges.
        rewrite length_app, !length_map in Hedges. destruct w; [done|].
        simpl in Hedges. lia. }
      assert (Hin : p ∈ path :: more).
      { change ([path] ++ more) with (path :: more) in Heq. rewrite Heq.
        apply elem_of_app. right. by left. }
      apply elem_of_cons in Hin as [->|Hin]; [done|done].
Qed.

Lemma search_no_empty_path_and_continues_past_dst_witness :
  (* search(A, A) on the cycle A→B→A returns the path [A→B, B→A] *)
  (∃ h' paths,
     search 3 Samples.cycle_store Samples.cycle_branches Samples.A Samples.A
     = Ok (h', paths) ∧
     Forall (λ p, 0 < length p) paths ∧
     ∃ p, p ∈ paths ∧ edges h' p = [(Samples.A, Samples.B); (Samples.B, Samples.A)]) ∧
  (* at A with the path so far [B→A]: recorded, and the walk A→B→A is still found *)
  (∃ h2 more,
     search_local 3 Samples.A Samples.A [1] Samples.cycle_branches (Samples.cycle_store, [])
     = Ok (h2, [1] :: more) ∧
     ∃ p, p ∈ more ∧ 1 < length p ∧
          edges h2 p = [(Samples.B, Samples.A); (Samples.A, Samples.B);
                        (Samples.B, Samples.A)]).
Proof.
  assert (Hvalid : valid Samples.cycle_store Samples.cycle_branches)
    by (repeat constructor).
  assert (Hwalk : walk Samples.A [new_branch Samples.A Samples.B;
                                  new_branch Samples.B Samples.A] Samples.A)
    by (repeat constructor).
  assert (Hnd : no_edge_reuse [new_branch Samples.A Samples.B;
                               new_branch Samples.B Samples.A]).
  { unfold no_edge_reuse. simpl. apply NoDup_cons. split; [|apply NoDup_singleton].
    by intros ?%list_elem_of_singleton. }
  assert (Havail : ∀ b, b ∈ [new_branch Samples.A Samples.B;
                             new_branch Samples.B Samples.A] →
                        available Samples.cycle_store Samples.cycle_branches (edge b)).
  { intros b Hb. apply elem_of_cons in Hb as [->|Hb];
      [exists 0; split_and!; [by left|done|done]|].
    apply list_elem_of_singleton in Hb as ->.
    exists 1. split_and!; [by right; left|done|done]. }
  destruct (search 3 Samples.cycle_store Samples.cycle_branches Samples.A Samples.A)
    as [[h' paths]|e] eqn:Hs; [|by vm_compute in Hs].
  destruct (search_local 3 Samples.A Samples.A [1] Samples.cycle_branches
              (Samples.cycle_store, [])) as [[h2 ps']|e] eqn:Hl; [|by vm_compute in Hl].
  destruct (search_no_empty_path_and_continues_past_dst 3
              Samples.cycle_store Samples.cycle_branches Samples.A Samples.A h' paths
              Hvalid Hs) as (Hne & Hall & Hcont).
  split.
  - exists h', paths. split_and!; [done|done|].
    by apply (Hall [new_branch Samples.A Samples.B; new_branch Samples.B Samples.A]).
  - destruct (Hcont 3 [1] Samples.cycle_branches Samples.cycle_store [] h2 ps')
      as (more & -> & Hlong & Hfound); [repeat constructor|done|simpl; lia|done|].
    exists h2, more. split; [done|].
    destruct (Hfound [new_branch Samples.A Samples.B; new_branch Samples.B Samples.A])
      as (p & Hp & Hedges); [done..|].
    exists p. split_and!; [done| |done].
    rewrite Forall_forall in Hlong. by destruct (Hlong p Hp).
Defined.

(** *** C2: a path can use two branches with the same end points *)

(** C2 (the code departs from it).  With two branch objects A→B and one
    B→A, [search(A, B)] returns the path [A→B, B→A, A→B]: the second A→B
    object is traversed although an A→B branch is already on the path,
    because the arrived mark is put on the first branch that compares equal
    to the traversed one, not on the traversed object. *)
Theorem search_reuses_edge_between_twin_branches (fuel : nat) :
  4 ≤ fuel →
  ∃ h' paths p,
    search fuel Samples.twin_store Samples.twin_branches Samples.A Samples.B
      = Ok (h', paths) ∧
    p ∈ paths ∧
    path_branches h' p = [new_branch Samples.A Samples.B;
                          new_branch Samples.B Samples.A;
                          new_branch Samples.A Samples.B] ∧
    ¬ no_edge_reuse (path_branches h' p).
Proof.
  intros Hfuel.
  destruct (search 4 Samples.twin_store Samples.twin_branches Samples.A Samples.B)
    as [[h' paths]|] eqn:Hs; [|by vm_compute in Hs].
  exists h', paths.
  pose proof Hs as Hs'. unfold search in Hs'.
  apply (search_local_fuel_mono 4 fuel) in Hs'; [|done].
  vm_compute in Hs. injection Hs as <- <-.
  eexists. split; [exact Hs'|]. split; [right; left|]. split; [reflexivity|].
  intros Hnd. vm_compute in Hnd. apply NoDup_cons in Hnd as [Hnotin _].
  apply Hnotin. right. left.
Qed.

Lemma search_reuses_edge_between_twin_branches_witness :
  ∃ h' paths p,
    search 1000 Samples.twin_store Samples.twin_branches Samples.A Samples.B
      = Ok (h', paths) ∧
    p ∈ paths ∧
    path_branches h' p = [new_branch Samples.A Samples.B;
                          new_branch Samples.B Samples.A;
                          new_branch Samples.A Samples.B] ∧
    ¬ no_edge_reuse (path_branches h' p).
Proof. apply (search_reuses_edge_between_twin_branches 1000). lia. Defined.

(** The same input reaches the search through [CallbackPathSercher]: two
    communications from callback "A" to callback "B" and one back. *)
Example twin_communications_path :
  ∃ paths, CallbackPathSercher.search id 10 [] Samples.twin_searcher "A" "B" = Ok paths ∧
           ["A"; "B"; "A"; "B"] ∈ paths.
Proof. eexists. split; [vm_compute; reflexivity|]. right; left. Qed.

(** Two branch objects A→A: the second one is never marked, and the search
    recurses until the recursion depth is used up. *)
Example twin_self_loops_diverge :
  search 50 [new_branch Samples.A Samples.A; new_branch Samples.A Samples.A] [0; 1]
    Samples.A Samples.A = Raise RecursionError.
Proof. vm_compute. reflexivity. Qed.

(** *** C10: the searcher's branches are not written *)

Lemma shifted_app h g : shifted (length h) (length g) h (h ++ g).
Proof.
  split_and!; [done|by rewrite length_app|]. intros l. unfold shift.
  destruct (Nat.ltb_spec l (length h)).
  - by rewrite lookup_app_l.
  - rewrite !lookup_ge_None_2; [done|lia|]. rewrite length_app. lia.
Qed.

Lemma shift_valid n k h ls : n = length h → valid h ls → map (shift n k) ls = ls.
Proof.
  intros -> Hv. rewrite <- (map_id ls) at 2. apply map_ext_Forall.
  eapply Forall_impl; [exact Hv|]. intros l Hl. simpl in Hl. unfold shift.
  by replace (l <? length h) with true by (symmetry; by apply Nat.ltb_lt).
Qed.

(** C10.  [search] leaves the branches of the searcher as they are: every
    object that existed before the call, in particular every branch of the
    list the searcher was built with, has the same contents after the call
    (the arrived flags that were False are still False), and a second call
    with the same arguments returns a list of paths equal to the first. *)
Theorem search_does_not_mutate_branches
    (fuel : nat) (h : list GraphBranch) (branches : list nat) (src dst : GraphNode)
    (h' : list GraphBranch) (paths : list (list nat)) :
  valid h branches →
  search fuel h branches src dst = Ok (h', paths) →
  h `prefix_of` h' ∧
  Forall (λ l, deref h' l = deref h l) branches ∧
  (Forall (λ l, arrived (deref h l) = false) branches →
   Forall (λ l, arrived (deref h' l) = false) branches) ∧
  ∃ h'' paths',
    search fuel h' branches src dst = Ok (h'', paths') ∧
    map (path_branches h'') paths' = map (path_branches h') paths ∧
    map (path_branches h'') paths = map (path_branches h') paths.
Proof.
  intros Hv Hs.
  pose proof (graph_search_walks _ _ _ _ _ _ _ Hv Hs) as [Hp Hw].
  assert (Hsame : Forall (λ l, deref h' l = deref h l) branches).
  { eapply Forall_impl; [exact Hv|]. intros l Hl. by apply deref_prefix. }
  split_and!; [done|done| |].
  { intros Hf. rewrite Forall_forall in *. intros l Hl.
    rewrite Hsame by done. by apply Hf. }
  destruct Hp as [g ->].
  pose proof (search_local_shift (length h) (length g) fuel dst src [] branches
                (h, []) (h ++ g, []) (conj (shifted_app h g) eq_refl)) as Hrel.
  unfold search in Hs. rewrite Hs in Hrel. simpl in Hrel.
  rewrite (shift_valid _ _ h) in Hrel by done.
  unfold search.
  destruct (search_local fuel dst src [] branches (h ++ g, [])) as [[h'' paths']|e] eqn:Hs2;
    [|done].
  destruct Hrel as [Hsh Heq]. simpl in Hsh, Heq. subst paths'.
  exists h'', (map (map (shift (length h) (length g))) paths).
  split; [done|]. split.
  - rewrite map_map. apply map_ext. intros p. unfold path_branches.
    rewrite map_map. apply map_ext. intros l. by apply shifted_deref.
  - apply map_ext_Forall. eapply Forall_impl; [exact Hw|]. intros p (Hvp & _).
    apply path_branches_prefix; [|done].
    assert (Hv' : valid (h ++ g) branches) by (eapply valid_prefix; [|done]; by eexists).
    by destruct (graph_search_walks _ _ _ _ _ _ _ Hv' Hs2).
Qed.

Lemma search_does_not_mutate_branches_witness :
  ∃ h' paths,
    search 3 Samples.cycle_store Samples.cycle_branches Samples.A Samples.A
      = Ok (h', paths) ∧
    Samples.cycle_store `prefix_of` h' ∧
    Forall (λ l, arrived (deref h' l) = false) Samples.cycle_branches ∧
    ∃ h'' paths',
      search 3 h' Samples.cycle_branches Samples.A Samples.A = Ok (h'', paths') ∧
      map (path_branches h'') paths' = map (path_branches h') paths.
Proof.
  destruct (search 3 Samples.cycle_store Samples.cycle_branches Samples.A Samples.A)
    as [[h' paths]|] eqn:Hs; [|by vm_compute in Hs].
  exists h', paths. split; [done|].
  destruct (search_does_not_mutate_branches 3 Samples.cycle_store
              Samples.cycle_branches Samples.A Samples.A h' paths)
    as (Hp & _ & Hf & h'' & paths' & Hs2 & Heq & _); [repeat constructor | exact Hs |].
  split; [done|]. split; [apply Hf; by repeat constructor|].
  by exists h'', paths'.
Defined.
(** ** lttng_info.py: PublisherBinder *)

Import Binder.

(** *** C5: can_bind *)

Lemma can_bind_heuristic_true (self : LttngInfo) (node_id : string) :
  can_bind_heuristic self node_id = true ↔
  ∃ cbg, callback_groups self node_id = [cbg] ∧
         CallbackGroupValueLttng.callback_group_type cbg ≠ REENTRANT.
Proof.
  unfold can_bind_heuristic. split.
  - destruct (callback_groups self node_id) as [|cbg [|??]]; try done.
    destruct (CallbackGroupValueLttng.callback_group_type cbg) eqn:Ht; [|done].
    intros _. exists cbg. by rewrite Ht.
  - intros (cbg & -> & Hne).
    by destruct (CallbackGroupValueLttng.callback_group_type cbg).
Qed.

(** C5.  [can_bind] returns true only if the callback groups of the node
    are exactly one group that is not reentrant; as shipped it returns
    false for every node (the heuristic after the early return is not
    reached), so the callbacks and publishers of every node are returned as
    loaded, without binding. *)
Theorem can_bind_is_disabled (self : LttngInfo) (node_id : string) :
  can_bind self node_id = false ∧
  (can_bind self node_id = true →
   ∃ cbg, callback_groups self node_id = [cbg] ∧
          CallbackGroupValueLttng.callback_group_type cbg ≠ REENTRANT) ∧
  _get_timer_callbacks self node_id = Ok (_get_timer_cbs_without_pub self node_id) ∧
  _get_subscription_callback_values self node_id
    = Ok (_get_sub_cbs_without_pub self node_id) ∧
  _get_publishers self node_id = Ok (get_publishers_without_cb_bind self node_id).
Proof. split_and!; done. Qed.

(** *** C6: _is_consistent *)

Lemma scan_records_contained_first t data :
  contained_first t data → scan_records t data = Some true.
Proof.
  intros (before & record & rest & -> & (s & e & Hs & He & Hlt) & Hb).
  induction before as [|r before IH]; simpl.
  - rewrite Hs, He.
    replace (s <? t)%Z with true by (symmetry; apply Z.ltb_lt; lia).
    by replace (t <? e)%Z with true by (symmetry; apply Z.ltb_lt; lia).
  - apply Forall_cons in Hb as [Hr Hb].
    destruct (get r "callback_start_timestamp") as [s'|] eqn:Hs'; [|by apply IH].
    destruct (get r "callback_end_timestamp") as [e'|] eqn:He'; [|by apply IH].
    destruct ((s' <? t)%Z && (t <? e')%Z); [done|].
    destruct ((s' >? t)%Z && (e' >? t)%Z) eqn:Hafter; [|by apply IH].
    exfalso. apply Hr. exists s', e'.
    apply andb_true_iff in Hafter as [H1 H2].
    apply Z.gtb_lt in H1, H2. done.
Qed.

Lemma scan_records_all_ended t data :
  Forall (ended_before t) data → scan_records t data = None.
Proof.
  induction 1 as [|r data Hr _ IH]; simpl; [done|].
  destruct (get r "callback_start_timestamp") as [s|] eqn:Hs; [|done].
  destruct (get r "callback_end_timestamp") as [e|] eqn:He; [|done].
  destruct (Hr s e Hs He) as [H1 H2].
  replace (t <? e)%Z with false by (symmetry; apply Z.ltb_ge; lia).
  replace (e >? t)%Z with false by (symmetry; rewrite Z.gtb_ltb; apply Z.ltb_ge; lia).
  by rewrite !andb_false_r.
Qed.

Lemma chronological_contained_first t data :
  StronglySorted by_start data →
  (∃ record, record ∈ data ∧ contains t record) →
  contained_first t data.
Proof.
  intros Hsorted (record & Hin & Hc).
  apply list_elem_of_split in Hin as (before & rest & ->).
  exists before, record, rest. split_and!; [done|done|].
  induction before as [|r before IH]; [done|].
  simpl in Hsorted. apply StronglySorted_inv in Hsorted as [Hs Hall].
  constructor; [|by apply IH].
  intros (s & e & Hst & _ & Hlt & _).
  destruct Hc as (s0 & e0 & Hst0 & _ & Hlt0 & _).
  rewrite Forall_forall in Hall.
  assert (Hin : record ∈ before ++ record :: rest) by set_solver.
  specialize (Hall record Hin s s0 Hst Hst0). lia.
Qed.

(** The scan is decided by the first record that contains the publish
    time or lies entirely after it.  For a pair with a defined publish time:
    if, in the record stream of the callback object (or, for a subscription
    callback, of its intra-process callback object), a record whose interval
    strictly contains the publish time comes before every record whose
    interval lies entirely after it, the result is true; if every interval
    of the callback has ended strictly before the publish time, the result
    is false. *)
Lemma is_consistent_by_first_deciding_interval
    (src : RecordsSource) (publisher_info : PublisherValueLttng.t)
    (callback_info : CallbackValueLttng) (publish_time : Z) :
  _get_publish_time src publisher_info = Some publish_time →
  (contained_first publish_time (inter_records src callback_info) ∨
   contained_first publish_time (intra_records src callback_info) →
   _is_consistent src publisher_info callback_info = true) ∧
  (Forall (ended_before publish_time) (inter_records src callback_info) →
   Forall (ended_before publish_time) (intra_records src callback_info) →
   _is_consistent src publisher_info callback_info = false).
Proof.
  intros Ht. unfold _is_consistent, _is_consistent_inter, _is_consistent_intra.
  rewrite Ht. fold (inter_records src callback_info). split.
  - intros [Hc|Hc].
    + by rewrite (scan_records_contained_first _ _ Hc).
    + destruct (scan_records publish_time (inter_records src callback_info))
        as [[|]|]; [done| |];
        (destruct callback_info as [cb|cb]; simpl in Hc;
         [by destruct Hc as ([|??] & ? & ? & ? & _)|];
         destruct (SubscriptionCallbackValueLttng.callback_object_intra cb);
         [by rewrite (scan_records_contained_first _ _ Hc)
         |by destruct Hc as ([|??] & ? & ? & ? & _)]).
  - intros Hi Ha. rewrite (scan_records_all_ended _ _ Hi).
    destruct callback_info as [cb|cb]; [done|]. simpl in Ha.
    destruct (SubscriptionCallbackValueLttng.callback_object_intra cb); [|done].
    by rewrite (scan_records_all_ended _ _ Ha).
Qed.

Lemma is_consistent_by_first_deciding_interval_witness :
  _is_consistent Samples.ordered_source (Samples.publisher "/t1" 100)
    (TimerCb (Samples.timer_cb "timer_callback_1" None 1)) = true ∧
  _is_consistent Samples.ordered_source (Samples.publisher "/t2" 200)
    (TimerCb (Samples.timer_cb "timer_callback_1" None 1)) = false.
Proof.
  split.
  - apply (is_consistent_by_first_deciding_interval Samples.ordered_source
             (Samples.publisher "/t1" 100) _ 12); [reflexivity|].
    left. exists [Samples.callback_record 1 1 5], (Samples.callback_record 1 10 20), [].
    split; [reflexivity|]. split.
    + exists 10%Z, 20%Z. split_and!; [reflexivity..|lia|lia].
    + constructor; [|constructor]. intros (s & e & Hs & He & Hlt & _).
      change (Some 1%Z = Some s) in Hs. injection Hs as <-. lia.
  - apply (is_consistent_by_first_deciding_interval Samples.ordered_source
             (Samples.publisher "/t2" 200) _ 50); [reflexivity| |].
    + change (inter_records _ _)
        with [Samples.callback_record 1 1 5; Samples.callback_record 1 10 20].
      constructor; [|constructor; [|constructor]]; intros s e Hs He;
        [change (Some 1%Z = Some s) in Hs; change (Some 5%Z = Some e) in He
        |change (Some 10%Z = Some s) in Hs; change (Some 20%Z = Some e) in He];
        injection Hs as <-; injection He as <-; lia.
    + constructor.
Defined.

Lemma StronglySorted_filter {A : Type} (R : A → A → Prop) (f : A → bool) (l : list A) :
  StronglySorted R l → StronglySorted R (List.filter f l).
Proof.
  induction 1 as [|x l Hl IH Hx]; simpl; [constructor|].
  destruct (f x); [|done]. constructor; [done|].
  apply Forall_forall. intros y Hy. rewrite Forall_forall in Hx. apply Hx.
  apply list_elem_of_In, filter_In in Hy as [Hy _]. by apply list_elem_of_In.
Qed.

Lemma inter_records_sorted src callback_info :
  StronglySorted by_start (callback_records src) →
  StronglySorted by_start (inter_records src callback_info).
Proof. apply StronglySorted_filter. Qed.

Lemma intra_records_sorted src callback_info :
  StronglySorted by_start (callback_records src) →
  StronglySorted by_start (intra_records src callback_info).
Proof.
  intros Hs. unfold intra_records. destruct callback_info as [cb|cb]; [constructor|].
  destruct (SubscriptionCallbackValueLttng.callback_object_intra cb); [|constructor].
  by apply StronglySorted_filter.
Qed.

(** C6.  For every (publisher, callback) pair with a defined publish time,
    the callback records being in trace order (ascending
    [callback_start_timestamp]): if the publish time lies strictly inside
    some recorded execution interval of the callback (of its callback
    object or, for a subscription callback, of its intra-process callback
    object), the result is true; if every recorded interval of the callback
    has ended strictly before the publish time, the result is false. *)
Theorem is_consistent_on_trace_ordered_records
    (src : RecordsSource) (publisher_info : PublisherValueLttng.t)
    (callback_info : CallbackValueLttng) (publish_time : Z) :
  _get_publish_time src publisher_info = Some publish_time →
  StronglySorted by_start (callback_records src) →
  ((∃ record,
      (record ∈ inter_records src callback_info ∨
       record ∈ intra_records src callback_info) ∧
      contains publish_time record) →
   _is_consistent src publisher_info callback_info = true) ∧
  (Forall (ended_before publish_time) (inter_records src callback_info) →
   Forall (ended_before publish_time) (intra_records src callback_info) →
   _is_consistent src publisher_info callback_info = false).
Proof.
  intros Ht Hsorted.
  destruct (is_consistent_by_first_deciding_interval src publisher_info callback_info
              publish_time Ht) as [Htrue Hfalse].
  split; [|done].
  intros (record & [Hin|Hin] & Hc); apply Htrue; [left|right];
    (apply chronological_contained_first;
     [by first [apply inter_records_sorted|apply intra_records_sorted]|by exists record]).
Qed.

Lemma is_consistent_on_trace_ordered_records_witness :
  _is_consistent Samples.ordered_source (Samples.publisher "/t1" 100)
    (TimerCb (Samples.timer_cb "timer_callback_1" None 1)) = true ∧
  _is_consistent Samples.ordered_source (Samples.publisher "/t2" 200)
    (TimerCb (Samples.timer_cb "timer_callback_1" None 1)) = false.
Proof.
  assert (Hsorted : StronglySorted by_start (callback_records Samples.ordered_source)).
  { change (callback_records Samples.ordered_source)
      with [Samples.callback_record 1 1 5; Samples.callback_record 1 10 20].
    constructor; [constructor; [constructor|constructor]|].
    constructor; [|constructor]. intros s1 s2 H1 H2.
    change (Some 1%Z = Some s1) in H1. change (Some 10%Z = Some s2) in H2.
    injection H1 as <-. injection H2 as <-. lia. }
  split.
  - apply (is_consistent_on_trace_ordered_records Samples.ordered_source
             (Samples.publisher "/t1" 100) _ 12); [reflexivity|done|].
    exists (Samples.callback_record 1 10 20). split.
    + left.
      change (inter_records _ _)
        with [Samples.callback_record 1 1 5; Samples.callback_record 1 10 20].
      apply elem_of_cons. right. apply elem_of_cons. by left.
    + exists 10%Z, 20%Z. split_and!; [reflexivity..|lia|lia].
  - apply (is_consistent_on_trace_ordered_records Samples.ordered_source
             (Samples.publisher "/t2" 200) _ 50); [reflexivity|done| |].
    + change (inter_records _ _)
        with [Samples.callback_record 1 1 5; Samples.callback_record 1 10 20].
      constructor; [|constructor; [|constructor]]; intros s e Hs He;
        [change (Some 1%Z = Some s) in Hs; change (Some 5%Z = Some e) in He
        |change (Some 10%Z = Some s) in Hs; change (Some 20%Z = Some e) in He];
        injection Hs as <-; injection He as <-; lia.
    + constructor.
Defined.

(** The order of the records matters.  In a stream that is not in trace
    order the publish time 3 lies strictly inside the recorded interval
    (1, 5) of the callback and the result is false, because the interval
    (10, 20) is met first and lies entirely after 3. *)
Example is_consistent_rejects_contained_publish_time :
  _get_publish_time Samples.unordered_source (Samples.publisher "/t1" 100) = Some 3%Z ∧
  (∃ record,
     record ∈ inter_records Samples.unordered_source
                (TimerCb (Samples.timer_cb "timer_callback_1" None 1)) ∧
     contains 3 record) ∧
  _is_consistent Samples.unordered_source (Samples.publisher "/t1" 100)
    (TimerCb (Samples.timer_cb "timer_callback_1" None 1)) = false.
Proof.
  split; [reflexivity|]. split; [|reflexivity].
  exists (Samples.callback_record 1 1 5). split.
  - change (inter_records _ _)
      with [Samples.callback_record 1 10 20; Samples.callback_record 1 1 5].
    apply elem_of_cons. right. apply elem_of_cons. by left.
  - exists 1%Z, 5%Z. split_and!; [reflexivity..|lia|lia].
Qed.
(** *** C4: one binder pass *)

(** The loop over [product(publishers, callbacks)] ends at the first
    consistent pair: whatever the pairs, the pass writes at most one
    position of the callback list. *)
Lemma bind_first_sub_writes_once src it callback_list callback_list' :
  bind_first_sub src it callback_list = Ok callback_list' →
  callback_list' = callback_list ∨
  ∃ publisher cb_info i,
    (publisher, cb_info) ∈ it ∧
    _is_consistent src publisher (SubCb cb_info) = true ∧
    callback_list !! i = Some cb_info ∧
    ∃ bound, callback_list' = <[i := bound]> callback_list ∧
      SubscriptionCallbackValueLttng.publish_topic_names bound
      = Some (PublisherValueLttng.topic_name publisher ::
              default [] (SubscriptionCallbackValueLttng.publish_topic_names cb_info)).
Proof.
  induction it as [|[publisher cb_info] it IH]; simpl.
  - intros [= <-]. by left.
  - destruct (_is_consistent src publisher (SubCb cb_info)) eqn:Hc; simpl.
    + unfold _update_sub_cb_publish_topics.
      destruct (index cb_info callback_list) as [i|e] eqn:Hi; simpl; [|done].
      intros [= <-]. right. exists publisher, cb_info, i.
      split_and!; [by left|done| |].
      * clear -Hi. revert i Hi. induction callback_list as [|y l IHl]; intros i; simpl; [done|].
        destruct (decide (y = cb_info)) as [->|Hne]; [by intros [= <-]|].
        destruct (index cb_info l) as [j|e]; simpl; [|done].
        intros [= <-]. simpl. by apply IHl.
      * eexists. split; [done|]. simpl.
        by destruct (SubscriptionCallbackValueLttng.publish_topic_names cb_info).
    + intros H. destruct (IH H) as [->|(p & c & i & Hin & Hrest)]; [by left|].
      right. exists p, c, i. split; [by right|done].
Qed.

(** C4 (the code departs from it).  Callback 1 is consistent with publisher
    "/t1" and callback 2 with publisher "/t2"; one call of
    [bind_pub_topics_and_sub_cbs] binds "/t1" to callback 1 and leaves
    callback 2 with the empty tuple, because [break] leaves the loop over all
    (publisher, callback) pairs at the first consistent pair. *)
Theorem bind_pass_stops_at_first_consistent_pair :
  bind_pub_topics_and_sub_cbs Samples.two_pairs_info "/node_1"
    [Samples.sub_cb "subscription_callback_1" "/in1" None 1;
     Samples.sub_cb "subscription_callback_2" "/in2" None 2]
  = Ok [Samples.sub_cb "subscription_callback_1" "/in1" (Some ["/t1"]) 1;
        Samples.sub_cb "subscription_callback_2" "/in2" (Some []) 2] ∧
  _is_consistent Samples.two_pairs_source (Samples.publisher "/t2" 200)
    (SubCb (Samples.sub_cb "subscription_callback_2" "/in2" (Some []) 2)) = true ∧
  _is_consistent Samples.two_pairs_source (Samples.publisher "/t1" 100)
    (SubCb (Samples.sub_cb "subscription_callback_2" "/in2" (Some []) 2)) = false.
Proof. split_and!; vm_compute; reflexivity. Qed.

(** The timer pass on the same node: the callbacks as loaded have
    [publish_topic_names=None], the list searched by [index] holds them with
    the empty tuple, and the first consistent pair raises [ValueError]. *)
Example bind_timer_pass_as_loaded :
  bind_pub_topics_and_timer_cbs Samples.two_pairs_info "/node_1"
    [Samples.timer_cb "timer_callback_1" None 1;
     Samples.timer_cb "timer_callback_2" None 2]
  = Raise ValueError.
Proof. vm_compute. reflexivity. Qed.

(** With the empty tuple already in place the timer pass binds callback 1
    and, as the subscription pass, nothing else. *)
Example bind_timer_pass_one_binding :
  bind_pub_topics_and_timer_cbs Samples.two_pairs_info "/node_1"
    [Samples.timer_cb "timer_callback_1" (Some []) 1;
     Samples.timer_cb "timer_callback_2" (Some []) 2]
  = Ok [Samples.timer_cb "timer_callback_1" (Some ["/t1"]) 1;
        Samples.timer_cb "timer_callback_2" (Some []) 2].
Proof. vm_compute. reflexivity. Qed.
(** ** lttng_info.py: DataFrameFormatted *)

(** *** C7: one row per callback group *)

Section cbg.
Local Abbreviation Row := (gmap string Tables.Value).

Lemma labelled_from_fst i (rows : list Row) :
  map fst (Tables.labelled_from i rows) = seq i (length rows).
Proof.
  revert i. induction rows as [|r rows IH]; intros i; simpl; [done|]. by rewrite IH.
Qed.

Lemma drop_duplicates_from_elem seen (l : list (nat * Row)) x :
  x ∈ Tables.drop_duplicates_from seen l → x ∈ l.
Proof.
  revert seen. induction l as [|[i r] l IH]; intros seen; simpl; [done|].
  case_bool_decide.
  - intros ?%IH. by right.
  - intros [->|?%IH]%elem_of_cons; [left|by right].
Qed.

Lemma drop_duplicates_from_NoDup seen (l : list (nat * Row)) :
  NoDup (map fst l) → NoDup (map fst (Tables.drop_duplicates_from seen l)).
Proof.
  revert seen. induction l as [|[i r] l IH]; intros seen; simpl; [done|].
  intros [Hi Hl]%NoDup_cons. case_bool_decide; [by apply IH|].
  simpl. apply NoDup_cons. split; [|by apply IH].
  intros Hin. apply Hi.
  apply list_elem_of_In, in_map_iff in Hin as ([j r'] & Hj & Hin). simpl in Hj. subst j.
  apply list_elem_of_In, drop_duplicates_from_elem in Hin.
  apply list_elem_of_In, in_map_iff. exists (i, r'). split; [done|].
  by apply list_elem_of_In.
Qed.

Lemma drop_duplicates_labels (rows : list Row) :
  NoDup (map fst (Tables.drop_duplicates (Tables.labelled rows))).
Proof.
  apply drop_duplicates_from_NoDup. unfold Tables.labelled.
  rewrite labelled_from_fst. apply NoDup_seq.
Qed.

(** Every row of the table, and nothing else, is among its distinct rows. *)
Lemma distinct_rows_elem (rows : list Row) r :
  r ∈ Tables.distinct_rows rows ↔ r ∈ rows.
Proof.
  unfold Tables.distinct_rows, Tables.drop_duplicates, Tables.labelled, Tables.unlabelled.
  assert (H : ∀ seen i,
    r ∈ map snd (Tables.drop_duplicates_from seen (Tables.labelled_from i rows))
    ↔ r ∈ rows ∧ r ∉ seen).
  { induction rows as [|r0 rows IH]; intros seen i; simpl.
    - split; [by intros ?%elem_of_nil|by intros [?%elem_of_nil _]].
    - case_bool_decide as Hs.
      + rewrite IH, elem_of_cons. split; [intros [? ?]; by split; [right|]|].
        intros [[->|?] ?]; done.
      + simpl. rewrite !elem_of_cons, IH, elem_of_cons.
        destruct (decide (r = r0)) as [->|Hne].
        * split; [intros _; by split; [left|]|intros _; by left].
        * split.
          -- intros [?|[? Hn]]; [done|]. split; [by right|].
             intros ?. apply Hn. by right.
          -- intros [[?|?] Hn]; [done|]. right. split; [done|].
             intros [?|?]; done. }
  rewrite H. split; [by intros [? _]|]. intros ?. split; [done|]. apply not_elem_of_nil.
Qed.

Lemma group_keys_from_elem seen column (rows : list Row) key :
  key ≠ Tables.NaN → key ∉ seen →
  (∃ r, r ∈ rows ∧ Tables.cell r column = key) →
  key ∈ Tables.group_keys_from seen column rows.
Proof.
  intros Hnan. revert seen.
  induction rows as [|r0 rows IH]; intros seen Hseen (r & Hin & Hr).
  - by apply elem_of_nil in Hin.
  - simpl. destruct (decide (Tables.cell r0 column = key)) as [Heq|Hne].
    + rewrite Heq. rewrite bool_decide_eq_false_2 by done.
      rewrite bool_decide_eq_false_2 by done. simpl. left.
    + apply elem_of_cons in Hin as [->|Hin]; [done|].
      destruct (_ || _).
      * apply IH; [done|]. by exists r.
      * right. apply IH; [|by exists r].
        intros [?|?]%elem_of_cons; done.
Qed.

Lemma filter_map_snd {X Y : Type} (f : Y → bool) (l : list (X * Y)) :
  List.filter f (map snd l) = map snd (List.filter (λ x, f x.2) l).
Proof.
  induction l as [|[a b] l IH]; simpl; [done|]. destruct (f b); simpl; by rewrite IH.
Qed.

Lemma filter_comm {X : Type} (f g : X → bool) (l : list X) :
  List.filter f (List.filter g l) = List.filter g (List.filter f l).
Proof.
  induction l as [|a l IH]; simpl; [done|].
  destruct (f a) eqn:Hf, (g a) eqn:Hg; simpl; rewrite ?Hf, ?Hg, ?IH; done.
Qed.

Lemma removelast_In {X : Type} (l : list X) x : In x (removelast l) → In x l.
Proof.
  induction l as [|a [|b l] IH]; simpl in *; [done|done|].
  intros [->|?]; [by left|right; by apply IH].
Qed.

Lemma filter_none {X : Type} (f : X → bool) (l : list X) :
  (∀ x, In x l → f x = false) → List.filter f l = [].
Proof.
  induction l as [|a l IH]; intros H; simpl; [done|].
  rewrite (H a) by by left. apply IH. intros x Hx. apply H. by right.
Qed.

(** Of a list with distinct labels, dropping the labels of all elements
    but the last leaves the last element. *)
Lemma filter_not_removelast (G : list (nat * Row)) :
  NoDup (map fst G) →
  List.filter (λ x, negb (bool_decide (x.1 ∈ removelast (map fst G)))) G
  = option_list (last G).
Proof.
  destruct (decide (G = [])) as [->|Hne]; [done|].
  destruct (proj2 (last_is_Some G) Hne) as [z Hz]. rewrite Hz.
  apply last_Some in Hz as [G' ->]. intros Hnd.
  rewrite map_app in *. simpl in *. rewrite removelast_last.
  apply NoDup_app in Hnd as (_ & Hdisj & _).
  rewrite List.filter_app. simpl.
  rewrite bool_decide_eq_false_2; last first.
  { intros Hin. eapply Hdisj; [exact Hin|]. left. }
  simpl. rewrite filter_none; [done|]. intros x Hx.
  rewrite bool_decide_eq_true_2; [done|].
  apply list_elem_of_In, in_map. done.
Qed.

Lemma group_of_drop_index addr (L : list (nat * Row)) :
  addr ≠ Tables.NaN →
  NoDup (map fst L) →
  Tables.group_of addr (Tables.drop_index (Tables.executor_duplicated_indexes L) L)
  = option_list (last (Tables.group_of addr L)).
Proof.
  intros Hnan Hnd. unfold Tables.drop_index, Tables.group_of at 1.
  rewrite filter_comm. fold (Tables.group_of addr L).
  set (G := Tables.group_of addr L).
  assert (HG : NoDup (map fst G)).
  { clear -Hnd. subst G. unfold Tables.group_of.
    induction L as [|[i r] L IH]; simpl in *; [done|].
    apply NoDup_cons in Hnd as [Hi HL]. destruct (Tables.in_group _ _ _); [|by apply IH].
    simpl. apply NoDup_cons. split; [|by apply IH].
    intros Hin. apply Hi.
    apply list_elem_of_In, in_map_iff in Hin as ([j r'] & Hj & Hin). simpl in Hj. subst j.
    apply filter_In in Hin as [Hin _].
    apply list_elem_of_In, in_map_iff. by exists (i, r'). }
  rewrite <- (filter_not_removelast G HG).
  apply filter_ext_in. intros x Hx. f_equal. apply bool_decide_ext.
  assert (HxL : In x L ∧ Tables.cell x.2 "callback_group_addr" = addr).
  { subst G. unfold Tables.group_of in Hx. apply filter_In in Hx as [? Hg].
    split; [done|]. unfold Tables.in_group in Hg. by apply bool_decide_eq_true in Hg. }
  destruct HxL as [HxL Hxa].
  unfold Tables.executor_duplicated_indexes. rewrite !list_elem_of_In, in_flat_map.
  split.
  - intros (key & _ & Hin). destruct (_ <=? _); [|done].
    assert (key = addr) as ->; [|done].
    apply removelast_In in Hin.
    apply in_map_iff in Hin as (y & Hy & Hin).
    unfold Tables.group_of in Hin. apply filter_In in Hin as [HyL Hg].
    unfold Tables.in_group in Hg. apply bool_decide_eq_true in Hg.
    assert (y = x) as ->; [|by rewrite <- Hg, Hxa].
    clear -Hnd HyL HxL Hy. induction L as [|z L IH]; [done|]. simpl in *.
    apply NoDup_cons in Hnd as [Hz HL].
    destruct HyL as [->|HyL], HxL as [->|HxL]; [done| | |by apply IH].
    + exfalso. apply Hz. rewrite Hy. apply list_elem_of_In, in_map. done.
    + exfalso. apply Hz. rewrite <- Hy. apply list_elem_of_In, in_map. done.
  - intros Hin. exists addr. split.
    + apply list_elem_of_In, group_keys_from_elem; [done|apply not_elem_of_nil|].
      exists x.2. split; [|done]. unfold Tables.unlabelled.
      apply list_elem_of_In, in_map. done.
    + fold G. destruct (Nat.leb_spec 2 (length G)); [done|].
      destruct G as [|? [|??]]; simpl in *; try done; lia.
Qed.
End cbg.
Section cbg_theorems.
Local Abbreviation Row := (gmap string Tables.Value).

Lemma drop_index_nil (L : list (nat * Row)) : Tables.drop_index [] L = L.
Proof.
  unfold Tables.drop_index. induction L as [|x L IH]; [done|].
  cbn [List.filter]. rewrite bool_decide_eq_false_2 by apply not_elem_of_nil.
  cbn [negb]. by rewrite IH.
Qed.

Lemma last_map {X Y : Type} (f : X → Y) (l : list X) :
  last (map f l) = f <$> last l.
Proof.
  induction l as [|a [|b l] IH]; [done|done|].
  change (map f (a :: b :: l)) with (f a :: map f (b :: l)).
  by rewrite !last_cons_cons.
Qed.

Lemma resolve_executors_group (rows : list Row) addr :
  addr ≠ Tables.NaN →
  Tables.rows_of_group addr (Tables.resolve_executors rows).1
  = option_list (last (Tables.rows_of_group addr (Tables.distinct_rows rows))).
Proof.
  intros Hnan. unfold Tables.resolve_executors, Tables.distinct_rows.
  cbv zeta. cbn [fst].
  set (L := Tables.drop_duplicates (Tables.labelled rows)).
  assert (Hcase :
    (if 1 <=? length (Tables.executor_duplicated_indexes L)
     then Tables.drop_index (Tables.executor_duplicated_indexes L) L else L)
    = Tables.drop_index (Tables.executor_duplicated_indexes L) L).
  { destruct (Tables.executor_duplicated_indexes L); [|done].
    simpl. by rewrite drop_index_nil. }
  rewrite Hcase. unfold Tables.rows_of_group, Tables.unlabelled.
  rewrite !filter_map_snd.
  change (List.filter (λ x, Tables.in_group "callback_group_addr" addr x.2) ?l)
    with (Tables.group_of addr l).
  rewrite group_of_drop_index; [|done|apply drop_duplicates_labels].
  rewrite last_map. by destruct (last _).
Qed.

Lemma resolve_executors_warning (rows : list Row) addr :
  addr ≠ Tables.NaN →
  2 ≤ length (Tables.rows_of_group addr (Tables.distinct_rows rows)) →
  map (λ r, Tables.cell r "executor_addr")
      (Tables.rows_of_group addr (Tables.distinct_rows rows))
  ∈ (Tables.resolve_executors rows).2.
Proof.
  intros Hnan Hlen. unfold Tables.resolve_executors. cbv zeta. cbn [snd].
  unfold Tables.distinct_rows, Tables.rows_of_group, Tables.unlabelled in *.
  set (L := Tables.drop_duplicates (Tables.labelled rows)) in *.
  rewrite filter_map_snd in *.
  change (List.filter (λ x, Tables.in_group "callback_group_addr" addr x.2) L)
    with (Tables.group_of addr L) in *.
  rewrite length_map in Hlen. rewrite map_map.
  unfold Tables.executor_warnings. apply list_elem_of_In, in_flat_map.
  exists addr. split.
  - apply list_elem_of_In, group_keys_from_elem; [done|apply not_elem_of_nil|].
    destruct (Tables.group_of addr L) as [|x G] eqn:HG; [simpl in Hlen; lia|].
    assert (Hx : In x (Tables.group_of addr L)) by (rewrite HG; by left).
    unfold Tables.group_of in Hx. apply filter_In in Hx as [Hx Hg].
    exists x.2. split.
    + unfold Tables.unlabelled. by apply list_elem_of_In, in_map.
    + unfold Tables.in_group in Hg. by apply bool_decide_eq_true in Hg.
  - destruct (Nat.leb_spec 2 (length (Tables.group_of addr L))); [by left|lia].
Qed.

Lemma two_distinct_elements {X : Type} (l : list X) x y :
  x ∈ l → y ∈ l → x ≠ y → 2 ≤ length l.
Proof.
  destruct l as [|a [|b l]]; simpl; [by intros ?%elem_of_nil| |lia].
  intros ->%list_elem_of_singleton ->%list_elem_of_singleton. done.
Qed.
End cbg_theorems.

(** X17.  In the table built by [_build_cbg_df] every
    callback group address is in at most one row, and in exactly one when
    the raw table has a row for it.  The row retained for a group is the
    last of the group's distinct rows, taken in the order in which each is
    first seen; the other rows of the group are dropped, and when the group
    has two distinct rows or more (as when the raw rows bind it to more than
    one executor) a warning with their executors is logged. *)
Theorem cbg_df_one_row_per_group
    (data : Tables.Ros2DataModel) (df : Tables.DataFrame)
    (warnings : list (list Tables.Value)) :
  Tables._build_cbg_df data = Ok (df, warnings) →
  ∃ raw, Tables.cbg_rows data = Ok raw ∧
    ∀ addr, addr ≠ Tables.NaN →
      let group := Tables.rows_of_group addr (Tables.distinct_rows (Tables.rows raw)) in
      Tables.rows_of_group addr (Tables.rows df) = option_list (last group) ∧
      length (Tables.rows_of_group addr (Tables.rows df)) ≤ 1 ∧
      ((∃ r, r ∈ Tables.rows raw ∧ Tables.cell r "callback_group_addr" = addr) →
       length (Tables.rows_of_group addr (Tables.rows df)) = 1) ∧
      (∀ r1 r2, r1 ∈ Tables.rows raw → r2 ∈ Tables.rows raw →
                Tables.cell r1 "callback_group_addr" = addr →
                Tables.cell r2 "callback_group_addr" = addr →
                Tables.cell r1 "executor_addr" ≠ Tables.cell r2 "executor_addr" →
                2 ≤ length group) ∧
      (2 ≤ length group →
       map (λ r, Tables.cell r "executor_addr") group ∈ warnings).
Proof.
  unfold Tables._build_cbg_df.
  destruct (Tables.cbg_rows data) as [raw|e]; [|done].
  change (Ok raw ≫= ?f) with (f raw). cbv beta.
  destruct (Tables.resolve_executors (Tables.rows raw)) as [rows' warnings'] eqn:Hres.
  intros [= <- <-]. exists raw. split; [done|]. intros addr Hnan. cbv zeta.
  cbn [Tables.rows].
  set (group := Tables.rows_of_group addr (Tables.distinct_rows (Tables.rows raw))).
  pose proof (resolve_executors_group (Tables.rows raw) addr Hnan) as Hg.
  pose proof (resolve_executors_warning (Tables.rows raw) addr Hnan) as Hw.
  rewrite Hres in Hg, Hw. simpl in Hg, Hw. fold group in Hg, Hw.
  assert (Hin : ∀ r, r ∈ Tables.rows raw →
                     Tables.cell r "callback_group_addr" = addr → r ∈ group).
  { intros r Hr Ha. subst group. unfold Tables.rows_of_group.
    apply list_elem_of_In, filter_In. split.
    - by apply list_elem_of_In, distinct_rows_elem.
    - unfold Tables.in_group. by apply bool_decide_eq_true. }
  split_and!; [done| | | |done].
  - rewrite Hg. destruct (last group); simpl; lia.
  - intros (r & Hr & Ha). rewrite Hg.
    destruct (last group) eqn:Hl; [done|].
    apply last_None in Hl. specialize (Hin r Hr Ha). rewrite Hl in Hin.
    by apply elem_of_nil in Hin.
  - intros r1 r2 H1 H2 Ha1 Ha2 Hne.
    apply (two_distinct_elements group r1 r2); [by apply Hin..|].
    intros ->. done.
Qed.

Lemma cbg_df_one_row_per_group_witness :
  ∃ df warnings,
    Tables._build_cbg_df Samples.regrouped_model = Ok (df, warnings) ∧
    map (λ r, Tables.cell r "executor_addr")
        (Tables.rows_of_group (Tables.VInt 7) (Tables.rows df)) = [Tables.VInt 2] ∧
    length (Tables.rows_of_group (Tables.VInt 8) (Tables.rows df)) = 1 ∧
    [Tables.VInt 1; Tables.VInt 2] ∈ warnings.
Proof.
  destruct (Tables._build_cbg_df Samples.regrouped_model) as [[df warnings]|e] eqn:Hb.
  2: { exfalso.
       assert (Hok : match Tables._build_cbg_df Samples.regrouped_model with
                     | Ok _ => True | Raise _ => False end) by (vm_compute; exact I).
       by rewrite Hb in Hok. }
  exists df, warnings. split; [done|].
  destruct (cbg_df_one_row_per_group _ _ _ Hb) as (raw & Hraw & Hgroups).
  assert (Hgroup7 :
    match Tables.cbg_rows Samples.regrouped_model with
    | Ok raw => map (λ r, Tables.cell r "executor_addr")
                  (Tables.rows_of_group (Tables.VInt 7)
                     (Tables.distinct_rows (Tables.rows raw)))
    | Raise _ => []
    end = [Tables.VInt 1; Tables.VInt 2]) by (vm_compute; reflexivity).
  assert (Hlast7 :
    match Tables.cbg_rows Samples.regrouped_model with
    | Ok raw => map (λ r, Tables.cell r "executor_addr")
                  (option_list (last (Tables.rows_of_group (Tables.VInt 7)
                     (Tables.distinct_rows (Tables.rows raw)))))
    | Raise _ => []
    end = [Tables.VInt 2]) by (vm_compute; reflexivity).
  assert (Hrow8 :
    match Tables.cbg_rows Samples.regrouped_model with
    | Ok raw => bool_decide (Exists (λ r, Tables.cell r "callback_group_addr" = Tables.VInt 8)
                               (Tables.rows raw))
    | Raise _ => false
    end = true) by (vm_compute; reflexivity).
  rewrite Hraw in Hgroup7, Hlast7, Hrow8.
  destruct (Hgroups (Tables.VInt 7)) as (H7 & _ & _ & _ & Hw); [done|].
  destruct (Hgroups (Tables.VInt 8)) as (_ & _ & H8 & _); [done|].
  split_and!.
  - by rewrite H7.
  - apply H8. apply bool_decide_eq_true in Hrow8. by apply Exists_exists in Hrow8.
  - rewrite <- Hgroup7. apply Hw.
    rewrite <- (length_map (λ r, Tables.cell r "executor_addr")), Hgroup7. simpl. lia.
Defined.

(** C7 (the code departs from it).  Group 7 is observed with executor 1,
    then with executor 2, then with executor 1 again.  The table built by
    [_build_cbg_df] has one row for the group, but it binds the group to
    executor 2, not to the executor of the last observed row: the selection
    [df[columns]] drops the timestamp, [drop_duplicates] keeps the first of
    the two rows with executor 1, and the last of the remaining rows is the
    one with executor 2. *)
Theorem cbg_df_drops_last_observed_row :
  ∃ df warnings raw,
    Tables._build_cbg_df Samples.regrouped_model = Ok (df, warnings) ∧
    Tables.cbg_rows Samples.regrouped_model = Ok raw ∧
    (λ r, Tables.cell r "executor_addr")
      <$> last (Tables.rows_of_group (Tables.VInt 7) (Tables.rows raw))
    = Some (Tables.VInt 1) ∧
    map (λ r, Tables.cell r "executor_addr")
        (Tables.rows_of_group (Tables.VInt 7) (Tables.rows df)) = [Tables.VInt 2].
Proof.
  assert (Hobserved :
    match Tables.cbg_rows Samples.regrouped_model with
    | Ok raw => (λ r, Tables.cell r "executor_addr")
                  <$> last (Tables.rows_of_group (Tables.VInt 7) (Tables.rows raw))
    | Raise _ => None
    end = Some (Tables.VInt 1)) by (vm_compute; reflexivity).
  assert (Hretained :
    match Tables._build_cbg_df Samples.regrouped_model with
    | Ok (df, _) => map (λ r, Tables.cell r "executor_addr")
                      (Tables.rows_of_group (Tables.VInt 7) (Tables.rows df))
    | Raise _ => []
    end = [Tables.VInt 2]) by (vm_compute; reflexivity).
  destruct (Tables._build_cbg_df Samples.regrouped_model) as [[df warnings]|e];
    [|done].
  destruct (Tables.cbg_rows Samples.regrouped_model) as [raw|e]; [|done].
  by exists df, warnings, raw.
Qed.
(** *** C8: a missing join key gives an empty family *)

Section only_KeyError.
Lemma only_KeyError_Ok {A : Type} (a : A) : only_KeyError (Ok a).
Proof. by intros e. Qed.

Lemma only_KeyError_Raise {A : Type} : only_KeyError (A := A) (Raise KeyError).
Proof. by intros e [= <-]. Qed.

Lemma only_KeyError_bind {A B : Type} (m : result A) (f : A → result B) :
  only_KeyError m → (∀ a, only_KeyError (f a)) → only_KeyError (m ≫= f).
Proof.
  intros Hm Hf e. destruct m as [a|e']; simpl.
  - apply Hf.
  - intros [= <-]. by apply Hm.
Qed.

Lemma only_KeyError_mapM {A B : Type} (f : A → result B) xs :
  (∀ x, only_KeyError (f x)) → only_KeyError (mapM f xs).
Proof.
  intros Hf. induction xs as [|x xs IH]; simpl; [apply only_KeyError_Ok|].
  apply only_KeyError_bind; [done|]. intros y.
  apply only_KeyError_bind; [done|]. intros ys. apply only_KeyError_Ok.
Qed.

Lemma except_KeyError_returns {A : Type} (body : result A) (default : A) :
  only_KeyError body →
  ∃ a, except_KeyError body default = Ok a ∧
       (body = Raise KeyError → a = default) ∧
       (∀ b, body = Ok b → a = b).
Proof.
  intros Hb. destruct body as [b|e].
  - exists b. split_and!; [done|done|by intros ? [= ->]].
  - rewrite (Hb e eq_refl). exists default. done.
Qed.

Lemma except_KeyError_not_KeyError {A : Type} (body : result A) (default : A) :
  except_KeyError body default ≠ Raise KeyError.
Proof. by destruct body as [|[]]. Qed.
End only_KeyError.

Section tables.
Import Tables.

Lemma row_getitem_only cols row column : only_KeyError (row_getitem cols row column).
Proof. unfold row_getitem. by destruct (has_column _ _); intros e; [|intros [= <-]]. Qed.

Lemma getitem_only df cols : only_KeyError (getitem df cols).
Proof. unfold getitem. by destruct (has_columns _ _); intros e; [|intros [= <-]]. Qed.

Lemma pd_merge_only l r key : only_KeyError (pd_merge l r key).
Proof. unfold pd_merge. by destruct (_ && _); intros e; [|intros [= <-]]. Qed.

Lemma merge_only l r key : only_KeyError (merge l r key).
Proof. apply pd_merge_only. Qed.

Lemma prefixed_only prefix column cols row : only_KeyError (prefixed prefix column cols row).
Proof.
  unfold prefixed. apply only_KeyError_bind; [apply row_getitem_only|].
  intros v. apply only_KeyError_Ok.
Qed.

Lemma _add_column_only df name rule :
  (∀ cols row, only_KeyError (rule cols row)) → only_KeyError (_add_column df name rule).
Proof.
  intros Hr. unfold _add_column. apply only_KeyError_bind.
  - apply only_KeyError_mapM. intros row.
    apply only_KeyError_bind; [apply Hr|]. intros v. apply only_KeyError_Ok.
  - intros rows'. apply only_KeyError_Ok.
Qed.

Lemma timer_callbacks_body_only data : only_KeyError (timer_callbacks_body data).
Proof.
  unfold timer_callbacks_body.
  repeat (apply only_KeyError_bind; [first [apply merge_only
    | apply _add_column_only; intros; apply prefixed_only]|intros ?]).
  apply getitem_only.
Qed.

Lemma subscription_record_only cols key group :
  only_KeyError (subscription_record cols key group).
Proof.
  unfold subscription_record. destruct group as [|g0 [|g1 [|??]]];
    try apply only_KeyError_Ok.
  - apply only_KeyError_bind; [apply row_getitem_only|]. intros ?. apply only_KeyError_Ok.
  - apply only_KeyError_bind; [apply row_getitem_only|]. intros ?.
    apply only_KeyError_bind; [apply row_getitem_only|]. intros ?. apply only_KeyError_Ok.
Qed.

Lemma _format_subscription_callback_object_only data :
  only_KeyError (_format_subscription_callback_object data).
Proof.
  unfold _format_subscription_callback_object.
  apply only_KeyError_bind; [apply merge_only|]. intros sub_df.
  destruct (has_column _ _); [|apply only_KeyError_Raise].
  apply only_KeyError_bind; [|intros ?; apply only_KeyError_Ok].
  apply only_KeyError_mapM. intros key. apply subscription_record_only.
Qed.

Lemma sub_callbacks_body_only data : only_KeyError (sub_callbacks_body data).
Proof.
  unfold sub_callbacks_body.
  apply only_KeyError_bind; [apply _format_subscription_callback_object_only|]. intros ?.
  repeat (apply only_KeyError_bind; [first [apply merge_only
    | apply _add_column_only; intros; apply prefixed_only]|intros ?]).
  apply getitem_only.
Qed.

(** A join on a key that one side does not have raises [KeyError]. *)
Lemma lacks_drop df column cols : lacks df column → lacks (drop df cols) column.
Proof.
  unfold lacks, has_column, drop. simpl. intros H.
  apply bool_decide_eq_false in H. apply bool_decide_eq_false.
  intros Hin. apply H. apply list_elem_of_In in Hin. apply filter_In in Hin as [Hin _].
  by apply list_elem_of_In.
Qed.

Lemma merge_lacks_left l r key : lacks l key → merge l r key = Raise KeyError.
Proof.
  intros H. unfold merge, pd_merge.
  by rewrite (lacks_drop _ _ drop_columns_default H).
Qed.

Lemma merge_lacks_right l r key : lacks r key → merge l r key = Raise KeyError.
Proof.
  intros H. unfold merge, pd_merge.
  rewrite (lacks_drop _ _ drop_columns_default H). by rewrite andb_false_r.
Qed.

(** Once one step of a body that raises nothing but [KeyError] raises,
    the body raises [KeyError]. *)
Lemma bind_Raise_r {A B : Type} (m : result A) (f : A → result B) :
  only_KeyError m → (∀ a, f a = Raise KeyError) → m ≫= f = Raise KeyError.
Proof.
  intros Hm Hf. destruct m as [a|e]; simpl; [apply Hf|]. by rewrite (Hm e eq_refl).
Qed.

Lemma timer_join_key_absent_raises data :
  timer_join_key_absent data → timer_callbacks_body data = Raise KeyError.
Proof.
  unfold timer_callbacks_body.
  intros [H|[H|[H|[H|H]]]].
  - by rewrite merge_lacks_left.
  - by rewrite merge_lacks_right.
  - apply bind_Raise_r; [apply merge_only|]. intros df.
    by rewrite merge_lacks_right.
  - apply bind_Raise_r; [apply merge_only|]. intros df.
    apply bind_Raise_r; [apply merge_only|]. intros df'.
    by rewrite merge_lacks_right.
  - apply bind_Raise_r; [apply merge_only|]. intros df.
    apply bind_Raise_r; [apply merge_only|]. intros df'.
    apply bind_Raise_r; [apply merge_only|]. intros df''.
    by rewrite merge_lacks_right.
Qed.

Lemma sub_join_key_absent_raises data :
  sub_join_key_absent data → sub_callbacks_body data = Raise KeyError.
Proof.
  unfold sub_callbacks_body.
  pose proof (_format_subscription_callback_object_only data) as Hfmt.
  intros [H|[H|[H|[H|H]]]].
  - unfold _format_subscription_callback_object. by rewrite merge_lacks_left.
  - unfold _format_subscription_callback_object. by rewrite merge_lacks_right.
  - apply bind_Raise_r; [done|]. intros df. by rewrite merge_lacks_left.
  - apply bind_Raise_r; [done|]. intros df.
    apply bind_Raise_r; [apply merge_only|]. intros df'.
    by rewrite merge_lacks_right.
  - apply bind_Raise_r; [done|]. intros df.
    apply bind_Raise_r; [apply merge_only|]. intros df'.
    apply bind_Raise_r; [apply merge_only|]. intros df''.
    by rewrite merge_lacks_right.
Qed.

Lemma cbg_join_key_absent_returns_empty formatted topics node_id :
  cbg_join_key_absent formatted →
  _get_callback_groups formatted topics node_id = Ok [] ∨
  _get_callback_groups formatted topics node_id = Raise ValueError.
Proof.
  unfold _get_callback_groups, callback_groups_body.
  destruct (Tables.concat _ _) as [concat_df|e] eqn:Hc; simpl.
  - intros [H|H]; left.
    + by rewrite merge_lacks_right.
    + destruct (merge concat_df _ _) as [df|e] eqn:Hm; simpl.
      * by rewrite merge_lacks_right.
      * by rewrite (merge_only _ _ _ e Hm).
  - intros _. unfold Tables.concat in Hc. destruct (map _ _); [|done].
    injection Hc as <-. by right.
Qed.
End tables.

(** C8.  [_build_timer_callbacks_df] and [_build_sub_callbacks_df] always
    return a table, and [_get_callback_groups] never lets a [KeyError]
    through: when the joins of the family raise [KeyError] (as they do when
    a joined table has no column for the join key) the result is the empty
    table with the columns of the family, or the empty list.  The tables of
    the other families are then built as without the failure:
    [DataFrameFormatted.__init__] returns whenever the builders of the
    executor, node, callback group and publisher tables do. *)
Theorem missing_join_key_gives_empty_family (data : Tables.Ros2DataModel) :
  (∃ df, Tables._build_timer_callbacks_df data = Ok df ∧
         (Tables.timer_callbacks_body data = Raise KeyError →
          df = Tables.empty_table Tables.timer_columns) ∧
         (Tables.timer_join_key_absent data →
          df = Tables.empty_table Tables.timer_columns)) ∧
  (∃ df, Tables._build_sub_callbacks_df data = Ok df ∧
         (Tables.sub_callbacks_body data = Raise KeyError →
          df = Tables.empty_table Tables.sub_columns) ∧
         (Tables.sub_join_key_absent data →
          df = Tables.empty_table Tables.sub_columns)) ∧
  (∀ formatted topics node_id,
     Tables._get_callback_groups formatted topics node_id ≠ Raise KeyError ∧
     (Tables.callback_groups_body formatted topics node_id = Raise KeyError →
      Tables._get_callback_groups formatted topics node_id = Ok [])) ∧
  (∀ executor_df nodes_df cbg pub_df,
     Tables._build_executor_df data = Ok executor_df →
     Tables._build_nodes_df data = Ok nodes_df →
     Tables._build_cbg_df data = Ok cbg →
     Tables._build_publisher_df data = Ok pub_df →
     ∃ timer_df sub_df,
       Tables._build_timer_callbacks_df data = Ok timer_df ∧
       Tables._build_sub_callbacks_df data = Ok sub_df ∧
       Tables.DataFrameFormatted_init data
       = Ok {| Tables._executor_df := executor_df;
               Tables._nodes_df := nodes_df;
               Tables._timer_callbacks_df := timer_df;
               Tables._sub_callbacks_df := sub_df;
               Tables._cbg_df := cbg.1;
               Tables._pub_df := pub_df |}).
Proof.
  destruct (except_KeyError_returns (Tables.timer_callbacks_body data)
              (Tables.empty_table Tables.timer_columns)
              (timer_callbacks_body_only data)) as (t & Ht & Ht1 & _).
  destruct (except_KeyError_returns (Tables.sub_callbacks_body data)
              (Tables.empty_table Tables.sub_columns)
              (sub_callbacks_body_only data)) as (s & Hs & Hs1 & _).
  split_and!.
  - exists t. split_and!; [done|done|].
    intros H. by apply Ht1, timer_join_key_absent_raises.
  - exists s. split_and!; [done|done|].
    intros H. by apply Hs1, sub_join_key_absent_raises.
  - intros formatted topics node_id. split.
    + apply except_KeyError_not_KeyError.
    + unfold Tables._get_callback_groups. by intros ->.
  - intros executor_df nodes_df cbg pub_df He Hn Hc Hp. exists t, s.
    split_and!; [done|done|].
    unfold Tables.DataFrameFormatted_init.
    unfold Tables._build_timer_callbacks_df, Tables._build_sub_callbacks_df in *.
    rewrite He, Hn. simpl. rewrite Ht. simpl. rewrite Hs. simpl.
    rewrite Hc. simpl. by rewrite Hp.
Qed.

(** A trace without timer and subscription events: both families are empty. *)
Example empty_model_families :
  Tables._build_timer_callbacks_df Samples.empty_model
  = Ok (Tables.empty_table Tables.timer_columns) ∧
  Tables._build_sub_callbacks_df Samples.empty_model
  = Ok (Tables.empty_table Tables.sub_columns) ∧
  Tables.timer_callbacks_body Samples.empty_model = Raise KeyError ∧
  Tables.sub_callbacks_body Samples.empty_model = Raise KeyError.
Proof. split_and!; vm_compute; reflexivity. Qed.
(** ** trace/lttng/lttng.py: compose_variable_passing_records *)

Section records.
Import Records.
Local Abbreviation record := (gmap string Z).

Lemma key_le_total key (r1 r2 : record) : key_le key r1 r2 ∨ key_le key r2 r1.
Proof. unfold key_le. destruct (r1 !! key), (r2 !! key); try tauto. lia. Qed.

Lemma key_le_trans key (r1 r2 r3 : record) :
  key_le key r1 r2 → key_le key r2 r3 → key_le key r1 r3.
Proof. unfold key_le. destruct (r1 !! key), (r2 !! key), (r3 !! key); try tauto. lia. Qed.

Lemma insert_sorted_perm key (r : record) l : insert_sorted key r l ≡ₚ r :: l.
Proof.
  induction l as [|a l IH]; simpl; [done|].
  destruct (decide _); [done|]. rewrite IH. apply Permutation_swap.
Qed.

Lemma sort_perm key (l : list record) : sort key l ≡ₚ l.
Proof.
  induction l as [|a l IH]; simpl; [done|].
  unfold sort in *. simpl. by rewrite insert_sorted_perm, IH.
Qed.

Lemma insert_sorted_sorted key (r : record) l :
  StronglySorted (key_le key) l → StronglySorted (key_le key) (insert_sorted key r l).
Proof.
  induction 1 as [|a l Hl IH Ha]; simpl; [by repeat constructor|].
  destruct (decide (key_le key r a)) as [Hle|Hnle].
  - constructor; [by constructor|]. constructor; [done|].
    eapply Forall_impl; [exact Ha|]. intros x. by apply key_le_trans.
  - constructor; [done|].
    rewrite insert_sorted_perm. constructor; [|done].
    by destruct (key_le_total key r a).
Qed.

Lemma sort_sorted key (l : list record) : StronglySorted (key_le key) (sort key l).
Proof.
  induction l as [|a l IH]; [constructor|]. by apply insert_sorted_sorted.
Qed.

Lemma lookup_foldr_delete (r : record) cols k :
  foldr delete r cols !! k = if bool_decide (k ∈ cols) then None else r !! k.
Proof.
  induction cols as [|c cols IH]; simpl; [done|].
  destruct (decide (c = k)) as [->|Hne].
  - rewrite lookup_delete_eq. rewrite bool_decide_eq_true_2; [done|left].
  - rewrite lookup_delete_ne by done. rewrite IH.
    apply (f_equal (λ b : bool, if b then None else r !! k)).
    apply bool_decide_ext. rewrite elem_of_cons. split; [by right|].
    intros [->|?]; done.
Qed.

Lemma drop_columns_sorted key cols (l : list record) :
  key ∉ cols →
  StronglySorted (key_le key) l → StronglySorted (key_le key) (drop_columns cols l).
Proof.
  intros Hk. assert (Hsame : ∀ r : record, foldr delete r cols !! key = r !! key).
  { intros r. rewrite lookup_foldr_delete. by rewrite bool_decide_eq_false_2. }
  induction 1 as [|a l Hl IH Ha]; simpl; [constructor|].
  constructor; [done|].
  apply Forall_forall. intros x Hx.
  apply list_elem_of_In, in_map_iff in Hx as (y & <- & Hy).
  rewrite Forall_forall in Ha. specialize (Ha y (proj2 (list_elem_of_In _ _) Hy)).
  unfold key_le in *. by rewrite !Hsame.
Qed.

Lemma earliest_no_earlier_none stamp key (reads : list record) :
  (∀ r s, r ∈ reads → r !! key = Some s → (s < stamp)%Z) →
  earliest_no_earlier stamp key reads = None.
Proof.
  induction reads as [|r reads IH]; intros H; simpl; [done|].
  rewrite IH by (intros r' s Hr; apply H; by right).
  destruct (r !! key) as [s|] eqn:Hs; [|done].
  specialize (H r s (list_elem_of_here _ _) Hs).
  by replace (stamp <=? s)%Z with false by (symmetry; apply Z.leb_gt; lia).
Qed.
End records.

(** C9.  The records returned by [compose_variable_passing_records] are
    in ascending order of [callback_end_timestamp]; every write record gives
    exactly one row (the rows are, up to order, the images of the write
    records); a write whose [callback_end_timestamp] is later than the
    [callback_start_timestamp] of every read gives a row without
    [callback_start_timestamp]; and no row has the columns
    [read_callback_object] and [write_callback_object]. *)
Theorem variable_passing_records_sorted_left_join
    (write_records read_records : list (gmap string Z)) :
  let out := Records.compose_variable_passing_records write_records read_records in
  StronglySorted (Records.key_le "callback_end_timestamp") out ∧
  (∃ row_of : gmap string Z → gmap string Z, out ≡ₚ map row_of write_records) ∧
  length out = length write_records ∧
  (∀ w t, w ∈ write_records →
     w !! "callback_end_timestamp" = Some t →
     (∀ r s, r ∈ read_records → r !! "callback_start_timestamp" = Some s → (s < t)%Z) →
     ∃ row, row ∈ out ∧
            row !! "callback_end_timestamp" = Some t ∧
            row !! "callback_start_timestamp" = None) ∧
  (∀ row, row ∈ out →
     row !! "read_callback_object" = None ∧ row !! "write_callback_object" = None).
Proof.
  intros out. subst out. unfold Records.compose_variable_passing_records.
  set (reads := Records.rename_columns "callback_object" "read_callback_object"
                  (Records.drop_columns ["callback_end_timestamp"] read_records)).
  set (prepare := λ w : gmap string Z,
         foldr delete
           (match w !! "callback_object" with
            | Some v => <["write_callback_object" := v]> (delete "callback_object" w)
            | None => w
            end) ["callback_start_timestamp"]).
  set (join := λ w : gmap string Z,
         match w !! "callback_end_timestamp" with
         | Some stamp =>
             match Records.earliest_no_earlier stamp "callback_start_timestamp" reads with
             | Some r => w ∪ r
             | None => w
             end
         | None => w
         end).
  set (strip := λ r : gmap string Z,
         foldr delete r ["read_callback_object"; "write_callback_object"]).
  assert (Hperm :
    Records.drop_columns ["read_callback_object"; "write_callback_object"]
      (Records.sort "callback_end_timestamp"
         (Records.merge_sequencial
            (Records.drop_columns ["callback_start_timestamp"]
               (Records.rename_columns "callback_object" "write_callback_object"
                  write_records))
            reads "callback_end_timestamp" "callback_start_timestamp"))
    ≡ₚ map (λ w, strip (join (prepare w))) write_records).
  { unfold Records.drop_columns at 1. fold strip.
    change (map strip ?l) with (strip <$> l).
    rewrite sort_perm. unfold Records.merge_sequencial. fold join.
    unfold Records.drop_columns, Records.rename_columns.
    change (strip <$> ?l) with (map strip l). by rewrite !map_map. }
  split_and!.
  - apply drop_columns_sorted; [|apply sort_sorted].
    intros Hin. repeat (apply elem_of_cons in Hin as [?|Hin]; [done|]).
    by apply elem_of_nil in Hin.
  - by exists (λ w, strip (join (prepare w))).
  - rewrite Hperm. by rewrite length_map.
  - intros w t Hw Ht Hreads.
    exists (strip (join (prepare w))). split.
    { rewrite Hperm. apply list_elem_of_In.
      apply (in_map (λ w, strip (join (prepare w)))). by apply list_elem_of_In. }
    assert (Hpt : prepare w !! "callback_end_timestamp" = Some t).
    { unfold prepare. rewrite lookup_foldr_delete. simpl.
      destruct (w !! "callback_object").
      - rewrite lookup_insert_ne by done. by rewrite lookup_delete_ne.
      - done. }
    assert (Hps : prepare w !! "callback_start_timestamp" = None).
    { unfold prepare. rewrite lookup_foldr_delete. by simpl. }
    assert (Hj : join (prepare w) = prepare w).
    { unfold join. rewrite Hpt.
      rewrite earliest_no_earlier_none; [done|].
      intros r s Hr Hs. subst reads.
      unfold Records.rename_columns, Records.drop_columns in Hr.
      rewrite map_map in Hr.
      apply list_elem_of_In, in_map_iff in Hr as (r0 & <- & Hr0).
      apply (Hreads r0 s); [by apply list_elem_of_In|].
      revert Hs. simpl.
      destruct (delete "callback_end_timestamp" r0 !! "callback_object");
        rewrite ?lookup_insert_ne, ?lookup_delete_ne by done; done. }
    rewrite Hj. unfold strip. rewrite !lookup_foldr_delete. simpl. done.
  - intros row Hrow. rewrite Hperm in Hrow.
    apply list_elem_of_In, in_map_iff in Hrow as (w & <- & _).
    unfold strip. rewrite !lookup_foldr_delete. done.
Qed.

Lemma variable_passing_records_sorted_left_join_witness :
  Records.compose_variable_passing_records
    [Samples.callback_record 1 20 30; Samples.callback_record 1 0 10]
    [Samples.callback_record 2 12 15]
  = [ {[ "callback_end_timestamp" := 10%Z; "callback_start_timestamp" := 12%Z ]};
      {[ "callback_end_timestamp" := 30%Z ]} ] ∧
  StronglySorted (Records.key_le "callback_end_timestamp")
    (Records.compose_variable_passing_records
       [Samples.callback_record 1 20 30; Samples.callback_record 1 0 10]
       [Samples.callback_record 2 12 15]).
Proof.
  split; [reflexivity|].
  apply (variable_passing_records_sorted_left_join
           [Samples.callback_record 1 20 30; Samples.callback_record 1 0 10]
           [Samples.callback_record 2 12 15]).
Defined.
(** ** graph_search.py: further properties *)

Lemma walk_nodes_chain n w m :
  walk n w m →
  ∀ i b, w !! i = Some b →
    (n :: map dst_node w) !! i = Some (src_node b) ∧
    (n :: map dst_node w) !! S i = Some (dst_node b).
Proof.
  induction 1 as [|n b bs m Hsrc _ IH]; intros i b' Hi; [done|].
  destruct i as [|i]; simpl in *.
  - injection Hi as <-. by rewrite Hsrc.
  - apply (IH i b' Hi).
Qed.

Lemma to_graph_nodes_walk h p src dst :
  p ≠ [] → walk src (path_branches h p) dst →
  to_graph_nodes h p = src :: map dst_node (path_branches h p).
Proof.
  destruct p as [|first p]; [done|]. intros _ Hw.
  inversion Hw; subst.
  unfold to_graph_nodes, path_branches. by rewrite map_map.
Qed.

(** X1.  The nodes of a path returned by [GraphSearcher.search]:
    [to_graph_nodes] gives one node more than the path has branches, the
    nodes start with [src_node] and end with [dst_node], and the i-th branch
    of the path leads from the i-th node to the next one. *)
Theorem returned_path_nodes_chain
    (fuel : nat) (h : list GraphBranch) (branches : list nat) (src dst : GraphNode)
    (h' : list GraphBranch) (paths : list (list nat)) :
  valid h branches →
  search fuel h branches src dst = Ok (h', paths) →
  ∀ p, p ∈ paths →
    length (to_graph_nodes h' p) = S (length p) ∧
    head (to_graph_nodes h' p) = Some src ∧
    last (to_graph_nodes h' p) = Some dst ∧
    ∀ i b, path_branches h' p !! i = Some b →
      to_graph_nodes h' p !! i = Some (src_node b) ∧
      to_graph_nodes h' p !! S i = Some (dst_node b).
Proof.
  intros Hvalid Hsearch p Hp.
  destruct (graph_search_walks _ _ _ _ _ _ _ Hvalid Hsearch) as [_ Hall].
  rewrite Forall_forall in Hall. destruct (Hall p Hp) as (_ & Hne & Hwalk).
  assert (Hp0 : p ≠ []) by (intros ->; by apply Hne).
  destruct (to_graph_nodes_ends h' p src dst Hne Hwalk) as [Hhead Hlast].
  split_and!; [|done|done|].
  - rewrite (to_graph_nodes_walk h' p src dst Hp0 Hwalk). simpl.
    unfold path_branches. by rewrite !length_map.
  - intros i b Hi. rewrite (to_graph_nodes_walk h' p src dst Hp0 Hwalk).
    by apply (walk_nodes_chain src _ dst).
Qed.

Lemma returned_path_nodes_chain_witness :
  ∃ h' p,
    search 3 Samples.cycle_store Samples.cycle_branches Samples.A Samples.A = Ok (h', [p]) ∧
    to_graph_nodes h' p = [Samples.A; Samples.B; Samples.A] ∧
    length (to_graph_nodes h' p) = S (length p).
Proof.
  destruct (search 3 Samples.cycle_store Samples.cycle_branches Samples.A Samples.A)
    as [[h' paths]|e] eqn:Hs; [|by vm_compute in Hs].
  assert (Hshape :
    match search 3 Samples.cycle_store Samples.cycle_branches Samples.A Samples.A with
    | Ok (h', [p]) => to_graph_nodes h' p = [Samples.A; Samples.B; Samples.A]
    | _ => False
    end) by (vm_compute; reflexivity).
  rewrite Hs in Hshape. destruct paths as [|p [|??]]; try done.
  exists h', p. split_and!; [done|done|].
  apply (returned_path_nodes_chain 3 Samples.cycle_store Samples.cycle_branches
           Samples.A Samples.A h' [p]); [|done|by left].
  repeat constructor.
Defined.
(** ** graph_search.py: CallbackPathSercher, further properties *)

Section callback_path_extras.
Context {CallbackBase : Type} (callback_unique_name : CallbackBase → string).
Local Abbreviation sercher := (CallbackPathSercher.t (CallbackBase := CallbackBase)).
Local Abbreviation to_callback := (CallbackPathSercher.to_callback callback_unique_name).

(** The dictionary comprehension keeps, for every name, the last callback
    of the list with that name. *)
Lemma to_callback_last (cbs : list CallbackBase) k :
  match to_callback cbs !! k with
  | Some cb =>
      ∃ l1 l2, cbs = l1 ++ cb :: l2 ∧ callback_unique_name cb = k ∧
               Forall (λ cb', callback_unique_name cb' ≠ k) l2
  | None => Forall (λ cb', callback_unique_name cb' ≠ k) cbs
  end.
Proof.
  unfold CallbackPathSercher.to_callback.
  induction cbs as [|cb cbs IH] using rev_ind; [simpl; rewrite lookup_empty; constructor|].
  rewrite foldl_app. simpl.
  destruct (decide (callback_unique_name cb = k)) as [<-|Hne].
  - rewrite lookup_insert_eq. by exists cbs, [].
  - rewrite lookup_insert_ne by done.
    destruct (foldl _ ∅ cbs !! k) as [cb'|].
    + destruct IH as (l1 & l2 & -> & Hk & Hl2).
      exists l1, (l2 ++ [cb]). split_and!; [by rewrite <- app_assoc|done|].
      apply Forall_app. split; [done|]. by apply Forall_singleton.
    + apply Forall_app. split; [done|]. by apply Forall_singleton.
Qed.

Lemma mapM_Ok_Forall {X Y : Type} (f : X → result Y) xs :
  Forall (λ x, ∃ y, f x = Ok y) xs → ∃ ys, mapM f xs = Ok ys.
Proof.
  induction 1 as [|x xs [y Hy] _ [ys IH]]; simpl; [by eexists|].
  rewrite Hy. simpl. rewrite IH. simpl. by eexists.
Qed.

Lemma mapM_Raise_elem {X Y : Type} (f : X → result Y) xs e :
  (∀ x e', f x = Raise e' → e' = e) →
  (∃ x, x ∈ xs ∧ f x = Raise e) → mapM f xs = Raise e.
Proof.
  intros Honly (x & Hx & Hf). induction xs as [|a xs IH]; [by apply elem_of_nil in Hx|].
  simpl. destruct (f a) as [y|e'] eqn:Ha; simpl.
  - apply elem_of_cons in Hx as [->|Hx]; [congruence|].
    by rewrite (IH Hx).
  - by rewrite (Honly a e' Ha).
Qed.

Lemma foldl_add_communication_skip (st : list GraphBranch * list nat)
    (communications : list (CallbackPathSercher.Communication (CallbackBase := CallbackBase))) :
  foldl (CallbackPathSercher.add_communication callback_unique_name) st communications
  = foldl (CallbackPathSercher.add_communication callback_unique_name) st
      (List.filter (λ c, bool_decide (is_Some (CallbackPathSercher.callback_publish c)))
         communications).
Proof.
  revert st. induction communications as [|c cs IH]; intros st; simpl; [done|].
  destruct (CallbackPathSercher.callback_publish c) as [cb|] eqn:Hc.
  - rewrite bool_decide_eq_true_2 by (by eexists). simpl. apply IH.
  - rewrite bool_decide_eq_false_2 by (by intros [??]).
    unfold CallbackPathSercher.add_communication at 2. rewrite Hc. apply IH.
Qed.

Lemma append_branch_length st src dst :
  length (CallbackPathSercher.append_branch st src dst).2 = S (length st.2).
Proof. destruct st as [h bs]. simpl. rewrite length_app. simpl. lia. Qed.

Lemma foldl_add_variable_passing_length (st : list GraphBranch * list nat)
    (vps : list (CallbackPathSercher.VariablePassing (CallbackBase := CallbackBase))) :
  length (foldl (CallbackPathSercher.add_variable_passing callback_unique_name) st vps).2
  = length st.2 + length vps.
Proof.
  revert st. induction vps as [|v vps IH]; intros st; simpl; [lia|].
  rewrite IH. unfold CallbackPathSercher.add_variable_passing.
  rewrite append_branch_length. lia.
Qed.

Lemma foldl_add_communication_length (st : list GraphBranch * list nat)
    (communications : list (CallbackPathSercher.Communication (CallbackBase := CallbackBase))) :
  Forall (λ c, is_Some (CallbackPathSercher.callback_publish c)) communications →
  length (foldl (CallbackPathSercher.add_communication callback_unique_name) st
            communications).2
  = length st.2 + length communications.
Proof.
  intros Hall. revert st. induction Hall as [|c cs [cb Hc] _ IH]; intros st; simpl; [lia|].
  rewrite IH. unfold CallbackPathSercher.add_communication. rewrite Hc.
  rewrite append_branch_length. lia.
Qed.
End callback_path_extras.

(** X2.  [_to_path] raises [KeyError] when the name of a node of the path
    is the unique name of no callback of the searcher; otherwise it returns
    one callback of the searcher for every node, with the node's name. *)
Theorem to_path_raises_on_unknown_name
    {CallbackBase : Type} (callback_unique_name : CallbackBase → string)
    (self : CallbackPathSercher.t) (h : list GraphBranch) (graph_path : list nat) :
  let known (node : GraphNode) :=
    ∃ callback, callback ∈ CallbackPathSercher._callbacks self ∧
                callback_unique_name callback = name node in
  ((∃ node, node ∈ to_graph_nodes h graph_path ∧ ¬ known node) →
   CallbackPathSercher._to_path callback_unique_name self h graph_path = Raise KeyError) ∧
  (Forall known (to_graph_nodes h graph_path) →
   ∃ path,
     CallbackPathSercher._to_path callback_unique_name self h graph_path = Ok path ∧
     map callback_unique_name path = map name (to_graph_nodes h graph_path) ∧
     Forall (λ callback, callback ∈ CallbackPathSercher._callbacks self) path).
Proof.
  intros known. unfold CallbackPathSercher._to_path. split.
  - intros (node & Hin & Hunknown). apply mapM_Raise_elem.
    + intros x e'. destruct (_ !! name x); [done|]. by intros [= <-].
    + exists node. split; [done|].
      pose proof (to_callback_last callback_unique_name
                    (CallbackPathSercher._callbacks self) (name node)) as Hl.
      destruct (_ !! name node) as [cb|]; [|done].
      destruct Hl as (l1 & l2 & Hcbs & Hk & _). exfalso. apply Hunknown.
      exists cb. split; [|done]. rewrite Hcbs. set_solver.
  - intros Hknown.
    destruct (mapM_Ok_Forall
                (λ node, match CallbackPathSercher.to_callback callback_unique_name
                                 (CallbackPathSercher._callbacks self) !! name node with
                         | Some callback => Ok callback
                         | None => Raise KeyError
                         end)
                (to_graph_nodes h graph_path)) as [path Hpath].
    { eapply Forall_impl; [exact Hknown|]. intros node (cb & Hcb & Hname). simpl.
      pose proof (to_callback_last callback_unique_name
                    (CallbackPathSercher._callbacks self) (name node)) as Hl.
      destruct (_ !! name node) as [cb'|]; [by eexists|].
      rewrite Forall_forall in Hl. by destruct (Hl cb Hcb). }
    exists path. split; [done|].
    apply mapM_Forall2 in Hpath. clear Hknown.
    induction Hpath as [|node cb nodes path Hcb _ [IH1 IH2]]; [done|].
    pose proof (to_callback_last callback_unique_name
                  (CallbackPathSercher._callbacks self) (name node)) as Hl.
    destruct (_ !! name node) as [cb'|]; [|done]. injection Hcb as ->.
    destruct Hl as (l1 & l2 & Hcbs & Hk & _). split.
    + simpl. by rewrite Hk, IH1.
    + constructor; [|done]. rewrite Hcbs. set_solver.
Qed.

Lemma to_path_raises_on_unknown_name_witness :
  CallbackPathSercher._to_path id Samples.talker_listener
    [new_branch {| name := "/talker/timer_callback_0" |} {| name := "/missing" |}] [0]
  = Raise KeyError.
Proof.
  apply (to_path_raises_on_unknown_name id Samples.talker_listener).
  exists {| name := "/missing" |}. split; [set_solver|].
  intros (cb & Hcb & Hname). vm_compute in Hcb.
  repeat (apply elem_of_cons in Hcb as [->|Hcb]; [done|]).
  by apply elem_of_nil in Hcb.
Defined.

(** X3.  When several callbacks of the searcher have the same unique
    name, [_to_path] maps a node of that name to the last of them in
    [self._callbacks]. *)
Theorem to_path_takes_last_callback_of_a_name
    {CallbackBase : Type} (callback_unique_name : CallbackBase → string)
    (self : CallbackPathSercher.t) (h : list GraphBranch) (graph_path : list nat)
    (path : list CallbackBase) :
  CallbackPathSercher._to_path callback_unique_name self h graph_path = Ok path →
  length path = length (to_graph_nodes h graph_path) ∧
  ∀ i node, to_graph_nodes h graph_path !! i = Some node →
    ∃ earlier callback later,
      CallbackPathSercher._callbacks self = earlier ++ callback :: later ∧
      path !! i = Some callback ∧
      callback_unique_name callback = name node ∧
      Forall (λ cb, callback_unique_name cb ≠ name node) later.
Proof.
  unfold CallbackPathSercher._to_path. intros Hpath.
  apply mapM_Forall2 in Hpath. split; [symmetry; by eapply Forall2_length|].
  intros i node Hi.
  destruct (Forall2_lookup_l _ _ _ _ _ Hpath Hi) as (cb & Hcb & Hnode).
  pose proof (to_callback_last callback_unique_name
                (CallbackPathSercher._callbacks self) (name node)) as Hl.
  destruct (_ !! name node) as [cb'|]; [|done]. injection Hnode as ->.
  destruct Hl as (l1 & l2 & Hcbs & Hk & Hl2). by exists l1, cb, l2.
Qed.

Lemma to_path_takes_last_callback_of_a_name_witness :
  CallbackPathSercher._to_path fst
    (CallbackPathSercher.init [ {| CallbackPathSercher.callbacks := [("A", 1); ("B", 2); ("A", 3)] |} ]
       [] [])
    [new_branch Samples.A Samples.B] [0]
  = Ok [("A", 3); ("B", 2)] ∧
  length [("A", 3); ("B", 2)] = 2.
Proof.
  split; [reflexivity|].
  apply (to_path_takes_last_callback_of_a_name fst
           (CallbackPathSercher.init
              [ {| CallbackPathSercher.callbacks := [("A", 1); ("B", 2); ("A", 3)] |} ] [] [])
           [new_branch Samples.A Samples.B] [0] [("A", 3); ("B", 2)]).
  reflexivity.
Defined.

(** X4.  [CallbackPathSercher.search] builds one branch for every
    communication that has a publishing callback and one for every variable
    passing; communications with [callback_publish is None] are skipped, so
    the result is the one of the searcher without them. *)
Theorem search_skips_communications_without_publisher
    {CallbackBase : Type} (callback_unique_name : CallbackBase → string)
    (fuel : nat) (h0 : list GraphBranch) (self : CallbackPathSercher.t) (s e : string) :
  let published :=
    List.filter (λ c, bool_decide (is_Some (CallbackPathSercher.callback_publish c)))
      (CallbackPathSercher._communications self) in
  let self' :=
    {| CallbackPathSercher._callbacks := CallbackPathSercher._callbacks self;
       CallbackPathSercher._communications := published;
       CallbackPathSercher._variable_passings := CallbackPathSercher._variable_passings self |} in
  length (CallbackPathSercher.build_branches callback_unique_name h0 self).2
  = length published + length (CallbackPathSercher._variable_passings self) ∧
  CallbackPathSercher.search callback_unique_name fuel h0 self s e
  = CallbackPathSercher.search callback_unique_name fuel h0 self' s e.
Proof.
  intros published self'.
  assert (Hb : CallbackPathSercher.build_branches callback_unique_name h0 self
               = CallbackPathSercher.build_branches callback_unique_name h0 self').
  { unfold CallbackPathSercher.build_branches. simpl.
    by rewrite foldl_add_communication_skip. }
  split.
  - rewrite Hb. unfold CallbackPathSercher.build_branches. simpl.
    rewrite foldl_add_variable_passing_length, foldl_add_communication_length; [done|].
    subst published. apply Forall_forall. intros c Hc.
    apply list_elem_of_In, filter_In in Hc as [_ Hc]. by apply bool_decide_eq_true in Hc.
  - unfold CallbackPathSercher.search. rewrite Hb.
    by destruct (CallbackPathSercher.build_branches callback_unique_name h0 self').
Qed.
(** ** graph_search.py: invariants of the search *)

(** *** A proof rule for [search_local]

    [I] relates the store, the path so far and the branch list at every
    call of [search_local]; [Q] is what then holds of every recorded path. *)
Section search_invariant.
Context (dst : GraphNode).
Context (I : list GraphBranch → list nat → list nat → Prop).
Context (Q : list GraphBranch → list nat → Prop).
Hypothesis I_prefix : ∀ h h' path branches,
  h `prefix_of` h' → valid h path → valid h branches →
  I h path branches → I h' path branches.
Hypothesis Q_prefix : ∀ h h' p, h `prefix_of` h' → valid h p → Q h p → Q h' p.
Hypothesis I_record : ∀ h path branches,
  valid h path → valid h branches → I h path branches → Q h path.
Hypothesis I_step : ∀ hc path branches branch h1 branches_ branch_ h3 path_,
  valid hc path → valid hc branches → I hc path branches →
  branch ∈ branches → arrived (deref hc branch) = false →
  deepcopy hc branches = (h1, branches_) →
  next_equal h1 branch branches_ = Ok branch_ →
  deepcopy (set_arrived h1 branch_) path = (h3, path_) →
  I h3 (path_ ++ [branch]) branches_.

Lemma recorded_prefix h h' ps :
  h `prefix_of` h' →
  Forall (λ p, valid h p ∧ Q h p) ps → Forall (λ p, valid h' p ∧ Q h' p) ps.
Proof using Q_prefix.
  intros Hp Hall. eapply Forall_impl; [exact Hall|]. intros p [Hv HQ].
  split; [by eapply valid_prefix|by eapply Q_prefix].
Qed.

Lemma search_local_invariant fuel : ∀ node path branches h ps h' ps',
  valid h path → valid h branches → I h path branches →
  Forall (λ p, valid h p ∧ Q h p) ps →
  search_local fuel dst node path branches (h, ps) = Ok (h', ps') →
  h `prefix_of` h' ∧ Forall (λ p, valid h' p ∧ Q h' p) ps'.
Proof using I_prefix Q_prefix I_record I_step.
  induction fuel as [|fuel IH]; intros node path branches h ps h' ps' Hvp Hvb HI Hps; [done|].
  simpl. set (ps1 := if _ && _ then ps ++ [path] else ps).
  assert (Hps1 : Forall (λ p, valid h p ∧ Q h p) ps1).
  { subst ps1. destruct (_ && _); [|done]. apply Forall_app. split; [done|].
    constructor; [|done]. split; [done|]. by eapply I_record. }
  clearbody ps1. set (targets := List.filter _ branches).
  apply (for_each_inv
           (λ st, h `prefix_of` st.1 ∧ Forall (λ p, valid st.1 p ∧ Q st.1 p) st.2)
           _ targets (h, ps1) (h', ps')); [done|].
  intros x [hc pc] [h2 ps2] Hx [Hhc Hpc]. simpl in Hhc, Hpc. simpl.
  apply list_elem_of_In, filter_In in Hx as [Hx _]. apply list_elem_of_In in Hx.
  unfold visit.
  destruct (arrived (deref hc x)) eqn:Harr; [by intros [= <- <-]|].
  destruct (deepcopy hc branches) as [h1 branches_] eqn:Hd1.
  destruct (next_equal h1 x branches_) as [branch_|e] eqn:Hn; simpl; [|done].
  destruct (deepcopy (set_arrived h1 branch_) path) as [h3 path_] eqn:Hd2.
  intros Hrec.
  assert (Hvp' : valid hc path) by by eapply valid_prefix.
  assert (Hvb' : valid hc branches) by by eapply valid_prefix.
  destruct (visit_step_facts hc path branches x h1 branches_ branch_ h3 path_)
    as (Hp3 & Hvp3 & Hvb3 & _); [done..|].
  apply IH in Hrec as [Hp4 Hps2]; [|done|done| |by eapply recorded_prefix].
  - split; [|done]. trans hc; [done|]. by trans h3.
  - eapply (I_step hc path branches x); try done. by eapply I_prefix.
Qed.
End search_invariant.

Lemma search_edges_subset fuel h branches src dst h' paths :
  valid h branches →
  search fuel h branches src dst = Ok (h', paths) →
  Forall (λ p, edges h' p ⊆ edges h branches) paths.
Proof.
  intros Hvb Hsearch.
  pose (E := edges h branches).
  pose (I := λ (h : list GraphBranch) (path branches : list nat),
          edges h path ⊆ E ∧ edges h branches ⊆ E).
  pose (Q := λ (h : list GraphBranch) (p : list nat), edges h p ⊆ E).
  assert (HIp : ∀ h h' path branches,
            h `prefix_of` h' → valid h path → valid h branches →
            I h path branches → I h' path branches).
  { intros h1 h2 path bs Hp Hv1 Hv2 [H1 H2].
    split; by rewrite (edges_prefix h1 h2). }
  assert (HQp : ∀ h h' p, h `prefix_of` h' → valid h p → Q h p → Q h' p).
  { intros h1 h2 p Hp Hv HQ. unfold Q. by rewrite (edges_prefix h1 h2). }
  assert (HIr : ∀ h path branches,
            valid h path → valid h branches → I h path branches → Q h path).
  { intros h1 path bs _ _ [H1 _]. exact H1. }
  assert (HIs : ∀ hc path branches branch h1 branches_ branch_ h3 path_,
            valid hc path → valid hc branches → I hc path branches →
            branch ∈ branches → arrived (deref hc branch) = false →
            deepcopy hc branches = (h1, branches_) →
            next_equal h1 branch branches_ = Ok branch_ →
            deepcopy (set_arrived h1 branch_) path = (h3, path_) →
            I h3 (path_ ++ [branch]) branches_).
  { intros hc path bs branch h1 branches_ branch_ h3 path_ Hvp Hvbs [H1 H2] Hin _ Hd1 Hn Hd2.
    destruct (visit_step_facts hc path bs branch h1 branches_ branch_ h3 path_)
      as (_ & _ & _ & Hpath & _ & _ & Hcopy); [done..|].
    split.
    - unfold edges. rewrite Hpath, map_app. simpl.
      apply list_subseteq_app_iff_l. split; [exact H1|].
      intros e ->%list_elem_of_singleton. apply H2.
      unfold edges, path_branches. rewrite map_map.
      by apply (list_elem_of_fmap_2 (λ l, edge (deref hc l))).
    - intros e He. apply H2. unfold edges, path_branches in *. rewrite map_map in *.
      apply list_elem_of_fmap in He as (l' & -> & Hl').
      apply list_elem_of_lookup in Hl' as [i Hi].
      destruct (Forall2_lookup_r _ _ _ _ _ Hcopy Hi) as (l & Hl & Hedge & _).
      rewrite Hedge. apply (list_elem_of_fmap_2 (λ l, edge (deref hc l))).
      by eapply list_elem_of_lookup_2. }
  destruct (search_local_invariant dst I Q HIp HQp HIr HIs fuel src [] branches h [] h' paths)
    as [_ Hall]; [constructor|done| |done|done|].
  { split; [by intros ? ?%elem_of_nil|done]. }
  eapply Forall_impl; [exact Hall|]. by intros p [_ HQ].
Qed.

(** X5.  Every branch of every path returned by [GraphSearcher.search] has
    the two end points of one of the branches the searcher was given: the
    paths are walks in the graph of these branches. *)
Theorem search_paths_use_searcher_edges
    (fuel : nat) (h : list GraphBranch) (branches : list nat) (src dst : GraphNode)
    (h' : list GraphBranch) (paths : list (list nat)) :
  valid h branches →
  search fuel h branches src dst = Ok (h', paths) →
  ∀ p b, p ∈ paths → b ∈ path_branches h' p →
    ∃ b0, b0 ∈ path_branches h branches ∧
          src_node b = src_node b0 ∧ dst_node b = dst_node b0.
Proof.
  intros Hvb Hsearch p b Hp Hb.
  pose proof (search_edges_subset _ _ _ _ _ _ _ Hvb Hsearch) as Hall.
  rewrite Forall_forall in Hall.
  assert (He : edge b ∈ edges h branches).
  { apply (Hall p Hp). unfold edges. by apply (list_elem_of_fmap_2 edge). }
  unfold edges in He. apply list_elem_of_fmap in He as (b0 & Heq & Hb0).
  exists b0. split; [done|]. by injection Heq.
Qed.

Lemma search_paths_use_searcher_edges_witness :
  ∃ h' p,
    search 3 Samples.cycle_store Samples.cycle_branches Samples.A Samples.A = Ok (h', [p]) ∧
    ∀ b, b ∈ path_branches h' p →
      ∃ b0, b0 ∈ path_branches Samples.cycle_store Samples.cycle_branches ∧
            src_node b = src_node b0 ∧ dst_node b = dst_node b0.
Proof.
  destruct (search 3 Samples.cycle_store Samples.cycle_branches Samples.A Samples.A)
    as [[h' paths]|e] eqn:Hs; [|by vm_compute in Hs].
  assert (Hone : match search 3 Samples.cycle_store Samples.cycle_branches
                         Samples.A Samples.A with
                 | Ok (_, [_]) => True | _ => False end) by (vm_compute; exact I).
  rewrite Hs in Hone. destruct paths as [|p [|??]]; try done.
  exists h', p. split; [done|]. intros b Hb.
  apply (search_paths_use_searcher_edges 3 Samples.cycle_store Samples.cycle_branches
           Samples.A Samples.A h' [p] ltac:(repeat constructor) Hs p b); [by left|done].
Defined.
(** ** graph_search.py: branches with pairwise distinct end points *)

Lemma NoDup_map_inj_elem {X Y : Type} (f : X → Y) (xs : list X) x y :
  NoDup (map f xs) → x ∈ xs → y ∈ xs → f x = f y → x = y.
Proof.
  induction xs as [|a xs IH]; simpl; [by intros _ ?%elem_of_nil|].
  intros [Ha Hnd]%NoDup_cons [->|Hx]%elem_of_cons [->|Hy]%elem_of_cons Hf; [done| | |by apply IH].
  - exfalso. apply Ha. rewrite Hf. by apply (list_elem_of_fmap_2 f).
  - exfalso. apply Ha. rewrite <- Hf. by apply (list_elem_of_fmap_2 f).
Qed.

Lemma copies_edges (R : nat → nat → Prop) h3 hc bs bs_ :
  (∀ l l', R l l' → edge (deref h3 l') = edge (deref hc l)) →
  Forall2 R bs bs_ → edges h3 bs_ = edges hc bs.
Proof.
  intros HR. unfold edges, path_branches.
  induction 1 as [|l l' ls ls' Hl _ IH]; simpl; [done|].
  rewrite (HR _ _ Hl). by f_equal.
Qed.

Lemma elem_of_edges h ls l : l ∈ ls → edge (deref h l) ∈ edges h ls.
Proof.
  intros Hl. unfold edges, path_branches. rewrite map_map.
  by apply (list_elem_of_fmap_2 (λ l, edge (deref h l))).
Qed.

Lemma edges_inj h ls l1 l2 :
  NoDup (edges h ls) → l1 ∈ ls → l2 ∈ ls →
  edge (deref h l1) = edge (deref h l2) → l1 = l2.
Proof.
  unfold edges, path_branches. rewrite map_map.
  apply (NoDup_map_inj_elem (λ l, edge (deref h l))).
Qed.

(** With distinct end points, the branch marked in the copy is the copy of
    the branch that is traversed. *)
Lemma marked_is_copy_of_traversed hc h3 bs bs_ branch branch_ :
  NoDup (edges hc bs) → branch ∈ bs → branch_ ∈ bs_ →
  edge (deref h3 branch_) = edge (deref hc branch) →
  Forall2 (λ l l', edge (deref h3 l') = edge (deref hc l) ∧
                   arrived (deref h3 l')
                   = arrived (deref hc l) || bool_decide (l' = branch_)) bs bs_ →
  ∃ i, bs !! i = Some branch ∧ bs_ !! i = Some branch_.
Proof.
  intros Hnd Hin Hin_ Hedge Hcopy.
  apply list_elem_of_lookup in Hin_ as [i Hi].
  destruct (Forall2_lookup_r _ _ _ _ _ Hcopy Hi) as (l & Hl & Hedge' & _).
  exists i. split; [|done]. rewrite Hl. f_equal.
  apply (edges_inj hc bs); [done|by eapply list_elem_of_lookup_2|done|congruence].
Qed.

Lemma copies_unarrived_le h3 hc branch_ bs bs_ :
  Forall2 (λ l l', edge (deref h3 l') = edge (deref hc l) ∧
                   arrived (deref h3 l')
                   = arrived (deref hc l) || bool_decide (l' = branch_)) bs bs_ →
  length (unarrived h3 bs_) ≤ length (unarrived hc bs).
Proof.
  unfold unarrived. induction 1 as [|l l' ls ls' [_ Harr] _ IH]; simpl; [done|].
  rewrite Harr. destruct (arrived (deref hc l)); simpl; [lia|].
  destruct (bool_decide (l' = branch_)); simpl; lia.
Qed.

Lemma copies_unarrived_lt h3 hc branch branch_ bs bs_ i :
  Forall2 (λ l l', edge (deref h3 l') = edge (deref hc l) ∧
                   arrived (deref h3 l')
                   = arrived (deref hc l) || bool_decide (l' = branch_)) bs bs_ →
  bs !! i = Some branch → bs_ !! i = Some branch_ →
  arrived (deref hc branch) = false →
  length (unarrived h3 bs_) < length (unarrived hc bs).
Proof.
  intros Hcopy. revert i.
  induction Hcopy as [|l l' ls ls' [_ Harr] Hrest IH]; intros [|i] Hi Hi_ Hun; try done.
  - injection Hi as ->. injection Hi_ as ->.
    pose proof (copies_unarrived_le _ _ _ _ _ Hrest) as Hle.
    unfold unarrived in *. simpl. rewrite Harr, Hun.
    rewrite bool_decide_eq_true_2 by done. simpl. lia.
  - specialize (IH i Hi Hi_ Hun). unfold unarrived in *. simpl. rewrite Harr.
    destruct (arrived (deref hc l)); simpl; [lia|].
    destruct (bool_decide (l' = branch_)); simpl; lia.
Qed.

(** The copy of the branch list always holds a branch equal to the one
    traversed: [next] does not raise [StopIteration]. *)
Lemma next_equal_returns hc h1 bs bs_ branch :
  hc `prefix_of` h1 → valid hc bs → branch ∈ bs →
  Forall2 (copy_of hc h1) bs bs_ →
  ∃ branch_, next_equal h1 branch bs_ = Ok branch_.
Proof.
  intros Hp Hv Hin Hcopy. unfold next_equal.
  destruct (List.find _ bs_) as [l|] eqn:Hf; [by eexists|]. exfalso.
  apply list_elem_of_lookup in Hin as [i Hi].
  destruct (Forall2_lookup_l _ _ _ _ _ Hcopy Hi) as (l' & Hl' & _ & Hc).
  assert (Hlt : branch < length hc) by (eapply valid_elem; [done|by eapply list_elem_of_lookup_2]).
  assert (Hneq : branch_eq (deref h1 l') (deref h1 branch) = false).
  { apply (find_none _ _ Hf l'). by eapply list_elem_of_In, list_elem_of_lookup_2. } rewrite (Hc Hlt), (deref_prefix hc h1) in Hneq by done.
  assert (branch_eq (deref hc branch) (deref hc branch) = true) by by apply edge_eq.
  congruence.
Qed.

Section distinct.
Context (dst : GraphNode).

Lemma fresh_edges_prefix h h' path branches :
  h `prefix_of` h' → valid h path → valid h branches →
  fresh_edges h path branches → fresh_edges h' path branches.
Proof.
  intros Hp Hvp Hvb (H1 & H2 & H3). unfold fresh_edges.
  rewrite !(edges_prefix h h') by done. split_and!; [done..|].
  intros l Hl. rewrite (deref_prefix h h' l Hp (valid_elem _ _ _ Hvb Hl)). by apply H3.
Qed.

Lemma fresh_edges_step hc path branches branch h1 branches_ branch_ h3 path_ :
  valid hc path → valid hc branches → fresh_edges hc path branches →
  branch ∈ branches → arrived (deref hc branch) = false →
  deepcopy hc branches = (h1, branches_) →
  next_equal h1 branch branches_ = Ok branch_ →
  deepcopy (set_arrived h1 branch_) path = (h3, path_) →
  fresh_edges h3 (path_ ++ [branch]) branches_.
Proof.
  intros Hvp Hvb (H1 & H2 & H3) Hin Harr Hd1 Hn Hd2.
  destruct (visit_step_facts hc path branches branch h1 branches_ branch_ h3 path_)
    as (_ & _ & _ & Hpath & Hin_ & Hedge & Hcopy); [done..|].
  assert (Hedges : edges h3 branches_ = edges hc branches).
  { eapply copies_edges; [|exact Hcopy]. by intros l l' [? _]. }
  assert (Hpath' : edges h3 (path_ ++ [branch]) = edges hc path ++ [edge (deref hc branch)]).
  { unfold edges. by rewrite Hpath, map_app. }
  unfold fresh_edges. rewrite Hedges, Hpath'. split_and!; [done| |].
  - apply NoDup_app. split_and!; [done| |apply NoDup_singleton].
    intros e He ->%list_elem_of_singleton. by apply (H3 branch).
  - intros l' Hl' Harr'.
    apply list_elem_of_lookup in Hl' as [i Hi].
    destruct (Forall2_lookup_r _ _ _ _ _ Hcopy Hi) as (l & Hl & Hedge' & Harr2).
    rewrite Harr' in Harr2. symmetry in Harr2. apply orb_false_iff in Harr2 as [Hal Hne].
    apply bool_decide_eq_false in Hne.
    assert (Hlin : l ∈ branches) by by eapply list_elem_of_lookup_2.
    rewrite Hedge'. intros [He|He%list_elem_of_singleton]%elem_of_app.
    + by apply (H3 l).
    + apply Hne. apply (edges_inj h3 branches_); [by rewrite Hedges| | |congruence].
      * by eapply list_elem_of_lookup_2.
      * done.
Qed.

Lemma search_local_no_reuse fuel node path branches h ps h' ps' :
  valid h path → valid h branches → fresh_edges h path branches →
  Forall (λ p, valid h p ∧ NoDup (edges h p)) ps →
  search_local fuel dst node path branches (h, ps) = Ok (h', ps') →
  h `prefix_of` h' ∧ Forall (λ p, valid h' p ∧ NoDup (edges h' p)) ps'.
Proof.
  apply (search_local_invariant dst fresh_edges (λ h p, NoDup (edges h p))).
  - apply fresh_edges_prefix.
  - intros h1 h2 p Hp Hv. by rewrite (edges_prefix h1 h2).
  - by intros h1 p bs _ _ (_ & ? & _).
  - apply fresh_edges_step.
Qed.

Lemma search_local_returns fuel : ∀ node path branches h ps,
  valid h path → valid h branches → NoDup (edges h branches) →
  length (unarrived h branches) < fuel →
  ∃ h' ps', search_local fuel dst node path branches (h, ps) = Ok (h', ps').
Proof.
  induction fuel as [|fuel IH]; intros node path branches h ps Hvp Hvb Hnd Hlt; [lia|].
  simpl. set (ps1 := if _ && _ then ps ++ [path] else ps). clearbody ps1.
  set (targets := List.filter _ branches).
  assert (Hsub : ∀ x, x ∈ targets → x ∈ branches).
  { intros x Hx. apply list_elem_of_In, filter_In in Hx as [Hx _]. by apply list_elem_of_In. }
  clearbody targets.
  assert (Hloop : ∀ hc pc, h `prefix_of` hc →
            ∃ h' ps', for_each (visit (search_local fuel dst) path branches) targets (hc, pc)
                      = Ok (h', ps')); [|by apply Hloop].
  induction targets as [|x targets IHt]; intros hc pc Hp; simpl; [by eexists _, _|].
  assert (Hx : x ∈ branches) by (apply Hsub; by left).
  assert (Hrest : ∀ y, y ∈ targets → y ∈ branches) by (intros y Hy; apply Hsub; by right).
  assert (Hvp' : valid hc path) by by eapply valid_prefix.
  assert (Hvb' : valid hc branches) by by eapply valid_prefix.
  unfold visit at 1.
  destruct (arrived (deref hc x)) eqn:Harr; [by apply IHt|].
  destruct (deepcopy hc branches) as [h1 branches_] eqn:Hd1.
  destruct (deepcopy_spec _ _ _ _ Hd1) as [Hp1 Hc1].
  destruct (next_equal_returns hc h1 branches branches_ x) as [branch_ Hn]; [done..|].
  rewrite Hn. simpl.
  destruct (deepcopy (set_arrived h1 branch_) path) as [h3 path_] eqn:Hd2.
  destruct (visit_step_facts hc path branches x h1 branches_ branch_ h3 path_)
    as (Hp3 & Hvp3 & Hvb3 & _ & Hin_ & Hedge & Hcopy); [done..|].
  assert (Hnd' : NoDup (edges hc branches)) by by rewrite (edges_prefix h hc).
  destruct (marked_is_copy_of_traversed hc h3 branches branches_ x branch_)
    as (i & Hi & Hi_); [done..|].
  pose proof (copies_unarrived_lt _ _ _ _ _ _ i Hcopy Hi Hi_ Harr) as Hless.
  rewrite (unarrived_prefix h hc) in Hless by done.
  destruct (IH (dst_node (deref h3 branch_)) (path_ ++ [x]) branches_ h3 pc)
    as (h4 & ps4 & Hrec); [done|done| |lia|].
  { erewrite copies_edges; [exact Hnd'| |exact Hcopy]. by intros l l' [? _]. }
  rewrite Hrec. simpl. apply IHt; [done|].
  destruct (search_local_sound fuel dst _ _ _ _ _ _ _ Hvp3 Hvb3 Hrec) as [Hp4 _].
  trans hc; [done|]. by trans h3.
Qed.
End distinct.

Lemma cycle_branches_distinct :
  no_edge_reuse (path_branches Samples.cycle_store Samples.cycle_branches).
Proof.
  unfold no_edge_reuse. simpl. apply NoDup_cons. split; [|apply NoDup_singleton].
  by intros ?%list_elem_of_singleton.
Qed.

(** X6.  When no two branches of the searcher have the same (source,
    destination) pair, no path returned by [GraphSearcher.search] uses an
    edge twice, and no path is longer than the number of branches. *)
Theorem search_never_reuses_an_edge_of_distinct_branches
    (fuel : nat) (h : list GraphBranch) (branches : list nat) (src dst : GraphNode)
    (h' : list GraphBranch) (paths : list (list nat)) :
  valid h branches →
  no_edge_reuse (path_branches h branches) →
  search fuel h branches src dst = Ok (h', paths) →
  ∀ p, p ∈ paths →
    no_edge_reuse (path_branches h' p) ∧ length p ≤ length branches.
Proof.
  intros Hvb Hnd Hsearch p Hp.
  destruct (search_local_no_reuse dst fuel src [] branches h [] h' paths) as [_ Hall];
    [constructor|done| |done|done|].
  { split_and!; [done|constructor|]. by intros ? _ _ ?%elem_of_nil. }
  rewrite Forall_forall in Hall. destruct (Hall p Hp) as [_ Hndp].
  split; [done|].
  pose proof (search_edges_subset _ _ _ _ _ _ _ Hvb Hsearch) as Hsub.
  rewrite Forall_forall in Hsub. specialize (Hsub p Hp).
  pose proof (submseteq_length _ _ (NoDup_submseteq _ _ Hndp Hsub)) as Hlen.
  unfold edges, path_branches in Hlen. by rewrite !length_map in Hlen.
Qed.

Lemma search_never_reuses_an_edge_of_distinct_branches_witness :
  ∃ h' p,
    search 3 Samples.cycle_store Samples.cycle_branches Samples.A Samples.A = Ok (h', [p]) ∧
    no_edge_reuse (path_branches h' p) ∧ length p ≤ 2.
Proof.
  destruct (search 3 Samples.cycle_store Samples.cycle_branches Samples.A Samples.A)
    as [[h' paths]|e] eqn:Hs; [|by vm_compute in Hs].
  assert (Hone : match search 3 Samples.cycle_store Samples.cycle_branches
                         Samples.A Samples.A with
                 | Ok (_, [_]) => True | _ => False end) by (vm_compute; exact I).
  rewrite Hs in Hone. destruct paths as [|p [|??]]; try done.
  exists h', p. split; [done|].
  apply (search_never_reuses_an_edge_of_distinct_branches 3 Samples.cycle_store
           Samples.cycle_branches Samples.A Samples.A h' [p]);
    [repeat constructor|apply cycle_branches_distinct|done|by left].
Defined.

(** X7.  When no two branches of the searcher have the same (source,
    destination) pair, [GraphSearcher.search] returns: a recursion depth
    greater than the number of branches is enough, and [next] never raises
    [StopIteration]. *)
Theorem search_returns_on_distinct_branches
    (fuel : nat) (h : list GraphBranch) (branches : list nat) (src dst : GraphNode) :
  valid h branches →
  no_edge_reuse (path_branches h branches) →
  length branches < fuel →
  ∃ h' paths, search fuel h branches src dst = Ok (h', paths).
Proof.
  intros Hvb Hnd Hlt. apply search_local_returns; [constructor|done|done|].
  unfold unarrived.
  pose proof (List.filter_length_le (λ l, negb (arrived (deref h l))) branches). lia.
Qed.

Lemma search_returns_on_distinct_branches_witness :
  ∃ h' paths,
    search 3 Samples.cycle_store Samples.cycle_branches Samples.A Samples.A = Ok (h', paths).
Proof.
  apply (search_returns_on_distinct_branches 3 Samples.cycle_store Samples.cycle_branches
           Samples.A Samples.A);
    [repeat constructor|apply cycle_branches_distinct|simpl; lia].
Defined.

(** X8.  When every branch that leaves [src_node] is already marked as
    arrived (in particular when no branch leaves it, or the branch list is
    empty), [GraphSearcher.search] returns no path, also for
    [src_node == dst_node], and allocates nothing. *)
Theorem search_without_departing_branch
    (fuel : nat) (h : list GraphBranch) (branches : list nat) (src dst : GraphNode) :
  0 < fuel →
  (∀ l, l ∈ branches → src_node (deref h l) = src → arrived (deref h l) = true) →
  search fuel h branches src dst = Ok (h, []).
Proof.
  intros Hfuel Harr. destruct fuel as [|fuel]; [lia|].
  unfold search. simpl. rewrite andb_false_r.
  set (targets := List.filter _ branches).
  assert (Hall : ∀ x, x ∈ targets → arrived (deref h x) = true).
  { intros x Hx. apply list_elem_of_In, filter_In in Hx as [Hx Hsrc].
    apply Harr; [by apply list_elem_of_In|by apply node_eq_true]. }
  clearbody targets. induction targets as [|x targets IH]; [done|].
  simpl. rewrite (Hall x) by (by left). simpl. apply IH.
  intros y Hy. apply Hall. by right.
Qed.

Lemma search_without_departing_branch_witness :
  search 1 Samples.cycle_store Samples.cycle_branches {| name := "C" |} {| name := "C" |}
  = Ok (Samples.cycle_store, []).
Proof.
  apply search_without_departing_branch; [lia|].
  intros l Hl Hsrc. exfalso.
  repeat (apply elem_of_cons in Hl as [->|Hl]; [done|]). by apply elem_of_nil in Hl.
Defined.
(** ** lttng_info.py: PublisherBinder, further properties *)

Import BinderProps.

(** *** list.index *)

Lemma index_spec {A : Type} `{EqDecision A} (x : A) (l : list A) :
  match index x l with
  | Ok i => l !! i = Some x ∧ ∀ j, j < i → l !! j ≠ Some x
  | Raise e => e = ValueError ∧ x ∉ l
  end.
Proof.
  induction l as [|y l IH]; simpl.
  - split; [done|]. apply not_elem_of_nil.
  - destruct (decide (y = x)) as [->|Hne].
    + split; [done|]. intros j Hj. lia.
    + destruct (index x l) as [i|e]; simpl.
      * destruct IH as [Hi Hmin]. split; [done|].
        intros [|j] Hj; simpl; [by intros [= ?]|]. apply Hmin. lia.
      * destruct IH as [-> Hnin]. split; [done|].
        apply not_elem_of_cons. split; [by intros ->|done].
Qed.

Lemma index_app_notin {A : Type} `{EqDecision A} (x : A) (l1 l2 : list A) :
  x ∉ l1 → index x (l1 ++ x :: l2) = Ok (length l1).
Proof.
  induction l1 as [|y l1 IH]; simpl; intros Hnin.
  - by rewrite decide_True.
  - apply not_elem_of_cons in Hnin as [Hne Hnin].
    rewrite decide_False by (by intros ->). by rewrite IH.
Qed.

Lemma index_notin {A : Type} `{EqDecision A} (x : A) (l : list A) :
  x ∉ l → index x l = Raise ValueError.
Proof.
  intros Hnin. pose proof (index_spec x l) as H0.
  destruct (index x l) as [i|e].
  - destruct H0 as [Hi _]. exfalso. apply Hnin. by eapply list_elem_of_lookup_2.
  - by destruct H0 as [-> _].
Qed.

Lemma existsb_find {A : Type} (f : A → bool) (l : list A) :
  existsb f l = match List.find f l with Some _ => true | None => false end.
Proof. induction l as [|x l IH]; simpl; [done|]. by destruct (f x). Qed.

(** *** The two loops of a pass *)

Lemma bind_first_sub_find src it callback_list :
  bind_first_sub src it callback_list
  = match List.find (λ pc, _is_consistent src pc.1 (SubCb pc.2)) it with
    | None => Ok callback_list
    | Some (publisher, cb_info) =>
        _update_sub_cb_publish_topics callback_list cb_info
          (bound_topic_names (PublisherValueLttng.topic_name publisher)
             (SubscriptionCallbackValueLttng.publish_topic_names cb_info))
    end.
Proof.
  induction it as [|[publisher cb_info] it IH]; simpl; [done|].
  by destruct (_is_consistent src publisher (SubCb cb_info)).
Qed.

Lemma bind_first_timer_find src it callback_list :
  bind_first_timer src it callback_list
  = match List.find (λ pc, _is_consistent src pc.1 (TimerCb pc.2)) it with
    | None => Ok callback_list
    | Some (publisher, cb) =>
        _update_timer_cb_publish_topics callback_list cb
          (bound_topic_names (PublisherValueLttng.topic_name publisher)
             (TimerCallbackValueLttng.publish_topic_names cb))
    end.
Proof.
  induction it as [|[publisher cb] it IH]; simpl; [done|].
  by destruct (_is_consistent src publisher (TimerCb cb)).
Qed.

(** [for cb_info in callback_list: update(callback_list, cb_info, ())]
    gives every callback the empty tuple and does not raise. *)
Lemma insert_empty_tuples_spec (rest : list SubscriptionCallbackValueLttng.t) :
  ∀ prev,
    Forall (λ cb, sub_with_topics [] cb = cb) prev →
    insert_empty_tuples (length rest) (length prev) (prev ++ rest)
    = Ok (prev ++ map (sub_with_topics []) rest).
Proof.
  induction rest as [|cb rest IH]; intros prev Hprev; simpl; [done|].
  rewrite lookup_app_r, Nat.sub_diag by lia. simpl.
  change (_update_sub_cb_publish_topics (prev ++ cb :: rest) cb [])
    with (i ← index cb (prev ++ cb :: rest);
          Ok (<[i := sub_with_topics [] cb]> (prev ++ cb :: rest))).
  pose proof (index_spec cb (prev ++ cb :: rest)) as Hi.
  destruct (index cb (prev ++ cb :: rest)) as [i|e]; simpl.
  2: { destruct Hi as [_ Hnin]. exfalso. apply Hnin.
       apply elem_of_app. right. by left. }
  destruct Hi as [Hi Hmin].
  assert (Hle : i ≤ length prev).
  { destruct (decide (i ≤ length prev)) as [|Hgt]; [done|]. exfalso.
    apply (Hmin (length prev)); [lia|].
    by rewrite lookup_app_r, Nat.sub_diag by lia. }
  assert (Hnew : <[i := sub_with_topics [] cb]> (prev ++ cb :: rest)
                 = (prev ++ [sub_with_topics [] cb]) ++ rest).
  { destruct (decide (i = length prev)) as [->|Hne].
    - rewrite insert_app_r_alt, Nat.sub_diag by lia. simpl. by rewrite <- app_assoc.
    - assert (Hlt : i < length prev) by lia.
      assert (Hfix : sub_with_topics [] cb = cb).
      { rewrite Forall_forall in Hprev. apply Hprev.
        rewrite lookup_app_l in Hi by done. by eapply list_elem_of_lookup_2. }
      rewrite Hfix. rewrite list_insert_id by done. by rewrite <- app_assoc. }
  rewrite Hnew.
  replace (S (length prev)) with (length (prev ++ [sub_with_topics [] cb]))
    by (rewrite length_app; simpl; lia).
  rewrite IH.
  - by rewrite <- app_assoc.
  - apply Forall_app. split; [done|]. by apply Forall_singleton.
Qed.

(** [for cb in callbacks: update(callback_list, cb, ())] on callbacks as
    loaded. *)
Lemma timer_insert_empty_tuples (rest : list TimerCallbackValueLttng.t) :
  ∀ prev,
    Forall (λ cb, TimerCallbackValueLttng.publish_topic_names cb = None) rest →
    Forall (λ cb, TimerCallbackValueLttng.publish_topic_names cb ≠ None) prev →
    for_each (λ cb callback_list, _update_timer_cb_publish_topics callback_list cb [])
      rest (prev ++ rest)
    = Ok (prev ++ map (timer_with_topics []) rest).
Proof.
  induction rest as [|cb rest IH]; intros prev Hrest Hprev; simpl; [done|].
  apply Forall_cons in Hrest as [Hcb Hrest].
  change (_update_timer_cb_publish_topics (prev ++ cb :: rest) cb [])
    with (i ← index cb (prev ++ cb :: rest);
          Ok (<[i := timer_with_topics [] cb]> (prev ++ cb :: rest))).
  rewrite index_app_notin.
  2: { intros Hin. rewrite Forall_forall in Hprev. by apply (Hprev cb Hin). }
  simpl. rewrite insert_app_r_alt, Nat.sub_diag by lia. simpl.
  replace (prev ++ timer_with_topics [] cb :: rest)
    with ((prev ++ [timer_with_topics [] cb]) ++ rest) by (by rewrite <- app_assoc).
  rewrite IH; [by rewrite <- app_assoc|done|].
  apply Forall_app. split; [done|]. by apply Forall_singleton.
Qed.

(** X9.  [_update_timer_cb_publish_topics] and
    [_update_sub_cb_publish_topics] raise [ValueError] when no element of
    the list equals the target; otherwise they write the first position
    that holds an element equal to the target, with the target's attributes
    and the new [publish_topic_names], and leave the other positions alone. *)
Theorem update_publish_topics_writes_first_occurrence
    (timer_cbs : list TimerCallbackValueLttng.t) (timer_target : TimerCallbackValueLttng.t)
    (sub_cbs : list SubscriptionCallbackValueLttng.t)
    (sub_target : SubscriptionCallbackValueLttng.t)
    (publish_topic_names : list string) :
  (timer_target ∉ timer_cbs →
   _update_timer_cb_publish_topics timer_cbs timer_target publish_topic_names
   = Raise ValueError) ∧
  (timer_target ∈ timer_cbs →
   ∃ i, timer_cbs !! i = Some timer_target ∧
        (∀ j, j < i → timer_cbs !! j ≠ Some timer_target) ∧
        _update_timer_cb_publish_topics timer_cbs timer_target publish_topic_names
        = Ok (<[i := timer_with_topics publish_topic_names timer_target]> timer_cbs)) ∧
  (sub_target ∉ sub_cbs →
   _update_sub_cb_publish_topics sub_cbs sub_target publish_topic_names
   = Raise ValueError) ∧
  (sub_target ∈ sub_cbs →
   ∃ i, sub_cbs !! i = Some sub_target ∧
        (∀ j, j < i → sub_cbs !! j ≠ Some sub_target) ∧
        _update_sub_cb_publish_topics sub_cbs sub_target publish_topic_names
        = Ok (<[i := sub_with_topics publish_topic_names sub_target]> sub_cbs)).
Proof.
  split_and!.
  - intros Hnin. unfold _update_timer_cb_publish_topics. by rewrite index_notin.
  - intros Hin. unfold _update_timer_cb_publish_topics.
    pose proof (index_spec timer_target timer_cbs) as Hi.
    destruct (index timer_target timer_cbs) as [i|e]; [|by destruct Hi].
    destruct Hi as [Hi Hmin]. by exists i.
  - intros Hnin. unfold _update_sub_cb_publish_topics. by rewrite index_notin.
  - intros Hin. unfold _update_sub_cb_publish_topics.
    pose proof (index_spec sub_target sub_cbs) as Hi.
    destruct (index sub_target sub_cbs) as [i|e]; [|by destruct Hi].
    destruct Hi as [Hi Hmin]. by exists i.
Qed.

(** X10.  One call of [bind_pub_topics_and_sub_cbs] never raises.  It
    returns the callbacks that do not subscribe to a system topic, each with
    the empty tuple, except for the callback of the first consistent
    (publisher, callback) pair, which gets the one topic of that publisher;
    when no pair is consistent every callback has the empty tuple. *)
Theorem sub_pass_binds_first_consistent_pair_only
    (self : LttngInfo) (node_name : string)
    (callbacks_info : list SubscriptionCallbackValueLttng.t) :
  let callback_list :=
    map (sub_with_topics [])
      (List.filter
         (λ x, not_in system_topics (SubscriptionCallbackValueLttng.subscribe_topic_name x))
         callbacks_info) in
  match List.find (λ pc, _is_consistent (source self) pc.1 (SubCb pc.2))
          (sub_pairs self node_name callback_list) with
  | None => bind_pub_topics_and_sub_cbs self node_name callbacks_info = Ok callback_list
  | Some (publisher, cb_info) =>
      ∃ i, callback_list !! i = Some cb_info ∧
           (∀ j, j < i → callback_list !! j ≠ Some cb_info) ∧
           bind_pub_topics_and_sub_cbs self node_name callbacks_info
           = Ok (<[i := sub_with_topics [PublisherValueLttng.topic_name publisher] cb_info]>
                   callback_list)
  end.
Proof.
  intros callback_list. unfold bind_pub_topics_and_sub_cbs.
  set (filtered := List.filter _ callbacks_info) in *.
  pose proof (insert_empty_tuples_spec filtered [] (Forall_nil_2 _)) as Hinsert.
  simpl in Hinsert. rewrite Hinsert. fold callback_list.
  change (Ok callback_list ≫= ?f) with (f callback_list). cbv beta.
  rewrite bind_first_sub_find. fold (sub_pairs self node_name callback_list).
  destruct (List.find _ (sub_pairs self node_name callback_list))
    as [[publisher cb_info]|] eqn:Hfind; [|done].
  apply find_some in Hfind as [Hin _].
  apply in_prod_iff in Hin as [_ Hin]. apply list_elem_of_In in Hin.
  assert (Hnames : SubscriptionCallbackValueLttng.publish_topic_names cb_info = Some []).
  { subst callback_list. apply list_elem_of_fmap in Hin as (cb0 & -> & _). done. }
  rewrite Hnames. simpl.
  change (_update_sub_cb_publish_topics callback_list cb_info
            [PublisherValueLttng.topic_name publisher])
    with (i ← index cb_info callback_list;
          Ok (<[i := sub_with_topics [PublisherValueLttng.topic_name publisher] cb_info]>
                callback_list)).
  pose proof (index_spec cb_info callback_list) as Hi.
  destruct (index cb_info callback_list) as [i|e]; [|by destruct Hi].
  destruct Hi as [Hi Hmin]. by exists i.
Qed.

(** X11.  [bind_pub_topics_and_timer_cbs] on timer callbacks as
    [_load_timer_cbs_without_pub] builds them ([publish_topic_names=None]):
    it raises [ValueError] as soon as one (publisher, callback) pair is
    consistent, and binds nothing otherwise. *)
Theorem timer_pass_raises_on_loaded_callbacks
    (self : LttngInfo) (node_name : string) (callbacks : list TimerCallbackValueLttng.t) :
  Forall (λ cb, TimerCallbackValueLttng.publish_topic_names cb = None) callbacks →
  bind_pub_topics_and_timer_cbs self node_name callbacks
  = if existsb (λ pc, _is_consistent (source self) pc.1 (TimerCb pc.2))
         (timer_pairs self node_name callbacks)
    then Raise ValueError
    else Ok (map (timer_with_topics []) callbacks).
Proof.
  intros Hloaded. unfold bind_pub_topics_and_timer_cbs.
  pose proof (timer_insert_empty_tuples callbacks [] Hloaded (Forall_nil_2 _)) as Hinsert.
  simpl in Hinsert. rewrite Hinsert.
  change (Ok ?l ≫= ?f) with (f l). cbv beta.
  rewrite bind_first_timer_find. fold (timer_pairs self node_name callbacks).
  rewrite existsb_find.
  destruct (List.find _ (timer_pairs self node_name callbacks))
    as [[publisher cb]|] eqn:Hfind; [|done].
  apply find_some in Hfind as [Hin _].
  apply in_prod_iff in Hin as [_ Hin]. apply list_elem_of_In in Hin.
  unfold _update_timer_cb_publish_topics. rewrite index_notin; [done|].
  intros Hmapped. apply list_elem_of_fmap in Hmapped as (cb0 & Heq & _).
  rewrite Forall_forall in Hloaded. specialize (Hloaded cb Hin).
  by rewrite Heq in Hloaded.
Qed.

Lemma timer_pass_raises_on_loaded_callbacks_witness :
  bind_pub_topics_and_timer_cbs Samples.two_pairs_info "/node_1"
    [Samples.timer_cb "timer_callback_1" None 1; Samples.timer_cb "timer_callback_2" None 2]
  = Raise ValueError ∧
  bind_pub_topics_and_timer_cbs Samples.two_pairs_info "/other_node"
    [Samples.timer_cb "timer_callback_1" None 1]
  = Ok [Samples.timer_cb "timer_callback_1" (Some []) 1].
Proof.
  split.
  - rewrite (timer_pass_raises_on_loaded_callbacks Samples.two_pairs_info "/node_1");
      [reflexivity|]. by repeat constructor.
  - rewrite (timer_pass_raises_on_loaded_callbacks Samples.two_pairs_info "/other_node");
      [reflexivity|]. by repeat constructor.
Defined.

(** *** _get_publish_time *)



(** *** _is_consistent *)

Lemma scan_records_skip publish_time record :
  get record "callback_start_timestamp" = None ∨
  get record "callback_end_timestamp" = None →
  ∀ before after,
    scan_records publish_time (before ++ record :: after)
    = scan_records publish_time (before ++ after).
Proof.
  intros Hlacks. induction before as [|r before IH]; intros after; simpl.
  - destruct Hlacks as [-> | ->]; [done|].
    by destruct (get record "callback_start_timestamp").
  - by rewrite IH.
Qed.

Lemma scan_filter_skip callback_object publish_time record before after :
  get record "callback_start_timestamp" = None ∨
  get record "callback_end_timestamp" = None ∨
  get record "callback_object" ≠ Some callback_object →
  scan_records publish_time
    (filter_if_eq "callback_object" callback_object (before ++ record :: after))
  = scan_records publish_time
      (filter_if_eq "callback_object" callback_object (before ++ after)).
Proof.
  intros Hskip. unfold filter_if_eq. rewrite !List.filter_app. simpl.
  destruct (bool_decide (get record "callback_object" = Some callback_object)) eqn:Hobj;
    [|done].
  apply bool_decide_eq_true in Hobj.
  apply scan_records_skip. destruct Hskip as [?|[?|?]]; [by left|by right|done].
Qed.

(** X13.  [_is_consistent] looks only at the callback records of the
    callback object (and, for a subscription callback, of its intra-process
    callback object) that carry both [callback_start_timestamp] and
    [callback_end_timestamp]: any other record of the callback stream can be
    removed without changing the result. *)
Theorem is_consistent_ignores_undecisive_records
    (src : RecordsSource) (publisher_info : PublisherValueLttng.t)
    (callback_info : CallbackValueLttng) (before after : list (gmap string Z))
    (record : gmap string Z) :
  undecisive callback_info record →
  _is_consistent (with_callback_records src (before ++ record :: after))
    publisher_info callback_info
  = _is_consistent (with_callback_records src (before ++ after))
      publisher_info callback_info.
Proof.
  intros Hund. unfold _is_consistent.
  change (_get_publish_time (with_callback_records src (before ++ record :: after))
            publisher_info)
    with (_get_publish_time (with_callback_records src (before ++ after)) publisher_info).
  destruct (_get_publish_time _ publisher_info) as [publish_time|]; [|done].
  unfold _is_consistent_inter, _is_consistent_intra. simpl.
  rewrite (scan_filter_skip (callback_object callback_info)).
  2: { destruct Hund as [?|[?|[? _]]]; [by left|by right; left|by right; right]. }
  destruct (scan_records publish_time _) as [[|]|]; [done| |];
    (destruct callback_info as [cb|cb]; [done|];
     destruct (SubscriptionCallbackValueLttng.callback_object_intra cb) as [o|] eqn:Ho;
       [|done];
     rewrite (scan_filter_skip o); [done|];
     destruct Hund as [?|[?|[_ Hintra]]]; [by left|by right; left|right; right];
     apply Hintra; simpl; by rewrite Ho).
Qed.

Lemma is_consistent_ignores_undecisive_records_witness :
  _is_consistent
    (with_callback_records Samples.ordered_source
       ([Samples.callback_record 1 1 5] ++ Samples.callback_record 2 11 30
          :: [Samples.callback_record 1 10 20]))
    (Samples.publisher "/t1" 100)
    (TimerCb (Samples.timer_cb "timer_callback_1" None 1))
  = true.
Proof.
  rewrite (is_consistent_ignores_undecisive_records Samples.ordered_source
             (Samples.publisher "/t1" 100)
             (TimerCb (Samples.timer_cb "timer_callback_1" None 1))
             [Samples.callback_record 1 1 5] [Samples.callback_record 1 10 20]
             (Samples.callback_record 2 11 30)); [reflexivity|].
  right. right. split.
  - intros Hobj. change (Some 2%Z = Some 1%Z) in Hobj. discriminate Hobj.
  - intros o Ho. discriminate Ho.
Defined.
(** ** lttng_info.py: tables, further properties *)

Section tables_extras.
Import Tables.
Local Abbreviation Row := (gmap string Value).

Lemma has_column_true cols c : has_column cols c = true ↔ c ∈ cols.
Proof. unfold has_column. apply bool_decide_eq_true. Qed.

Lemma has_column_false cols c : has_column cols c = false ↔ c ∉ cols.
Proof. unfold has_column. apply bool_decide_eq_false. Qed.

Lemma has_columns_true cols wanted :
  has_columns cols wanted = true ↔ ∀ c, c ∈ wanted → c ∈ cols.
Proof.
  unfold has_columns. rewrite forallb_forall. split.
  - intros H c Hc. apply has_column_true, H. by apply list_elem_of_In.
  - intros H c Hc. apply has_column_true, H. by apply list_elem_of_In.
Qed.

Lemma keep_lookup cols (row : Row) c :
  keep cols row !! c = if bool_decide (c ∈ cols) then Some (cell row c) else None.
Proof.
  unfold keep, project. induction cols as [|a cols IH]; simpl.
  - by rewrite lookup_empty.
  - destruct (decide (a = c)) as [->|Hne].
    + rewrite lookup_insert_eq. by rewrite bool_decide_eq_true_2 by (by left).
    + rewrite lookup_insert_ne by done. rewrite IH.
      apply (f_equal (λ b : bool, if b then Some (cell row c) else None)).
      apply bool_decide_ext. rewrite elem_of_cons. split; [by right|].
      by intros [->|?].
Qed.

Lemma cell_keep cols (row : Row) c :
  cell (keep cols row) c = if bool_decide (c ∈ cols) then cell row c else NaN.
Proof. unfold cell at 1. rewrite keep_lookup. by destruct (bool_decide _). Qed.

Lemma keep_ext cols (r1 r2 : Row) :
  (∀ c, c ∈ cols → cell r1 c = cell r2 c) → keep cols r1 = keep cols r2.
Proof.
  intros H. apply map_eq. intros c. rewrite !keep_lookup.
  destruct (bool_decide (c ∈ cols)) eqn:Hc; [|done].
  apply bool_decide_eq_true in Hc. by rewrite H.
Qed.

Lemma keep_keep cols (row : Row) : keep cols (keep cols row) = keep cols row.
Proof.
  apply keep_ext. intros c Hc. rewrite cell_keep. by rewrite bool_decide_eq_true_2.
Qed.

Lemma mapM_map {X Y : Type} (f : X → result Y) (g : X → Y) xs :
  (∀ x, x ∈ xs → f x = Ok (g x)) → mapM f xs = Ok (map g xs).
Proof.
  induction xs as [|x xs IH]; intros H; simpl; [done|].
  rewrite (H x) by (by left). simpl. rewrite IH; [done|].
  intros y Hy. apply H. by right.
Qed.

(** [df[cols]] after [_ensure_columns(df, cols)]. *)
Lemma ensure_getitem df cols :
  getitem (_ensure_columns df cols) cols
  = Ok {| columns := cols; rows := map (keep cols) (rows df) |}.
Proof.
  unfold getitem, _ensure_columns. simpl.
  set (all := Tables.columns df ++ _).
  assert (Hall : ∀ c, c ∈ cols → c ∈ all).
  { intros c Hc. subst all. apply elem_of_app.
    destruct (decide (c ∈ Tables.columns df)) as [?|Hnin]; [by left|right].
    apply list_elem_of_In, filter_In. split; [by apply list_elem_of_In|].
    apply negb_true_iff. by apply has_column_false. }
  rewrite (proj2 (has_columns_true all cols) Hall). f_equal. f_equal.
  rewrite map_map. apply map_ext. intros row. apply keep_ext.
  intros c Hc. rewrite cell_keep. by rewrite bool_decide_eq_true_2 by (by apply Hall).
Qed.



End tables_extras.



(** X16.  After [_ensure_columns(df, columns)] the selection
    [df[columns]] never raises: it has exactly the wanted columns and as
    many rows as [df]; every wanted cell is the cell of [df] (so [NaN] in a
    column that [df] did not have), and no other cell is left. *)
Theorem ensure_columns_makes_selection_total
    (df : Tables.DataFrame) (columns : list string) :
  ∃ out,
    Tables.getitem (Tables._ensure_columns df columns) columns = Ok out ∧
    Tables.columns out = columns ∧
    Tables.len out = Tables.len df ∧
    ∀ i row, Tables.rows df !! i = Some row →
      ∃ row', Tables.rows out !! i = Some row' ∧
              ∀ c, Tables.cell row' c
                   = if bool_decide (c ∈ columns) then Tables.cell row c else Tables.NaN.
Proof.
  rewrite ensure_getitem. eexists. split; [done|]. split; [done|]. split.
  - unfold Tables.len. simpl. by rewrite length_map.
  - intros i row Hi. exists (Tables.keep columns row). simpl. split.
    + change (map ?f ?l) with (f <$> l). by rewrite list_lookup_fmap, Hi.
    + intros c. apply cell_keep.
Qed.
